(** * Inventory reservation over Redis: the Lua scripts and InventoryService

    A shallow embedding of
    - scripts/reserve-stock.lua, release-reservation.lua,
      commit-reservation.lua, batch-reserve-stock.lua;
    - class InventoryService (src/services; InventoryService.js, listed at
      the end of CacheService.js) and the ioredis wrapper it talks through
      (config/redis.js);
    - the cleanupExpiredReservations job of workers/processors/inventory.js.

    Modelling choices.
    - The Redis keyspace is a finite map from key strings to entries, an
      entry being an integer value and an optional absolute expiry time in
      milliseconds.  An entry past its expiry stays in the map but is
      invisible to every command, as in Redis before the key is purged.
    - Stock counters and quantities are integers: Redis keeps them as decimal
      strings, Lua's [tonumber] and JavaScript's [parseInt] read them back.
      Neither the 64-bit range of Redis counters nor the 2^53 range of Lua
      numbers is modelled.
    - A script runs at one instant [now] (Redis freezes the clock while a
      script runs) and is one function on the keyspace.  A [redis.call] that
      fails aborts the script; what it wrote before stays written.
    - The connection to Redis does not fail: a command is rejected only by
      Redis itself.
    - Logging is left out.  recordInventoryMetric (config/metrics.js) returns
      when the metrics are disabled or have been set up, and throws a
      TypeError when they are enabled in a process where setupMetrics has
      not run.  The methods of InventoryService are taken in a process where
      it returns; the jobs of the workers, which call initializeStock and
      updateStock, take the state of the metrics as a parameter and meet the
      TypeError after the write of the call. *)

From Stdlib Require Import ZArith Lia Ascii String.
From stdpp Require Import gmap strings list fin_maps.

Local Open Scope Z_scope.

(** ** The Redis server *)
Module Redis.

Record entry := Entry { value : Z; expireAt : option Z }.

Abbreviation store := (gmap string entry).

(** A key with an expiry is gone once the clock is past it. *)
Definition live (now : Z) (e : entry) : bool :=
  match expireAt e with
  | None => true
  | Some t => now <=? t
  end.

Definition find (now : Z) (key : string) (db : store) : option entry :=
  match db !! key with
  | Some e => if live now e then Some e else None
  | None => None
  end.

(** GET key *)
Definition GET (now : Z) (key : string) (db : store) : option Z :=
  value <$> find now key db.

(** SET key v  (no expiry; an earlier expiry is dropped) *)
Definition SET (key : string) (v : Z) (db : store) : store :=
  <[key := Entry v None]> db.

(** SET key v EX ttl.  Redis rejects a ttl that is not positive. *)
Definition SET_EX (now : Z) (key : string) (v ttl : Z) (db : store)
  : option store :=
  if 0 <? ttl then Some (<[key := Entry v (Some (now + 1000 * ttl))]> db)
  else None.

(** INCRBY key n: a missing key counts as 0; an expiry is kept. *)
Definition INCRBY (now : Z) (key : string) (n : Z) (db : store) : store * Z :=
  match find now key db with
  | Some e => (<[key := Entry (value e + n) (expireAt e)]> db, value e + n)
  | None => (<[key := Entry n None]> db, n)
  end.

(** DECRBY key n *)
Definition DECRBY (now : Z) (key : string) (n : Z) (db : store) : store * Z :=
  INCRBY now key (- n) db.

(** DEL key: the number of keys removed. *)
Definition DEL (now : Z) (key : string) (db : store) : store * Z :=
  (delete key db, if find now key db is Some _ then 1 else 0).

(** EXISTS key *)
Definition EXISTS (now : Z) (key : string) (db : store) : Z :=
  if find now key db is Some _ then 1 else 0.

(** TTL key: -2 without the key, -1 without an expiry, else the remaining
    time in seconds, rounded from milliseconds. *)
Definition TTL (now : Z) (key : string) (db : store) : Z :=
  match find now key db with
  | None => -2
  | Some e =>
      match expireAt e with
      | None => -1
      | Some t => (t - now + 500) / 1000
      end
  end.

(** Glob patterns, as far as the service uses them: literal characters and
    [*] for any run of characters. *)
Fixpoint glob (pattern : string) : string → bool :=
  match pattern with
  | EmptyString => λ s, match s with EmptyString => true | _ => false end
  | String c pattern' =>
      if Ascii.eqb c "*"%char then
        fix star (s : string) : bool :=
          glob pattern' s
          || match s with
             | EmptyString => false
             | String _ s' => star s'
             end
      else
        λ s, match s with
             | EmptyString => false
             | String d s' => Ascii.eqb c d && glob pattern' s'
             end
  end.

(** KEYS pattern: the live keys that match. *)
Definition KEYS (now : Z) (pattern : string) (db : store) : list string :=
  (map_to_list (filter (λ kv, glob pattern kv.1 && live now kv.2) db)).*1.

End Redis.

Import Redis.

(** ** The Lua scripts *)
Module Lua.

(** What aborts a script. *)
Inductive failure : Type :=
  | InvalidExpireTime   (* SET ... EX with a ttl that is not positive *)
  | NilValue            (* a KEYS or ARGV slot that is not there *)
  | TypeError.          (* JavaScript: a property of undefined *)

Inductive outcome (A : Type) : Type :=
  | Return (a : A)
  | Raise (e : failure).
Arguments Return {A} a.
Arguments Raise {A} e.

(** A script threads the keyspace; after [Raise] the keyspace holds what was
    written before. *)
Definition script (A : Type) : Type := store → store * outcome A.

#[global] Instance script_ret : MRet script :=
  λ A a db, (db, Return a).

#[global] Instance script_bind : MBind script :=
  λ A B f m db,
    match m db with
    | (db', Return a) => f a db'
    | (db', Raise e) => (db', Raise e)
    end.

Definition raise {A : Type} (e : failure) : script A :=
  λ db, (db, Raise e).

(** redis.call(...) at the instant [now] of the script. *)
Section Calls.
Variable now : Z.

Definition call_GET (key : string) : script (option Z) :=
  λ db, (db, Return (GET now key db)).

Definition call_DECRBY (key : string) (n : Z) : script Z :=
  λ db, let '(db', v) := DECRBY now key n db in (db', Return v).

Definition call_INCRBY (key : string) (n : Z) : script Z :=
  λ db, let '(db', v) := INCRBY now key n db in (db', Return v).

Definition call_SET_EX (key : string) (v ttl : Z) : script unit :=
  λ db, match SET_EX now key v ttl db with
        | Some db' => (db', Return tt)
        | None => (db, Raise InvalidExpireTime)
        end.

Definition call_DEL (key : string) : script Z :=
  λ db, let '(db', n) := DEL now key db in (db', Return n).

(** [tonumber(redis.call("GET", key) or "0")] *)
Definition get_number (key : string) : script Z :=
  r ← call_GET key; mret (default 0 r).

(** scripts/reserve-stock.lua:
    KEYS[1] stock key, KEYS[2] reservation key, ARGV[1] qty, ARGV[2] ttl;
    the reply is [{1, stock - qty}] or [{0, stock}]. *)
Definition reserve_stock (KEYS1 KEYS2 : string) (ARGV1 ARGV2 : Z)
  : script (Z * Z) :=
  stock ← get_number KEYS1;
  let qty := ARGV1 in
  let ttl := ARGV2 in
  if qty <=? stock then
    _ ← call_DECRBY KEYS1 qty;
    _ ← call_SET_EX KEYS2 qty ttl;
    mret (1, stock - qty)
  else
    mret (0, stock).

(** scripts/release-reservation.lua: the reply is [{1, qty, newStock}] or
    [{0, 0, stock}]. *)
Definition release_reservation (KEYS1 KEYS2 : string) : script (Z * Z * Z) :=
  reservation ← call_GET KEYS2;
  match reservation with
  | Some qty =>
      _ ← call_INCRBY KEYS1 qty;
      _ ← call_DEL KEYS2;
      newStock ← get_number KEYS1;
      mret (1, qty, newStock)
  | None =>
      stock ← get_number KEYS1;
      mret (0, 0, stock)
  end.

(** scripts/commit-reservation.lua: the reply is [{1, qty, currentStock}]
    or [{0, 0, stock}]. *)
Definition commit_reservation (KEYS1 KEYS2 : string) : script (Z * Z * Z) :=
  reservation ← call_GET KEYS2;
  match reservation with
  | Some qty =>
      _ ← call_DEL KEYS2;
      currentStock ← get_number KEYS1;
      mret (1, qty, currentStock)
  | None =>
      stock ← get_number KEYS1;
      mret (0, 0, stock)
  end.

(** scripts/batch-reserve-stock.lua.
    A row of [results] is [{stockKey, success, available, requested}]; a row
    of [reservations] is [{stockKey, reservationKey, qty, ttl}], where the
    reservation key and the ttl are [nil] when KEYS or ARGV is too short. *)
Definition result_row : Type := string * Z * Z * Z.
Definition reservation_row : Type := string * option string * Z * option Z.

Record first_pass_state := FirstPass {
  allSuccess : bool;
  results : list result_row;
  reservations : list reservation_row
}.

(** One turn of the first loop, for [i] at [stockKey = KEYS[i]]. *)
Definition check_item (stockKey : string) (reservationKey : option string)
    (ARGV_i ARGV_i1 : option Z) (acc : first_pass_state)
  : script first_pass_state :=
  match ARGV_i with
  | None => raise NilValue          (* stock < nil *)
  | Some qty =>
      stock ← get_number stockKey;
      if stock <? qty then
        mret (FirstPass false
                (results acc ++ [(stockKey, 0, stock, qty)])
                (reservations acc))
      else
        mret (FirstPass (allSuccess acc)
                (results acc ++ [(stockKey, 1, stock, qty)])
                (reservations acc
                   ++ [(stockKey, reservationKey, qty, ARGV_i1)]))
  end.

(** [for i = 1, keyCount, 2 do ... end]: the loop walks KEYS two slots at a
    time and reads ARGV at the same indices. *)
Fixpoint first_pass (KEYS : list string) (ARGV : list Z)
    (acc : first_pass_state) : script first_pass_state :=
  match KEYS with
  | [] => mret acc
  | [stockKey] =>
      check_item stockKey None (ARGV !! 0%nat) (ARGV !! 1%nat) acc
  | stockKey :: reservationKey :: KEYS' =>
      acc' ← check_item stockKey (Some reservationKey)
               (ARGV !! 0%nat) (ARGV !! 1%nat) acc;
      first_pass KEYS' (drop 2 ARGV) acc'
  end.

(** One turn of the second loop. *)
Definition make_reservation (reservation : reservation_row) : script unit :=
  let '(stockKey, reservationKey, qty, ttl) := reservation in
  _ ← call_DECRBY stockKey qty;
  match reservationKey, ttl with
  | Some reservationKey, Some ttl => call_SET_EX reservationKey qty ttl
  | _, _ => raise NilValue
  end.

Fixpoint second_pass (reservations : list reservation_row) : script unit :=
  match reservations with
  | [] => mret tt
  | reservation :: rest =>
      _ ← make_reservation reservation;
      second_pass rest
  end.

Definition batch_reserve_stock (KEYS : list string) (ARGV : list Z)
  : script (Z * list result_row) :=
  st ← first_pass KEYS ARGV (FirstPass true [] []);
  if allSuccess st then
    _ ← second_pass (reservations st);
    mret (1, results st)
  else
    mret (0, results st).

End Calls.

End Lua.

Import Lua.

(** ** JavaScript strings *)
Module JS.

(** [s.slice(n)] *)
Fixpoint slice (n : nat) (s : string) : string :=
  match n, s with
  | O, _ => s
  | S n', String _ s' => slice n' s'
  | S _, EmptyString => EmptyString
  end.

(** [s.replace(pattern, replacement)] for a string pattern: the first
    occurrence only. *)
Fixpoint replace (pattern replacement s : string) : string :=
  if String.prefix pattern s then
    replacement +:+ slice (String.length pattern) s
  else
    match s with
    | EmptyString => EmptyString
    | String c s' => String c (replace pattern replacement s')
    end.

(** [s.split(sep)] for a one-character separator. *)
Fixpoint split (sep : ascii) (s : string) : list string :=
  match s with
  | EmptyString => [EmptyString]
  | String c s' =>
      if Ascii.eqb c sep then EmptyString :: split sep s'
      else match split sep s' with
           | part :: parts => String c part :: parts
           | [] => [String c EmptyString]
           end
  end.

(** A number used as a condition: 0 is false. *)
Definition truthy (n : Z) : bool := negb (n =? 0).

End JS.

(** ** InventoryService, through the ioredis client

    The client is created with the option [keyPrefix]
    (config.redis.keyPrefix).  ioredis puts the prefix in front of every key
    argument of a command, the KEYS of [evalsha] included; it leaves the
    pattern of [keys] and the key names inside replies as they are. *)
Module InventoryService.

Record item := Item { sku : string; quantity : Z }.

(** The objects the methods resolve to. *)
Inductive ReserveResult : Type :=
  | Reserved (reservedQuantity remainingStock : Z)
             (reservationKey : string) (expiresAt : Z)      (* success: true *)
  | NotReserved (availableStock requestedQuantity : Z).     (* success: false *)

Inductive ReleaseResult : Type :=
  | Released (releasedQuantity newStock : Z)                (* success: true *)
  | NotReleased (currentStock : Z).                         (* success: false *)

Inductive CommitResult : Type :=
  | Committed (committedQuantity remainingStock : Z)        (* success: true *)
  | NotCommitted (currentStock : Z).                        (* success: false *)

Record ItemResult := ItemResult_ {
  item_sku : string;
  item_success : bool;
  availableStock : Z;
  requestedQuantity : Z
}.

Inductive BatchResult : Type :=
  | BatchReserved (reservations : list ItemResult) (expiresAt : Z)
  | BatchNotReserved (reservations : list ItemResult).

Record ReservationInfo := ReservationInfo_ {
  info_sku : string;
  info_quantity : Z;
  info_ttl : Z;
  info_expiresAt : Z
}.

(** Helper methods *)
Definition getStockKey (sku : string) : string :=
  "stock:sku:" +:+ sku.

Definition getReservationKey (orderId sku : string) : string :=
  "reservation:" +:+ orderId +:+ ":" +:+ sku.

Definition extractSkuFromStockKey (stockKey : string) : string :=
  JS.replace "stock:sku:" "" stockKey.

Definition extractSkuFromReservationKey (reservationKey : string) : string :=
  List.last (JS.split ":" reservationKey) EmptyString.

(** An async method: it changes the keyspace and resolves to a value or
    rejects with the error of the Redis call. *)
Definition async (A : Type) : Type := script A.

Section Service.
Variable keyPrefix : string.

(** The key as the server sees it. *)
Definition prefixed (key : string) : string := keyPrefix +:+ key.

(** The clock of the call. *)
Variable now : Z.

(** [ttlSeconds] is a number of seconds (config.redis.ttl.reservation, 900,
    by default).  The service passes it on unchecked; Redis rejects the SET
    of a reservation whose expiry is not positive, and the call is then
    rejected with what the script wrote before that SET still written. *)

Definition initializeStock (sku : string) (quantity : Z) : async Z :=
  let stockKey := getStockKey sku in
  λ db, (SET (prefixed stockKey) quantity db, Return quantity).

Definition getStock (sku : string) (db : store) : Z :=
  let stockKey := getStockKey sku in
  default 0 (GET now (prefixed stockKey) db).

Definition reserveStock (orderId sku : string) (quantity : Z)
    (ttlSeconds : Z) : async ReserveResult :=
  let stockKey := getStockKey sku in
  let reservationKey := getReservationKey orderId sku in
  '(success, remainingStock) ←
    reserve_stock now (prefixed stockKey) (prefixed reservationKey)
      quantity ttlSeconds;
  if JS.truthy success then
    mret (Reserved quantity remainingStock reservationKey
            (now + ttlSeconds * 1000))
  else
    mret (NotReserved remainingStock quantity).

Definition releaseReservation (orderId sku : string) : async ReleaseResult :=
  let stockKey := getStockKey sku in
  let reservationKey := getReservationKey orderId sku in
  '(success, releasedQuantity, newStock) ←
    release_reservation now (prefixed stockKey) (prefixed reservationKey);
  if JS.truthy success then mret (Released releasedQuantity newStock)
  else mret (NotReleased newStock).

Definition commitReservation (orderId sku : string) : async CommitResult :=
  let stockKey := getStockKey sku in
  let reservationKey := getReservationKey orderId sku in
  '(success, committedQuantity, remainingStock) ←
    commit_reservation now (prefixed stockKey) (prefixed reservationKey);
  if JS.truthy success then
    mret (Committed committedQuantity remainingStock)
  else
    mret (NotCommitted remainingStock).

(** The two arrays [batchReserveStock] builds from the items. *)
Fixpoint batch_keys (orderId : string) (items : list item) : list string :=
  match items with
  | [] => []
  | it :: items' =>
      getStockKey (sku it) :: getReservationKey orderId (sku it)
        :: batch_keys orderId items'
  end.

Fixpoint batch_args (items : list item) (ttlSeconds : Z) : list Z :=
  match items with
  | [] => []
  | it :: items' =>
      quantity it :: ttlSeconds :: batch_args items' ttlSeconds
  end.

Definition reservationResult (row : result_row) : ItemResult :=
  let '(stockKey, success, available, requested) := row in
  ItemResult_ (extractSkuFromStockKey stockKey) (success =? 1)
    available requested.

Definition batchReserveStock (orderId : string) (items : list item)
    (ttlSeconds : Z) : async BatchResult :=
  let keys := batch_keys orderId items in
  let args := batch_args items ttlSeconds in
  '(allSuccess, results) ←
    batch_reserve_stock now (prefixed <$> keys) args;
  let reservationResults := reservationResult <$> results in
  if JS.truthy allSuccess then
    mret (BatchReserved reservationResults (now + ttlSeconds * 1000))
  else
    mret (BatchNotReserved reservationResults).

Definition hasReservation (orderId sku : string) (db : store) : Z :=
  let reservationKey := getReservationKey orderId sku in
  EXISTS now (prefixed reservationKey) db.

Definition getReservation (orderId sku : string) (db : store)
  : option ReservationInfo :=
  let reservationKey := getReservationKey orderId sku in
  match GET now (prefixed reservationKey) db with
  | None => None
  | Some quantity =>
      let ttl := TTL now (prefixed reservationKey) db in
      Some (ReservationInfo_ sku quantity ttl (now + ttl * 1000))
  end.

(** [cleanupExpiredReservations]: the loop over the keys that
    [keys('reservation:*')] returned. *)
Fixpoint cleanup_loop (keys : list string) (cleanedCount : Z) (db : store)
  : store * Z :=
  match keys with
  | [] => (db, cleanedCount)
  | key :: keys' =>
      let ttl := TTL now (prefixed key) db in
      if ttl <=? 0 then
        let '(db', _) := DEL now (prefixed key) db in
        cleanup_loop keys' (cleanedCount + 1) db'
      else
        cleanup_loop keys' cleanedCount db
  end.

Definition cleanupExpiredReservations : async Z :=
  λ db,
    let pattern := "reservation:*" in
    let keys := KEYS now pattern db in
    let '(db', cleanedCount) := cleanup_loop keys 0 db in
    (db', Return cleanedCount).

End Service.

End InventoryService.

Import InventoryService.

(** ** The inventory worker (workers/processors/inventory.js) *)
Module InventoryJob.

Record CleanupReport := CleanupReport_ { success : bool; cleanedCount : Z }.

Definition cleanupExpiredReservations (keyPrefix : string) (now : Z)
  : async CleanupReport :=
  cleanedCount ← InventoryService.cleanupExpiredReservations keyPrefix now;
  mret (CleanupReport_ true cleanedCount).

(** The job run once at each of the given instants, one after the other. *)
Fixpoint sweep (keyPrefix : string) (times : list Z) (db : store) : store :=
  match times with
  | [] => db
  | now :: times' =>
      sweep keyPrefix times' (cleanupExpiredReservations keyPrefix now db).1
  end.

End InventoryJob.

(** ** Histories of calls to the reservation engine *)
Module Engine.

Inductive call : Type :=
  | Reserve (orderId sku : string) (quantity : Z) (ttlSeconds : Z)
  | BatchReserve (orderId : string) (items : list item) (ttlSeconds : Z)
  | Release (orderId sku : string)
  | Commit (orderId sku : string).

(** [after_prefix p s]: what follows [p] in [s], when [s] begins with [p]. *)
Fixpoint after_prefix (p s : string) : option string :=
  match p with
  | EmptyString => Some s
  | String a p' =>
      match s with
      | EmptyString => None
      | String b s' => if Ascii.eqb a b then after_prefix p' s' else None
      end
  end.

(** [names_sku sku rest]: [rest] is [orderId:sku] for some [orderId]. *)
Fixpoint names_sku (sku rest : string) : bool :=
  match rest with
  | EmptyString => false
  | String c rest' =>
      (Ascii.eqb c ":" && String.eqb rest' sku) || names_sku sku rest'
  end.

Section History.
Variable keyPrefix : string.

(** The keyspace after initializeStock for each listed SKU. *)
Definition initial (levels : list (string * Z)) : store :=
  foldl (λ db level, (initializeStock keyPrefix level.1 level.2 db).1)
    ∅ levels.

Definition initializable (levels : list (string * Z)) : bool :=
  forallb (λ level, 0 <=? level.2) levels.

Definition perform (now : Z) (c : call) (db : store) : store :=
  match c with
  | Reserve orderId sku quantity ttlSeconds =>
      (reserveStock keyPrefix now orderId sku quantity ttlSeconds db).1
  | BatchReserve orderId items ttlSeconds =>
      (batchReserveStock keyPrefix now orderId items ttlSeconds db).1
  | Release orderId sku => (releaseReservation keyPrefix now orderId sku db).1
  | Commit orderId sku => (commitReservation keyPrefix now orderId sku db).1
  end.

(** The units of [sku] a call turns into a sale: the quantity that a
    successful commit of that SKU reports. *)
Definition sold (sku : string) (now : Z) (c : call) (db : store) : Z :=
  match c with
  | Commit orderId sku' =>
      if String.eqb sku' sku then
        match commitReservation keyPrefix now orderId sku' db with
        | (_, Return (Committed committedQuantity _)) => committedQuantity
        | _ => 0
        end
      else 0
  | _ => 0
  end.

(** A history is a list of calls, each with the instant it runs at. *)
Fixpoint run (db : store) (history : list (Z * call)) : store :=
  match history with
  | [] => db
  | (now, c) :: history' => run (perform now c db) history'
  end.

Fixpoint committed (sku : string) (db : store) (history : list (Z * call))
  : Z :=
  match history with
  | [] => 0
  | (now, c) :: history' =>
      sold sku now c db + committed sku (perform now c db) history'
  end.

(** The reservation records of a SKU in the keyspace: the keys that
    getReservationKey builds for the SKU and some order, under the key prefix
    of the client.  These are the keys that getReservation,
    releaseReservation and commitReservation address for the SKU. *)
Definition is_reservation_of (sku key : string) : bool :=
  match after_prefix (prefixed keyPrefix "reservation:") key with
  | Some rest => names_sku sku rest
  | None => false
  end.

(** The sum of a weight over the entries of the keyspace. *)
Definition total (weight : string → entry → Z) (db : store) : Z :=
  map_fold (λ key e sum, weight key e + sum) 0 db.

(** The units of [sku] held by reservations that are live at [now]. *)
Definition held (now : Z) (sku : string) (db : store) : Z :=
  total (λ key e,
           if is_reservation_of sku key && live now e then value e else 0)
    db.

(** The same two quantities as stored, whatever the clock. *)
Definition stored_stock (sku : string) (db : store) : Z :=
  default 0 (value <$> db !! prefixed keyPrefix (getStockKey sku)).

Definition stored_held (sku : string) (db : store) : Z :=
  total (λ key e, if is_reservation_of sku key then value e else 0) db.

(** No stored value is negative. *)
Definition sound (db : store) : Prop :=
  map_Forall (λ _ e, 0 ≤ value e) db.

(** Conditions on a history. *)
Fixpoint colon_free (s : string) : bool :=
  match s with
  | EmptyString => true
  | String c s' => negb (Ascii.eqb c ":") && colon_free s'
  end.

Definition unexpired (now : Z) (db : store) : bool :=
  bool_decide (map_Forall (λ _ e, live now e = true) db).

Definition unreserved (now : Z) (orderId sku : string) (db : store) : bool :=
  hasReservation keyPrefix now orderId sku db =? 0.

Definition admissible (now : Z) (c : call) (db : store) : bool :=
  unexpired now db &&
  match c with
  | Reserve orderId sku quantity ttlSeconds =>
      (0 <? quantity) && (0 <? ttlSeconds) && colon_free sku
      && unreserved now orderId sku db
  | BatchReserve orderId items ttlSeconds =>
      forallb (λ it, (0 <? quantity it) && colon_free (sku it)
                     && unreserved now orderId (sku it) db) items
      && (0 <? ttlSeconds)
      && bool_decide (NoDup (sku <$> items))
  | Release _ sku => colon_free sku
  | Commit _ sku => colon_free sku
  end.

Fixpoint admissible_history (db : store) (history : list (Z * call)) : bool :=
  match history with
  | [] => true
  | (now, c) :: history' =>
      admissible now c db && admissible_history (perform now c db) history'
  end.

End History.

End Engine.

Import Engine.

(** ** The keyspace after a call *)
Module Effect.

Section Effect.
Variables (keyPrefix : string) (now : Z).

(** After the DECRBY of a reserve. *)
Definition decremented_store (sku : string) (quantity : Z) (db : store)
  : store :=
  let stockKey := prefixed keyPrefix (getStockKey sku) in
  <[stockKey := Entry (getStock keyPrefix now sku db - quantity)
                  (find now stockKey db ≫= expireAt)]> db.

(** After a reserve that went through. *)
Definition reserved_store (orderId sku : string) (quantity : Z)
    (ttlSeconds : Z) (db : store) : store :=
  let stockKey := prefixed keyPrefix (getStockKey sku) in
  let reservationKey := prefixed keyPrefix (getReservationKey orderId sku) in
  <[reservationKey := Entry quantity (Some (now + 1000 * ttlSeconds))]>
    (<[stockKey := Entry (getStock keyPrefix now sku db - quantity)
                     (find now stockKey db ≫= expireAt)]> db).

(** After a release that found a reservation of [qty]. *)
Definition released_store (orderId sku : string) (qty : Z) (db : store)
  : store :=
  let stockKey := prefixed keyPrefix (getStockKey sku) in
  let reservationKey := prefixed keyPrefix (getReservationKey orderId sku) in
  delete reservationKey
    (<[stockKey := Entry (getStock keyPrefix now sku db + qty)
                     (find now stockKey db ≫= expireAt)]> db).

(** What the batch script finds for an item, and the row
    batchReserveStock makes of it. *)
Definition sufficient (db : store) (it : item) : bool :=
  quantity it <=? getStock keyPrefix now (sku it) db.

Definition itemResult (db : store) (it : item) : ItemResult :=
  ItemResult_
    (extractSkuFromStockKey (prefixed keyPrefix (getStockKey (sku it))))
    (sufficient db it)
    (getStock keyPrefix now (sku it) db)
    (quantity it).

(** The rows the batch script collects for an item. *)
Definition result_row_of (db : store) (it : item) : result_row :=
  (prefixed keyPrefix (getStockKey (sku it)),
   if sufficient db it then 1 else 0,
   getStock keyPrefix now (sku it) db,
   quantity it).

Definition reservation_row_of (orderId : string) (ttlSeconds : Z)
    (it : item) : reservation_row :=
  (prefixed keyPrefix (getStockKey (sku it)),
   Some (prefixed keyPrefix (getReservationKey orderId (sku it))),
   quantity it,
   Some ttlSeconds).

(** After the second loop of the batch script. *)
Definition batch_reserved_store (orderId : string) (items : list item)
    (ttlSeconds : Z) (db : store) : store :=
  foldl (λ db it, reserved_store orderId (sku it) (quantity it) ttlSeconds db)
    db items.

End Effect.

End Effect.

Import Effect.

(** ** Scenarios *)
Module Scenario.

(** 10 units of SKU-1, of which order-1 has reserved 3 for 900 seconds. *)
Definition held3 : store :=
  (reserveStock "aether:" 0 "order-1" "SKU-1" 3 900
     (initial "aether:" [("SKU-1", 10)])).1.

(** 10 units of SKU-1, of which order-1 has reserved 4 for one second at
    instant 0. *)
Definition held4 : store :=
  (reserveStock "aether:" 0 "order-1" "SKU-1" 4 1
     (initial "aether:" [("SKU-1", 10)])).1.

(** Two SKUs and five calls: a reserve, a batch, a commit, a release and a
    reserve that finds too little stock. *)
Definition two_skus : list (string * Z) := [("SKU-1", 10); ("SKU-2", 4)].

Definition five_calls : list (Z * call) :=
  [(0, Reserve "order-1" "SKU-1" 3 900);
   (1000, BatchReserve "order-2" [Item "SKU-1" 2; Item "SKU-2" 4] 900);
   (2000, Commit "order-1" "SKU-1");
   (3000, Release "order-2" "SKU-2");
   (4000, Reserve "order-3" "SKU-2" 5 900)].

End Scenario.

Import Scenario.

(** ** The rest of InventoryService

    The loops over SKUs, keys and variants below are taken at one instant
    [now], like the sweep. *)
Module InventoryOps.

(** One entry of the arrays releaseOrderReservations and
    commitOrderReservations return: [{sku, ...result}], or
    [{sku, success: false, error}] when the call was rejected. *)
Inductive SkuResult (A : Type) : Type :=
  | Resolved (sku : string) (result : A)
  | Rejected (sku : string) (error : failure).
Arguments Resolved {A} sku result.
Arguments Rejected {A} sku error.

Definition result_sku {A : Type} (r : SkuResult A) : string :=
  match r with
  | Resolved sku _ => sku
  | Rejected sku _ => sku
  end.

(** The strings without the character [c]. *)
Fixpoint lacks (c : ascii) (s : string) : bool :=
  match s with
  | EmptyString => true
  | String d s' => negb (Ascii.eqb d c) && lacks c s'
  end.

(** [sku.split('_')[0] || 'unknown'] *)
Definition extractMerchantFromSku (sku : string) : string :=
  match JS.split "_" sku with
  | EmptyString :: _ => "unknown"
  | part :: _ => part
  | [] => "unknown"
  end.

Section Service.
Variables (keyPrefix : string) (now : Z).

(** updateStock(sku, quantity, operation = 'set') *)
Definition updateStock (sku : string) (quantity : Z) (operation : string)
  : async Z :=
  let stockKey := getStockKey sku in
  if String.eqb operation "increment" then
    λ db, let '(db', newStock) :=
            INCRBY now (prefixed keyPrefix stockKey) quantity db in
          (db', Return newStock)
  else if String.eqb operation "decrement" then
    λ db, let '(db', newStock) :=
            DECRBY now (prefixed keyPrefix stockKey) quantity db in
          (db', Return newStock)
  else
    λ db, (SET (prefixed keyPrefix stockKey) quantity db, Return quantity).

(** [for (const sku of skus) { try { ... } catch (error) { ... } }] *)
Fixpoint releaseOrderReservations_loop (orderId : string) (skus : list string)
    (results : list (SkuResult ReleaseResult)) (db : store)
  : store * list (SkuResult ReleaseResult) :=
  match skus with
  | [] => (db, results)
  | sku :: skus' =>
      match releaseReservation keyPrefix now orderId sku db with
      | (db', Return result) =>
          releaseOrderReservations_loop orderId skus'
            (results ++ [Resolved sku result]) db'
      | (db', Raise error) =>
          releaseOrderReservations_loop orderId skus'
            (results ++ [Rejected sku error]) db'
      end
  end.

Definition releaseOrderReservations (orderId : string) (skus : list string)
  : async (list (SkuResult ReleaseResult)) :=
  λ db, let '(db', results) := releaseOrderReservations_loop orderId skus [] db in
        (db', Return results).

Fixpoint commitOrderReservations_loop (orderId : string) (skus : list string)
    (results : list (SkuResult CommitResult)) (db : store)
  : store * list (SkuResult CommitResult) :=
  match skus with
  | [] => (db, results)
  | sku :: skus' =>
      match commitReservation keyPrefix now orderId sku db with
      | (db', Return result) =>
          commitOrderReservations_loop orderId skus'
            (results ++ [Resolved sku result]) db'
      | (db', Raise error) =>
          commitOrderReservations_loop orderId skus'
            (results ++ [Rejected sku error]) db'
      end
  end.

Definition commitOrderReservations (orderId : string) (skus : list string)
  : async (list (SkuResult CommitResult)) :=
  λ db, let '(db', results) := commitOrderReservations_loop orderId skus [] db in
        (db', Return results).

End Service.

(** The units of [sku] that the entries of a release report as released. *)
Definition released_units (sku : string)
    (results : list (SkuResult ReleaseResult)) : Z :=
  foldr (λ r sum,
           match r with
           | Resolved sku' (Released releasedQuantity _) =>
               if String.eqb sku' sku then releasedQuantity + sum else sum
           | _ => sum
           end)
    0 results.

(** getReservation with the instants of its two commands and of the
    client's clock apart: [await redis.get] at [t_get], [await ttl] at
    [t_ttl], [Date.now()] giving [clock]. *)
Definition getReservation_at (keyPrefix : string) (t_get t_ttl clock : Z)
    (orderId sku : string) (db : store) : option ReservationInfo :=
  let reservationKey := getReservationKey orderId sku in
  match GET t_get (prefixed keyPrefix reservationKey) db with
  | None => None
  | Some quantity =>
      let ttl := TTL t_ttl (prefixed keyPrefix reservationKey) db in
      Some (ReservationInfo_ sku quantity ttl (clock + ttl * 1000))
  end.

(** The units of [sku] that the items of a batch ask for. *)
Definition requested_units (sku : string) (items : list item) : Z :=
  foldr (λ it sum,
           if String.eqb (InventoryService.sku it) sku then quantity it + sum
           else sum)
    0 items.

End InventoryOps.

Import InventoryOps.

(** ** The scripts defined on the client (config/redis.js, loadLuaScripts) *)
Module RedisConnection.

Section Commands.
Variable now : Z.

(** defineCommand('reserveStock', ...): the reply is 1 or 0. *)
Definition reserveStock (KEYS1 KEYS2 : string) (ARGV1 ARGV2 : Z) : script Z :=
  stock ← get_number now KEYS1;
  let qty := ARGV1 in
  if qty <=? stock then
    _ ← call_DECRBY now KEYS1 qty;
    _ ← call_SET_EX now KEYS2 qty ARGV2;
    mret 1
  else
    mret 0.

(** defineCommand('releaseReservation', ...): the reply is 1 or 0. *)
Definition releaseReservation (KEYS1 KEYS2 : string) : script Z :=
  reservation ← call_GET now KEYS2;
  match reservation with
  | Some reservation =>
      _ ← call_INCRBY now KEYS1 reservation;
      _ ← call_DEL now KEYS2;
      mret 1
  | None => mret 0
  end.

End Commands.

End RedisConnection.

(** ** recordInventoryMetric (config/metrics.js) *)
Module Metrics.

(** [metrics] tells whether recordInventoryMetric returns in this process:
    [inventoryMetrics] is undefined until setupMetrics has run, and the
    metrics are enabled unless ENABLE_METRICS is 'false'. *)
Definition recordInventoryMetric (metrics : bool) : async unit :=
  if metrics then mret tt else raise TypeError.

(** A call of the service that ends with recordInventoryMetric, as
    initializeStock and updateStock do: the write, then the metric, then the
    value. *)
Definition recorded {A : Type} (metrics : bool) (call : async A) : async A :=
  a ← call;
  _ ← recordInventoryMetric metrics;
  mret a.

End Metrics.

Import Metrics.

(** ** The other inventory jobs (workers/processors/inventory.js)

    What Product.find and Product.findById return is an argument: the
    documents of the persistent store, with the fields the jobs read. *)
Module InventoryProcessor.

Record variant := Variant {
  variant_sku : string;
  variant_stock : Z;
  isActive : bool
}.

Record product := Product {
  product_id : string;
  title : string;
  product_merchantId : string;
  variants : list variant
}.

Record discrepancy := Discrepancy {
  productId : string;
  discrepancy_sku : string;
  discrepancy_title : string;
  redisStock : Z;
  mongoStock : Z;
  difference : Z
}.

Record tally := Tally {
  discrepancies : list discrepancy;
  reconciledCount : Z
}.

Record ReconcileReport := ReconcileReport_ {
  reconcile_success : bool;
  reconcile_merchantId : option string;
  productsChecked : nat;
  report_discrepancies : list discrepancy;
  report_reconciledCount : Z
}.

(** One entry of the results of syncInventory. *)
Inductive SyncResult : Type :=
  | Initialized (sku : string) (stock : Z)
  | Updated (sku : string) (oldStock newStock : Z)
  | InSync (sku : string) (stock : Z)
  | SyncError (sku : string) (error : failure).

Record sync_state := SyncState {
  syncedCount : Z;
  sync_results : list SyncResult
}.

Record SyncReport := SyncReport_ {
  sync_success : bool;
  sync_productId : string;
  report_syncedCount : Z;
  report_results : list SyncResult
}.

(** A job resolves to a report or throws its own [Error]. *)
Inductive thrown (A : Type) : Type :=
  | Resolves (a : A)
  | Throws (message : string).
Arguments Resolves {A} a.
Arguments Throws {A} message.

(** The variants the jobs look at, in the order they look at them. *)
Definition active_variants (products : list product) : list variant :=
  filter (λ v, isActive v = true) (concat (variants <$> products)).

Section Jobs.
Variables (keyPrefix : string) (now : Z) (metrics : bool).

(** [await InventoryService.getStock(sku)] *)
Definition await_getStock (sku : string) : async Z :=
  λ db, (db, Return (getStock keyPrefix now sku db)).

(** The body of the inner loop of reconcileInventory. *)
Definition reconcile_variant (p : product) (v : variant) (acc : tally)
  : async tally :=
  if isActive v then
    redisStock ← await_getStock (variant_sku v);
    let mongoStock := variant_stock v in
    if negb (redisStock =? mongoStock) then
      let found :=
        discrepancies acc
        ++ [Discrepancy (product_id p) (variant_sku v) (title p)
              redisStock mongoStock (redisStock - mongoStock)] in
      _ ← recorded metrics
            (updateStock keyPrefix now (variant_sku v) mongoStock "set");
      mret (Tally found (reconciledCount acc + 1))
    else
      mret acc
  else
    mret acc.

Fixpoint reconcile_variants (p : product) (vs : list variant) (acc : tally)
  : async tally :=
  match vs with
  | [] => mret acc
  | v :: vs' =>
      acc' ← reconcile_variant p v acc;
      reconcile_variants p vs' acc'
  end.

Fixpoint reconcile_products (products : list product) (acc : tally)
  : async tally :=
  match products with
  | [] => mret acc
  | p :: products' =>
      acc' ← reconcile_variants p (variants p) acc;
      reconcile_products products' acc'
  end.

Definition reconcileInventory (merchantId : option string)
    (products : list product) : async ReconcileReport :=
  acc ← reconcile_products products (Tally [] 0);
  mret (ReconcileReport_ true merchantId (length products)
          (discrepancies acc) (reconciledCount acc)).

(** The body of the loop of syncInventory, with its try and catch. *)
Definition sync_variant (v : variant) (st : sync_state) (db : store)
  : store * sync_state :=
  if isActive v then
    let sku := variant_sku v in
    let currentStock := getStock keyPrefix now sku db in
    if (currentStock =? 0) && (0 <? variant_stock v) then
      match recorded metrics
              (initializeStock keyPrefix sku (variant_stock v)) db with
      | (db', Return _) =>
          (db', SyncState (syncedCount st + 1)
                  (sync_results st ++ [Initialized sku (variant_stock v)]))
      | (db', Raise error) =>
          (db', SyncState (syncedCount st)
                  (sync_results st ++ [SyncError sku error]))
      end
    else if negb (currentStock =? variant_stock v) then
      match recorded metrics
              (updateStock keyPrefix now sku (variant_stock v) "set") db with
      | (db', Return _) =>
          (db', SyncState (syncedCount st + 1)
                  (sync_results st
                     ++ [Updated sku currentStock (variant_stock v)]))
      | (db', Raise error) =>
          (db', SyncState (syncedCount st)
                  (sync_results st ++ [SyncError sku error]))
      end
    else
      (db, SyncState (syncedCount st)
             (sync_results st ++ [InSync sku (variant_stock v)]))
  else
    (db, st).

Fixpoint sync_variants (vs : list variant) (st : sync_state) (db : store)
  : store * sync_state :=
  match vs with
  | [] => (db, st)
  | v :: vs' =>
      let '(db', st') := sync_variant v st db in
      sync_variants vs' st' db'
  end.

Definition syncInventory (productId : string) (found : option product)
    (db : store) : store * thrown SyncReport :=
  match found with
  | None => (db, Throws ("Product " +:+ productId +:+ " not found"))
  | Some p =>
      let '(db', st) := sync_variants (variants p) (SyncState 0 []) db in
      (db', Resolves (SyncReport_ true productId (syncedCount st)
                        (sync_results st)))
  end.

End Jobs.

End InventoryProcessor.

(** ** The order worker (workers/processors/order.js) *)
Module OrderProcessor.

Section Jobs.
Variables (keyPrefix : string) (now : Z) (metrics : bool).

(** processOrderRefunded, its part on the inventory:
    [for (const item of order.items)
       await InventoryService.updateStock(item.sku, item.quantity,
                                          'increment')] *)
Fixpoint returnStock (items : list item) : async unit :=
  match items with
  | [] => mret tt
  | it :: items' =>
      _ ← recorded metrics
            (updateStock keyPrefix now (sku it) (quantity it) "increment");
      returnStock items'
  end.

End Jobs.

End OrderProcessor.

(** ** The keys of one client *)
Module Keyspace.

(** Every key of the keyspace carries the key prefix of the client, as the
    keys have that this client wrote. *)
Definition under_prefix (keyPrefix : string) (db : store) : bool :=
  bool_decide (map_Forall (λ key _, String.prefix keyPrefix key = true) db).

(** The stock key of the SKU, if the keyspace has it, has not expired at
    [t].  (The service never gives a stock key an expiry.) *)
Definition stock_kept (keyPrefix : string) (t : Z) (sku : string)
    (db : store) : bool :=
  match db !! prefixed keyPrefix (getStockKey sku) with
  | Some e => live t e
  | None => true
  end.

End Keyspace.

Import Keyspace.

(** ** What the catalogue says of a SKU *)
Module Catalogue.

Import InventoryProcessor.

(** The stock of the last active variant with the SKU among the listed
    variants: the one the jobs look at last. *)
Definition listed_stock (sku : string) (vs : list variant) : option Z :=
  variant_stock
    <$> last (filter (λ v, variant_sku v = sku)
                (filter (λ v, isActive v = true) vs)).

Definition catalogue_stock (sku : string) (products : list product)
  : option Z :=
  listed_stock sku (concat (variants <$> products)).

(** Redis reads, for every active variant, the stock of the variant. *)
Definition in_sync (keyPrefix : string) (now : Z) (vs : list variant)
    (db : store) : bool :=
  forallb (λ v, getStock keyPrefix now (variant_sku v) db =? variant_stock v)
    (filter (λ v, isActive v = true) vs).

Definition sync_sku (r : SyncResult) : string :=
  match r with
  | Initialized sku _ | Updated sku _ _ | InSync sku _ | SyncError sku _ => sku
  end.

Definition sync_error (r : SyncResult) : bool :=
  match r with
  | SyncError _ _ => true
  | _ => false
  end.

(** The results with status initialized or updated. *)
Definition sync_wrote (r : SyncResult) : bool :=
  match r with
  | Initialized _ _ | Updated _ _ _ => true
  | _ => false
  end.

End Catalogue.

Import Catalogue.

(** * Properties *)

(** ** Key names *)
Section Keys.
Implicit Types (a b c s sku orderId keyPrefix : string).
Local Arguments String.append : simpl nomatch.

Lemma append_assoc a b c : (a +:+ b) +:+ c = a +:+ (b +:+ c).
Proof. induction a as [|x a IH]; cbn; [done | by rewrite IH]. Qed.

Lemma append_inj a b c : a +:+ b = a +:+ c → b = c.
Proof. induction a as [|x a IH]; cbn; [done | intros [= H]; auto]. Qed.

Lemma prefix_append a b : String.prefix a (a +:+ b) = true.
Proof.
  induction a as [|x a IH]; cbn; [by destruct b |].
  destruct (ascii_dec x x); [done | congruence].
Qed.

Lemma prefix_append_common a b c :
  String.prefix (a +:+ b) (a +:+ c) = String.prefix b c.
Proof.
  induction a as [|x a IH]; cbn; [done |].
  destruct (ascii_dec x x); [done | congruence].
Qed.

Lemma prefixed_inj keyPrefix a b :
  prefixed keyPrefix a = prefixed keyPrefix b → a = b.
Proof. apply append_inj. Qed.

Lemma getStockKey_inj sku sku' :
  getStockKey sku = getStockKey sku' → sku = sku'.
Proof. apply append_inj. Qed.

Lemma stock_key_inj keyPrefix sku sku' :
  prefixed keyPrefix (getStockKey sku) = prefixed keyPrefix (getStockKey sku')
  → sku = sku'.
Proof. intros H. by apply getStockKey_inj, (prefixed_inj keyPrefix). Qed.

Lemma stock_key_not_reservation_key keyPrefix sku orderId sku' :
  prefixed keyPrefix (getStockKey sku)
  ≠ prefixed keyPrefix (getReservationKey orderId sku').
Proof. intros H. apply prefixed_inj in H. discriminate H. Qed.

Lemma reservation_key_is_prefixed keyPrefix orderId sku :
  String.prefix (prefixed keyPrefix "reservation:")
    (prefixed keyPrefix (getReservationKey orderId sku)) = true.
Proof.
  unfold prefixed, getReservationKey.
  rewrite prefix_append_common. apply prefix_append.
Qed.

Lemma stock_key_is_not_prefixed keyPrefix sku :
  String.prefix (prefixed keyPrefix "reservation:")
    (prefixed keyPrefix (getStockKey sku)) = false.
Proof. unfold prefixed. by rewrite prefix_append_common. Qed.

Lemma split_nonempty sep s : JS.split sep s ≠ [].
Proof.
  destruct s as [|x s]; cbn; [done |].
  destruct (Ascii.eqb x sep); [done |]. by destruct (JS.split sep s).
Qed.

Lemma split_append sep a s :
  JS.split sep (a +:+ String sep s) = JS.split sep a ++ JS.split sep s.
Proof.
  induction a as [|x a IH]; cbn.
  - by rewrite Ascii.eqb_refl.
  - rewrite IH. destruct (Ascii.eqb x sep); [done |].
    pose proof (split_nonempty sep a). by destruct (JS.split sep a).
Qed.

Lemma split_colon_free s : colon_free s = true → JS.split ":" s = [s].
Proof.
  induction s as [|x s IH]; cbn; [done |].
  intros [Hx Hs]%andb_prop. apply negb_true_iff in Hx.
  rewrite Hx, IH; done.
Qed.

Lemma extractSku_reservation_key keyPrefix orderId sku :
  colon_free sku = true →
  extractSkuFromReservationKey
    (prefixed keyPrefix (getReservationKey orderId sku)) = sku.
Proof.
  intros Hsku. unfold extractSkuFromReservationKey, prefixed, getReservationKey.
  change (":" +:+ sku) with (String ":" sku).
  rewrite <- !append_assoc.
  rewrite split_append, (split_colon_free sku Hsku).
  apply last_last.
Qed.

Lemma slice_append a b : JS.slice (String.length a) (a +:+ b) = b.
Proof. induction a as [|x a IH]; cbn; [by destruct b | done]. Qed.

Lemma replace_unfold pattern replacement s :
  JS.replace pattern replacement s =
  if String.prefix pattern s then
    replacement +:+ JS.slice (String.length pattern) s
  else
    match s with
    | EmptyString => EmptyString
    | String x s' => String x (JS.replace pattern replacement s')
    end.
Proof. by destruct s. Qed.

Lemma replace_at_start pattern replacement s :
  JS.replace pattern replacement (pattern +:+ s) = replacement +:+ s.
Proof. by rewrite replace_unfold, prefix_append, slice_append. Qed.

(** Without a key prefix the SKU comes back out of the stock key. *)
Lemma extractSku_stock_key sku :
  extractSkuFromStockKey (getStockKey sku) = sku.
Proof. apply replace_at_start. Qed.

End Keys.

(** ** The Redis commands *)
Section Commands.
Implicit Types (db : store) (key : string) (e : entry) (now : Z).

Lemma find_insert now key e db :
  find now key (<[key := e]> db) = if live now e then Some e else None.
Proof. unfold find. by rewrite lookup_insert_eq. Qed.

Lemma find_insert_ne now key key' e db :
  key ≠ key' → find now key' (<[key := e]> db) = find now key' db.
Proof. intros H. unfold find. by rewrite lookup_insert_ne. Qed.

Lemma find_delete now key db : find now key (delete key db) = None.
Proof. unfold find. by rewrite lookup_delete_eq. Qed.

Lemma find_delete_ne now key key' db :
  key ≠ key' → find now key' (delete key db) = find now key' db.
Proof. intros H. unfold find. by rewrite lookup_delete_ne. Qed.

Lemma find_Some now key e db :
  find now key db = Some e ↔ db !! key = Some e ∧ live now e = true.
Proof.
  unfold find. destruct (db !! key) as [e'|]; [|by split; [|intros []]].
  destruct (live now e') eqn:He'; split.
  - by intros [= ->].
  - by intros [[= ->] _].
  - done.
  - intros [[= ->] He]. congruence.
Qed.

(** A counter keeps the expiry it had, and so stays live. *)
Lemma live_kept_expiry now key db v :
  live now (Entry v (find now key db ≫= expireAt)) = true.
Proof.
  destruct (find now key db) as [e|] eqn:He; [|done].
  apply find_Some in He as [_ He]. by destruct e.
Qed.

Lemma INCRBY_eq now key n db :
  INCRBY now key n db =
  (<[key := Entry (default 0 (GET now key db) + n)
               (find now key db ≫= expireAt)]> db,
   default 0 (GET now key db) + n).
Proof. unfold INCRBY, GET. by destruct (find now key db). Qed.

Lemma GET_insert now key e db :
  live now e = true → GET now key (<[key := e]> db) = Some (value e).
Proof. intros He. unfold GET. by rewrite find_insert, He. Qed.

Lemma GET_insert_ne now key key' e db :
  key ≠ key' → GET now key' (<[key := e]> db) = GET now key' db.
Proof. intros H. unfold GET. by rewrite find_insert_ne. Qed.

Lemma GET_delete now key db : GET now key (delete key db) = None.
Proof. unfold GET. by rewrite find_delete. Qed.

Lemma GET_delete_ne now key key' db :
  key ≠ key' → GET now key' (delete key db) = GET now key' db.
Proof. intros H. unfold GET. by rewrite find_delete_ne. Qed.

Lemma live_fresh_expiry now v (ttl : Z) :
  0 < ttl → live now (Entry v (Some (now + 1000 * ttl))) = true.
Proof. intros Httl. cbn. apply Z.leb_le. lia. Qed.

Lemma TTL_fresh now key v (ttl : Z) db :
  0 < ttl →
  TTL now key (<[key := Entry v (Some (now + 1000 * ttl))]> db) = ttl.
Proof.
  intros Httl. unfold TTL. rewrite find_insert, live_fresh_expiry by done.
  cbn. symmetry. apply (Z.div_unique _ _ _ 500); lia.
Qed.

End Commands.

(** ** The scripts, call by call *)

(** Unfolds the sequencing of a script. *)
Ltac script_unfold :=
  unfold mbind, script_bind, mret, script_ret, raise; cbn.

Section Scripts.
Implicit Types (db : store) (now qty ttl : Z).

Lemma reserve_stock_eq now KEYS1 KEYS2 qty ttl db :
  reserve_stock now KEYS1 KEYS2 qty ttl db =
  let stock := default 0 (GET now KEYS1 db) in
  if qty <=? stock then
    let db1 := (DECRBY now KEYS1 qty db).1 in
    match SET_EX now KEYS2 qty ttl db1 with
    | Some db2 => (db2, Return (1, stock - qty))
    | None => (db1, Raise InvalidExpireTime)
    end
  else (db, Return (0, stock)).
Proof.
  unfold reserve_stock, get_number, call_GET, call_DECRBY, call_SET_EX.
  script_unfold. destruct (qty <=? _); [|done].
  cbn. destruct (DECRBY now KEYS1 qty db) as [db1 v]. cbn.
  by destruct (SET_EX now KEYS2 qty ttl db1).
Qed.

(** With a ttl that is not positive and enough stock, the script has taken
    the quantity from the ledger when SET fails, and has no record to show for
    it. *)
Lemma reserve_stock_invalid_ttl now KEYS1 KEYS2 qty ttl db :
  ttl ≤ 0 → qty ≤ default 0 (GET now KEYS1 db) →
  reserve_stock now KEYS1 KEYS2 qty ttl db
  = ((DECRBY now KEYS1 qty db).1, Raise InvalidExpireTime).
Proof.
  intros Httl Hqty. rewrite reserve_stock_eq. cbn.
  rewrite (proj2 (Z.leb_le _ _)) by done.
  unfold SET_EX. by rewrite (proj2 (Z.ltb_ge _ _)) by done.
Qed.

Lemma release_reservation_eq now KEYS1 KEYS2 db :
  release_reservation now KEYS1 KEYS2 db =
  match GET now KEYS2 db with
  | Some qty =>
      let db2 := delete KEYS2 (INCRBY now KEYS1 qty db).1 in
      (db2, Return (1, qty, default 0 (GET now KEYS1 db2)))
  | None => (db, Return (0, 0, default 0 (GET now KEYS1 db)))
  end.
Proof.
  unfold release_reservation, get_number, call_GET, call_INCRBY, call_DEL.
  script_unfold. destruct (GET now KEYS2 db) as [qty|]; [|done].
  cbn. by destruct (INCRBY now KEYS1 qty db) as [db1 v].
Qed.

Lemma commit_reservation_eq now KEYS1 KEYS2 db :
  commit_reservation now KEYS1 KEYS2 db =
  match GET now KEYS2 db with
  | Some qty =>
      (delete KEYS2 db,
       Return (1, qty, default 0 (GET now KEYS1 (delete KEYS2 db))))
  | None => (db, Return (0, 0, default 0 (GET now KEYS1 db)))
  end.
Proof.
  unfold commit_reservation, get_number, call_GET, call_DEL.
  script_unfold. by destruct (GET now KEYS2 db) as [qty|].
Qed.

End Scripts.

(** ** reserve *)
Section Reserve.
Variables (keyPrefix : string) (now : Z).
Implicit Types (db : store) (orderId sku : string) (quantity ttlSeconds : Z).

Lemma reserveStock_eq orderId sku quantity ttlSeconds db :
  reserveStock keyPrefix now orderId sku quantity ttlSeconds db =
  if quantity <=? getStock keyPrefix now sku db then
    if 0 <? ttlSeconds then
      (reserved_store keyPrefix now orderId sku quantity ttlSeconds db,
       Return (Reserved quantity (getStock keyPrefix now sku db - quantity)
                 (getReservationKey orderId sku)
                 (now + ttlSeconds * 1000)))
    else
      (decremented_store keyPrefix now sku quantity db,
       Raise InvalidExpireTime)
  else
    (db, Return (NotReserved (getStock keyPrefix now sku db) quantity)).
Proof.
  unfold reserveStock. script_unfold. rewrite reserve_stock_eq. cbn.
  unfold getStock. destruct (quantity <=? _); [|done].
  unfold DECRBY, SET_EX. rewrite INCRBY_eq. cbn.
  unfold reserved_store, decremented_store, getStock.
  rewrite Z.add_opp_r. by destruct (0 <? ttlSeconds).
Qed.

Lemma reserveStock_reserved orderId sku quantity ttlSeconds db :
  quantity ≤ getStock keyPrefix now sku db → 0 < ttlSeconds →
  reserveStock keyPrefix now orderId sku quantity ttlSeconds db =
  (reserved_store keyPrefix now orderId sku quantity ttlSeconds db,
   Return (Reserved quantity (getStock keyPrefix now sku db - quantity)
             (getReservationKey orderId sku)
             (now + ttlSeconds * 1000))).
Proof.
  intros Hstock Httl. rewrite reserveStock_eq.
  by rewrite (proj2 (Z.leb_le _ _)), (proj2 (Z.ltb_lt _ _)).
Qed.

Lemma reserveStock_insufficient orderId sku quantity ttlSeconds db :
  getStock keyPrefix now sku db < quantity →
  reserveStock keyPrefix now orderId sku quantity ttlSeconds db =
  (db, Return (NotReserved (getStock keyPrefix now sku db) quantity)).
Proof.
  intros Hstock. rewrite reserveStock_eq.
  by rewrite (proj2 (Z.leb_gt _ _)).
Qed.

Lemma reserveStock_rejected orderId sku quantity ttlSeconds db :
  quantity ≤ getStock keyPrefix now sku db → ttlSeconds ≤ 0 →
  reserveStock keyPrefix now orderId sku quantity ttlSeconds db =
  (decremented_store keyPrefix now sku quantity db, Raise InvalidExpireTime).
Proof.
  intros Hstock Httl. rewrite reserveStock_eq.
  by rewrite (proj2 (Z.leb_le _ _)), (proj2 (Z.ltb_ge _ _)).
Qed.

Lemma getStock_decremented sku quantity db :
  getStock keyPrefix now sku (decremented_store keyPrefix now sku quantity db)
  = getStock keyPrefix now sku db - quantity.
Proof.
  unfold decremented_store, getStock at 1.
  by rewrite GET_insert by apply live_kept_expiry.
Qed.

Lemma decremented_store_frame sku quantity db key :
  key ≠ prefixed keyPrefix (getStockKey sku) →
  decremented_store keyPrefix now sku quantity db !! key = db !! key.
Proof. intros H. unfold decremented_store. by rewrite lookup_insert_ne. Qed.

Lemma getStock_reserved orderId sku quantity ttlSeconds db :
  getStock keyPrefix now sku
    (reserved_store keyPrefix now orderId sku quantity ttlSeconds db)
  = getStock keyPrefix now sku db - quantity.
Proof.
  unfold reserved_store, getStock at 1.
  rewrite GET_insert_ne
    by (apply not_eq_sym, stock_key_not_reservation_key).
  by rewrite GET_insert by apply live_kept_expiry.
Qed.

Lemma getStock_reserved_ne orderId sku sku' quantity ttlSeconds db :
  sku ≠ sku' →
  getStock keyPrefix now sku'
    (reserved_store keyPrefix now orderId sku quantity ttlSeconds db)
  = getStock keyPrefix now sku' db.
Proof.
  intros Hne. unfold reserved_store, getStock at 1.
  rewrite GET_insert_ne
    by (apply not_eq_sym, stock_key_not_reservation_key).
  rewrite GET_insert_ne; [done |].
  intros H. by apply stock_key_inj in H.
Qed.

Lemma getReservation_reserved orderId sku quantity ttlSeconds db :
  0 < ttlSeconds →
  getReservation keyPrefix now orderId sku
    (reserved_store keyPrefix now orderId sku quantity ttlSeconds db)
  = Some (ReservationInfo_ sku quantity ttlSeconds
            (now + ttlSeconds * 1000)).
Proof.
  intros Httl. unfold reserved_store, getReservation.
  rewrite GET_insert by (by apply live_fresh_expiry).
  by rewrite TTL_fresh.
Qed.

Lemma reserved_store_frame orderId sku quantity ttlSeconds db key :
  key ≠ prefixed keyPrefix (getStockKey sku) →
  key ≠ prefixed keyPrefix (getReservationKey orderId sku) →
  reserved_store keyPrefix now orderId sku quantity ttlSeconds db !! key
  = db !! key.
Proof.
  intros H1 H2. unfold reserved_store.
  by rewrite !lookup_insert_ne.
Qed.

End Reserve.

(** C3.  reserve with qty > 0.  With less stock than qty it fails, reports
    the available stock and the requested quantity and leaves the whole
    keyspace as it was.  Otherwise, with a TTL above 0, it succeeds and
    reports stock - qty, the ledger of the SKU has gone down by qty, the
    reservation of (orderId, sku) holds qty with the given TTL, and no other
    key has changed; with a TTL of 0 or less it is rejected with the error of
    the SET, having taken qty from the ledger and written no reservation. *)
Theorem reserveStock_correct keyPrefix now orderId sku quantity ttlSeconds db :
  0 < quantity →
  (getStock keyPrefix now sku db < quantity →
   reserveStock keyPrefix now orderId sku quantity ttlSeconds db
   = (db, Return (NotReserved (getStock keyPrefix now sku db) quantity)))
  ∧
  (quantity ≤ getStock keyPrefix now sku db → 0 < ttlSeconds →
   ∃ db',
     reserveStock keyPrefix now orderId sku quantity ttlSeconds db
     = (db', Return (Reserved quantity
                       (getStock keyPrefix now sku db - quantity)
                       (getReservationKey orderId sku)
                       (now + ttlSeconds * 1000)))
     ∧ getStock keyPrefix now sku db'
       = getStock keyPrefix now sku db - quantity
     ∧ getReservation keyPrefix now orderId sku db'
       = Some (ReservationInfo_ sku quantity ttlSeconds
                 (now + ttlSeconds * 1000))
     ∧ db' !! prefixed keyPrefix (getReservationKey orderId sku)
       = Some (Entry quantity (Some (now + 1000 * ttlSeconds)))
     ∧ ∀ key,
         key ≠ prefixed keyPrefix (getStockKey sku) →
         key ≠ prefixed keyPrefix (getReservationKey orderId sku) →
         db' !! key = db !! key)
  ∧
  (quantity ≤ getStock keyPrefix now sku db → ttlSeconds ≤ 0 →
   ∃ db',
     reserveStock keyPrefix now orderId sku quantity ttlSeconds db
     = (db', Raise InvalidExpireTime)
     ∧ getStock keyPrefix now sku db'
       = getStock keyPrefix now sku db - quantity
     ∧ ∀ key,
         key ≠ prefixed keyPrefix (getStockKey sku) →
         db' !! key = db !! key).
Proof.
  intros _. split; [|split]; intros Hstock.
  - by apply reserveStock_insufficient.
  - intros Httl. rewrite reserveStock_reserved by done.
    eexists. split; [done |].
    split; [apply getStock_reserved |].
    split; [by apply getReservation_reserved |].
    split; [apply lookup_insert_eq | apply reserved_store_frame].
  - intros Httl. rewrite reserveStock_rejected by done.
    eexists. split; [done |].
    split; [apply getStock_decremented | apply decremented_store_frame].
Qed.

Lemma reserveStock_correct_witness :
  0 < 5
  ∧ reserveStock "aether:" 0 "order-2" "SKU-2" 5 900
      (initial "aether:" [("SKU-2", 2)])
    = (initial "aether:" [("SKU-2", 2)], Return (NotReserved 2 5)).
Proof.
  split; [lia |].
  apply (reserveStock_correct "aether:" 0 "order-2" "SKU-2" 5 900
           (initial "aether:" [("SKU-2", 2)])); [lia |].
  vm_compute. reflexivity.
Defined.

(** C3 as stated fails for a TTL that is not positive: with 10 units of
    SKU-1, a reserve of 4 with a TTL of 0 does not succeed; it is rejected,
    the ledger reads 6 and order-1 has no reservation. *)
Lemma reserveStock_zero_ttl :
  let r := reserveStock "aether:" 0 "order-1" "SKU-1" 4 0
             (initial "aether:" [("SKU-1", 10)]) in
  getStock "aether:" 0 "SKU-1" (initial "aether:" [("SKU-1", 10)]) = 10
  ∧ r.2 = Raise InvalidExpireTime
  ∧ getStock "aether:" 0 "SKU-1" r.1 = 6
  ∧ hasReservation "aether:" 0 "order-1" "SKU-1" r.1 = 0
  ∧ getReservation "aether:" 0 "order-1" "SKU-1" r.1 = None.
Proof. repeat split; vm_compute; reflexivity. Qed.

(** C9.  reserve does not check qty > 0.  With qty <= 0, the condition
    qty <= stock holds as soon as the stock is not negative, and under it,
    with a TTL above 0, the call succeeds, the ledger goes from stock to
    stock - qty, which is not below stock, and the reservation record holds
    the non-positive qty. *)
Theorem reserveStock_nonpositive
    keyPrefix now orderId sku quantity ttlSeconds db :
  quantity ≤ 0 →
  (0 ≤ getStock keyPrefix now sku db →
   quantity ≤ getStock keyPrefix now sku db)
  ∧
  (quantity ≤ getStock keyPrefix now sku db → 0 < ttlSeconds →
   ∃ db',
     reserveStock keyPrefix now orderId sku quantity ttlSeconds db
     = (db', Return (Reserved quantity
                       (getStock keyPrefix now sku db - quantity)
                       (getReservationKey orderId sku)
                       (now + ttlSeconds * 1000)))
     ∧ getStock keyPrefix now sku db'
       = getStock keyPrefix now sku db - quantity
     ∧ getStock keyPrefix now sku db ≤ getStock keyPrefix now sku db'
     ∧ info_quantity <$> getReservation keyPrefix now orderId sku db'
       = Some quantity).
Proof.
  intros Hqty. split; [lia |]. intros Hstock Httl.
  rewrite reserveStock_reserved by done.
  eexists. split; [done |].
  rewrite getStock_reserved, getReservation_reserved by done. cbn.
  repeat split; lia.
Qed.

Lemma reserveStock_nonpositive_witness :
  -5 ≤ 0
  ∧ ∃ db',
      reserveStock "aether:" 0 "order-1" "SKU-1" (-5) 900
        (initial "aether:" [("SKU-1", 10)])
      = (db', Return (Reserved (-5) 15 "reservation:order-1:SKU-1" 900000))
      ∧ getStock "aether:" 0 "SKU-1" db' = 15.
Proof.
  split; [lia |].
  destruct (reserveStock_nonpositive "aether:" 0 "order-1" "SKU-1" (-5) 900
              (initial "aether:" [("SKU-1", 10)])) as [Hle Hok]; [lia |].
  destruct Hok as (db' & Hcall & Hstock & _);
    [apply Hle; vm_compute; discriminate | lia |].
  exists db'. split; [exact Hcall | exact Hstock].
Defined.

(** C9 as stated fails for a TTL that is not positive: with 10 units of
    SKU-1, a reserve of -5 with a TTL of 0 does not return success and
    records no reservation; it is rejected, with the ledger at 15. *)
Lemma reserveStock_nonpositive_zero_ttl :
  let r := reserveStock "aether:" 0 "order-1" "SKU-1" (-5) 0
             (initial "aether:" [("SKU-1", 10)]) in
  r.2 = Raise InvalidExpireTime
  ∧ getStock "aether:" 0 "SKU-1" r.1 = 15
  ∧ getReservation "aether:" 0 "order-1" "SKU-1" r.1 = None.
Proof. repeat split; vm_compute; reflexivity. Qed.

(** C4, as the code has it.  A reserve for a pair that already holds a
    reservation is handled like any other reserve.  With enough stock and a
    TTL above 0 it succeeds, takes qty from the ledger again and replaces
    the record of the pair by one of quantity qty with the new TTL; with
    enough stock and a TTL of 0 or less it is rejected, having taken qty
    from the ledger again and left the record of the pair as it was; with
    less stock than qty it fails and leaves the keyspace as it was. *)
Theorem reserveStock_again keyPrefix now orderId sku quantity ttlSeconds db :
  hasReservation keyPrefix now orderId sku db = 1 →
  (quantity ≤ getStock keyPrefix now sku db → 0 < ttlSeconds →
   ∃ db',
     reserveStock keyPrefix now orderId sku quantity ttlSeconds db
     = (db', Return (Reserved quantity
                       (getStock keyPrefix now sku db - quantity)
                       (getReservationKey orderId sku)
                       (now + ttlSeconds * 1000)))
     ∧ getStock keyPrefix now sku db'
       = getStock keyPrefix now sku db - quantity
     ∧ getReservation keyPrefix now orderId sku db'
       = Some (ReservationInfo_ sku quantity ttlSeconds
                 (now + ttlSeconds * 1000)))
  ∧
  (quantity ≤ getStock keyPrefix now sku db → ttlSeconds ≤ 0 →
   ∃ db',
     reserveStock keyPrefix now orderId sku quantity ttlSeconds db
     = (db', Raise InvalidExpireTime)
     ∧ getStock keyPrefix now sku db'
       = getStock keyPrefix now sku db - quantity
     ∧ db' !! prefixed keyPrefix (getReservationKey orderId sku)
       = db !! prefixed keyPrefix (getReservationKey orderId sku))
  ∧
  (getStock keyPrefix now sku db < quantity →
   reserveStock keyPrefix now orderId sku quantity ttlSeconds db
   = (db, Return (NotReserved (getStock keyPrefix now sku db) quantity))).
Proof.
  intros _. split; [|split]; intros Hstock.
  - intros Httl. rewrite reserveStock_reserved by done.
    eexists. split; [done |].
    split; [apply getStock_reserved | by apply getReservation_reserved].
  - intros Httl. rewrite reserveStock_rejected by done.
    eexists. split; [done |].
    split; [apply getStock_decremented |].
    apply decremented_store_frame, not_eq_sym, stock_key_not_reservation_key.
  - by apply reserveStock_insufficient.
Qed.

Lemma reserveStock_again_witness :
  hasReservation "aether:" 1000 "order-1" "SKU-1" held3 = 1
  ∧ ∃ db',
      reserveStock "aether:" 1000 "order-1" "SKU-1" 2 900 held3
      = (db', Return (Reserved 2 5 "reservation:order-1:SKU-1" 901000))
      ∧ getStock "aether:" 1000 "SKU-1" db' = 5.
Proof.
  split; [reflexivity |].
  destruct (reserveStock_again "aether:" 1000 "order-1" "SKU-1" 2 900 held3)
    as [Hok _]; [reflexivity |].
  destruct Hok as (db' & Hcall & Hstock & _);
    [vm_compute; discriminate | lia |].
  exists db'. split; [exact Hcall | exact Hstock].
Defined.

(** C4 as stated fails: with 10 units of SKU-1 and 3 of them held for
    order-1, a second reserve of 2 for the same pair succeeds, takes the
    ledger from 7 to 5 and turns the record of 3 into one of 2. *)
Lemma second_reserve_overwrites :
  getStock "aether:" 1000 "SKU-1" held3 = 7
  ∧ info_quantity <$> getReservation "aether:" 1000 "order-1" "SKU-1" held3
    = Some 3
  ∧ (reserveStock "aether:" 1000 "order-1" "SKU-1" 2 900 held3).2
    = Return (Reserved 2 5 "reservation:order-1:SKU-1" 901000)
  ∧ getStock "aether:" 1000 "SKU-1"
      (reserveStock "aether:" 1000 "order-1" "SKU-1" 2 900 held3).1 = 5
  ∧ info_quantity <$> getReservation "aether:" 1000 "order-1" "SKU-1"
      (reserveStock "aether:" 1000 "order-1" "SKU-1" 2 900 held3).1
    = Some 2.
Proof. repeat split; vm_compute; reflexivity. Qed.

(** ** release and commit *)
Section ReleaseCommit.
Variables (keyPrefix : string) (now : Z).
Implicit Types (db : store) (orderId sku : string).

Lemma getReservation_quantity orderId sku db :
  info_quantity <$> getReservation keyPrefix now orderId sku db
  = GET now (prefixed keyPrefix (getReservationKey orderId sku)) db.
Proof. unfold getReservation. by destruct (GET now _ db). Qed.

Lemma getStock_delete_reservation orderId sku sku' db :
  getStock keyPrefix now sku'
    (delete (prefixed keyPrefix (getReservationKey orderId sku)) db)
  = getStock keyPrefix now sku' db.
Proof.
  unfold getStock. rewrite GET_delete_ne; [done |].
  apply not_eq_sym, stock_key_not_reservation_key.
Qed.

Lemma releaseReservation_eq orderId sku db :
  releaseReservation keyPrefix now orderId sku db =
  match GET now (prefixed keyPrefix (getReservationKey orderId sku)) db with
  | Some qty =>
      (released_store keyPrefix now orderId sku qty db,
       Return (Released qty (getStock keyPrefix now sku db + qty)))
  | None => (db, Return (NotReleased (getStock keyPrefix now sku db)))
  end.
Proof.
  unfold releaseReservation. script_unfold.
  rewrite release_reservation_eq.
  destruct (GET now _ db) as [qty|]; [|done].
  cbn. rewrite INCRBY_eq. cbn. unfold released_store. do 3 f_equal.
  rewrite GET_delete_ne
    by (apply not_eq_sym, stock_key_not_reservation_key).
  by rewrite GET_insert by apply live_kept_expiry.
Qed.

Lemma getStock_released orderId sku qty db :
  getStock keyPrefix now sku (released_store keyPrefix now orderId sku qty db)
  = getStock keyPrefix now sku db + qty.
Proof.
  unfold released_store. rewrite getStock_delete_reservation.
  unfold getStock at 1. by rewrite GET_insert by apply live_kept_expiry.
Qed.

Lemma commitReservation_eq orderId sku db :
  commitReservation keyPrefix now orderId sku db =
  match GET now (prefixed keyPrefix (getReservationKey orderId sku)) db with
  | Some qty =>
      (delete (prefixed keyPrefix (getReservationKey orderId sku)) db,
       Return (Committed qty (getStock keyPrefix now sku db)))
  | None => (db, Return (NotCommitted (getStock keyPrefix now sku db)))
  end.
Proof.
  unfold commitReservation. script_unfold.
  rewrite commit_reservation_eq.
  destruct (GET now _ db) as [qty|]; [|done].
  cbn. do 3 f_equal. apply getStock_delete_reservation.
Qed.

End ReleaseCommit.

(** C6.  release without a reservation answers released = false with the
    current stock and changes nothing.  With a reservation of quantity q the
    first call deletes the record, adds exactly q to the ledger and touches
    no other key; a second call right after it, at whatever instant, answers
    released = false with the stock the first call left and changes
    nothing. *)
Theorem releaseReservation_idempotent keyPrefix now now' orderId sku db :
  (getReservation keyPrefix now orderId sku db = None →
   releaseReservation keyPrefix now orderId sku db
   = (db, Return (NotReleased (getStock keyPrefix now sku db))))
  ∧
  (∀ q,
     info_quantity <$> getReservation keyPrefix now orderId sku db = Some q →
     ∃ db1,
       releaseReservation keyPrefix now orderId sku db
       = (db1, Return (Released q (getStock keyPrefix now sku db + q)))
       ∧ db1 !! prefixed keyPrefix (getReservationKey orderId sku) = None
       ∧ getStock keyPrefix now sku db1 = getStock keyPrefix now sku db + q
       ∧ (∀ key,
            key ≠ prefixed keyPrefix (getStockKey sku) →
            key ≠ prefixed keyPrefix (getReservationKey orderId sku) →
            db1 !! key = db !! key)
       ∧ releaseReservation keyPrefix now' orderId sku db1
         = (db1, Return (NotReleased (getStock keyPrefix now' sku db1)))).
Proof.
  split.
  - intros Hnone. rewrite releaseReservation_eq.
    rewrite <- getReservation_quantity. by rewrite Hnone.
  - intros q Hq. rewrite getReservation_quantity in Hq.
    rewrite releaseReservation_eq, Hq. eexists. split; [done |].
    split; [apply lookup_delete_eq |].
    split; [apply getStock_released |].
    split.
    { intros key Hs Hr. unfold released_store.
      by rewrite lookup_delete_ne, lookup_insert_ne. }
    rewrite releaseReservation_eq.
    unfold released_store at 1. by rewrite GET_delete.
Qed.

(** C7.  commit never moves the ledger.  With a reservation it deletes the
    record of the pair and nothing else and answers committed = true with the
    quantity and the stock as it is; without one it answers committed = false
    with the stock and changes nothing; a second commit after a successful one
    answers committed = false with the same stock. *)
Theorem commitReservation_keeps_ledger keyPrefix now now' orderId sku db :
  (∀ t sku',
     getStock keyPrefix t sku'
       (commitReservation keyPrefix now orderId sku db).1
     = getStock keyPrefix t sku' db)
  ∧
  (getReservation keyPrefix now orderId sku db = None →
   commitReservation keyPrefix now orderId sku db
   = (db, Return (NotCommitted (getStock keyPrefix now sku db))))
  ∧
  (∀ q,
     info_quantity <$> getReservation keyPrefix now orderId sku db = Some q →
     let db1 :=
       delete (prefixed keyPrefix (getReservationKey orderId sku)) db in
     commitReservation keyPrefix now orderId sku db
     = (db1, Return (Committed q (getStock keyPrefix now sku db)))
     ∧ commitReservation keyPrefix now' orderId sku db1
       = (db1, Return (NotCommitted (getStock keyPrefix now' sku db)))).
Proof.
  split; [|split].
  - intros t sku'. rewrite commitReservation_eq.
    destruct (GET now _ db); [apply getStock_delete_reservation | done].
  - intros Hnone. rewrite commitReservation_eq.
    rewrite <- getReservation_quantity. by rewrite Hnone.
  - intros q Hq db1. rewrite getReservation_quantity in Hq.
    rewrite commitReservation_eq, Hq. split; [done |].
    rewrite commitReservation_eq. unfold db1.
    by rewrite GET_delete, getStock_delete_reservation.
Qed.

(** The scenario of the specification: 10 units, reserve 3, commit twice. *)
Example commit_scenario :
  (reserveStock "aether:" 0 "order-1" "SKU-1" 3 900
     (initial "aether:" [("SKU-1", 10)])).2
  = Return (Reserved 3 7 "reservation:order-1:SKU-1" 900000)
  ∧ (commitReservation "aether:" 1000 "order-1" "SKU-1" held3).2
    = Return (Committed 3 7)
  ∧ (commitReservation "aether:" 2000 "order-1" "SKU-1"
       (commitReservation "aether:" 1000 "order-1" "SKU-1" held3).1).2
    = Return (NotCommitted 7).
Proof. repeat split; vm_compute; reflexivity. Qed.

(** ** batchReserve *)
Section Batch.
Variables (keyPrefix : string) (now : Z).
Implicit Types (db : store) (orderId : string) (items : list item)
  (ttlSeconds : Z) (acc : first_pass_state).

(** The first loop reads and never writes. *)
Lemma first_pass_eq orderId items ttlSeconds acc db :
  first_pass now (prefixed keyPrefix <$> batch_keys orderId items)
    (batch_args items ttlSeconds) acc db
  = (db,
     Return
       (FirstPass
          (allSuccess acc && forallb (sufficient keyPrefix now db) items)
          (results acc ++ (result_row_of keyPrefix now db <$> items))
          (reservations acc
             ++ (reservation_row_of keyPrefix orderId ttlSeconds
                   <$> filter (λ it, sufficient keyPrefix now db it = true)
                         items)))).
Proof.
  revert acc. induction items as [|it items IH]; intros acc.
  - cbn. rewrite andb_true_r, !app_nil_r. by destruct acc.
  - cbn [batch_keys batch_args fmap list_fmap first_pass].
    cbn [lookup list_lookup drop].
    unfold check_item at 1, get_number, call_GET. script_unfold.
    fold (getStock keyPrefix now (sku it) db). cbn [drop].
    pose proof (Z.ltb_antisym (quantity it)
                  (getStock keyPrefix now (sku it) db)) as Hlt.
    change (quantity it <=? getStock keyPrefix now (sku it) db)
      with (sufficient keyPrefix now db it) in Hlt.
    rewrite Hlt.
    destruct (sufficient keyPrefix now db it) eqn:Hs;
      cbn [negb]; rewrite IH; cbn [allSuccess results reservations];
      unfold result_row_of; rewrite Hs, <- !app_assoc.
    + by rewrite decide_True by done.
    + by rewrite decide_False, andb_false_r by done.
Qed.

Lemma make_reservation_eq orderId ttlSeconds (it : item) db :
  make_reservation now (reservation_row_of keyPrefix orderId ttlSeconds it) db
  = if 0 <? ttlSeconds then
      (reserved_store keyPrefix now orderId (sku it) (quantity it)
         ttlSeconds db,
       Return tt)
    else
      (decremented_store keyPrefix now (sku it) (quantity it) db,
       Raise InvalidExpireTime).
Proof.
  unfold make_reservation, reservation_row_of, call_DECRBY, call_SET_EX.
  script_unfold. unfold DECRBY, SET_EX. rewrite INCRBY_eq. cbn.
  unfold reserved_store, decremented_store, getStock.
  rewrite Z.add_opp_r. by destruct (0 <? ttlSeconds).
Qed.

(** The second loop is a reserve of each row in turn, with no check. *)
Lemma second_pass_eq orderId ttlSeconds items db :
  0 < ttlSeconds →
  second_pass now (reservation_row_of keyPrefix orderId ttlSeconds <$> items) db
  = (batch_reserved_store keyPrefix now orderId items ttlSeconds db,
     Return tt).
Proof.
  intros Httl.
  revert db. induction items as [|it items IH]; intros db; [done |].
  cbn [fmap list_fmap second_pass]. unfold mbind, script_bind.
  rewrite make_reservation_eq, (proj2 (Z.ltb_lt _ _)) by done. apply IH.
Qed.

(** With a ttl that is not positive the second loop stops at the SET of its
    first row, after the DECRBY of that row. *)
Lemma second_pass_rejected orderId ttlSeconds (it : item) items db :
  ttlSeconds ≤ 0 →
  second_pass now
    (reservation_row_of keyPrefix orderId ttlSeconds <$> it :: items) db
  = (decremented_store keyPrefix now (sku it) (quantity it) db,
     Raise InvalidExpireTime).
Proof.
  intros Httl. cbn [fmap list_fmap second_pass]. unfold mbind, script_bind.
  by rewrite make_reservation_eq, (proj2 (Z.ltb_ge _ _)) by done.
Qed.

Lemma filter_sufficient_all db items :
  forallb (sufficient keyPrefix now db) items = true →
  filter (λ it, sufficient keyPrefix now db it = true) items = items.
Proof.
  induction items as [|it items IH]; [done |].
  cbn [forallb]. intros [Hit Hitems]%andb_prop.
  rewrite filter_cons, decide_True by done. by rewrite IH.
Qed.

Lemma reservationResult_row db (it : item) :
  reservationResult (result_row_of keyPrefix now db it)
  = itemResult keyPrefix now db it.
Proof.
  unfold reservationResult, result_row_of, itemResult.
  by destruct (sufficient keyPrefix now db it).
Qed.

Lemma batchReserveStock_unfold orderId items ttlSeconds db :
  batchReserveStock keyPrefix now orderId items ttlSeconds db =
  if forallb (sufficient keyPrefix now db) items then
    match second_pass now
            (reservation_row_of keyPrefix orderId ttlSeconds <$> items) db with
    | (db', Return _) =>
        (db', Return (BatchReserved (itemResult keyPrefix now db <$> items)
                        (now + ttlSeconds * 1000)))
    | (db', Raise error) => (db', Raise error)
    end
  else
    (db, Return (BatchNotReserved (itemResult keyPrefix now db <$> items))).
Proof.
  unfold batchReserveStock, batch_reserve_stock. script_unfold.
  rewrite first_pass_eq. cbn [allSuccess results reservations app andb].
  assert (reservationResult <$> (result_row_of keyPrefix now db <$> items)
          = itemResult keyPrefix now db <$> items) as Hrows.
  { rewrite <- list_fmap_compose. apply list_fmap_ext.
    intros i it _. apply reservationResult_row. }
  destruct (forallb (sufficient keyPrefix now db) items) eqn:Hall.
  - rewrite filter_sufficient_all by done.
    destruct (second_pass now _ db) as [db' [[]|error]]; [|done].
    cbn. by rewrite Hrows.
  - cbn. by rewrite Hrows.
Qed.

Lemma batchReserveStock_eq orderId items ttlSeconds db :
  0 < ttlSeconds →
  batchReserveStock keyPrefix now orderId items ttlSeconds db =
  if forallb (sufficient keyPrefix now db) items then
    (batch_reserved_store keyPrefix now orderId items ttlSeconds db,
     Return (BatchReserved (itemResult keyPrefix now db <$> items)
               (now + ttlSeconds * 1000)))
  else
    (db, Return (BatchNotReserved (itemResult keyPrefix now db <$> items))).
Proof.
  intros Httl. rewrite batchReserveStock_unfold.
  by rewrite second_pass_eq by done.
Qed.

Lemma batchReserveStock_insufficient orderId items ttlSeconds db :
  forallb (sufficient keyPrefix now db) items = false →
  batchReserveStock keyPrefix now orderId items ttlSeconds db =
  (db, Return (BatchNotReserved (itemResult keyPrefix now db <$> items))).
Proof. intros Hall. by rewrite batchReserveStock_unfold, Hall. Qed.

(** A batch in stock with a ttl that is not positive: nothing happens when
    it is empty, and otherwise the call is rejected after the DECRBY of its
    first item. *)
Lemma batchReserveStock_rejected orderId items ttlSeconds db :
  forallb (sufficient keyPrefix now db) items = true →
  ttlSeconds ≤ 0 →
  batchReserveStock keyPrefix now orderId items ttlSeconds db =
  match items with
  | [] => (db, Return (BatchReserved [] (now + ttlSeconds * 1000)))
  | it :: _ =>
      (decremented_store keyPrefix now (sku it) (quantity it) db,
       Raise InvalidExpireTime)
  end.
Proof.
  intros Hall Httl. rewrite batchReserveStock_unfold, Hall.
  destruct items as [|it items]; [done |].
  by rewrite second_pass_rejected.
Qed.

End Batch.

(** All or nothing: when some item asks for more than its stock, no key is
    touched and the answer is the failure with one row for each item, in
    order: the SKU as read back from the stock key, whether the item passed,
    the stock found and the quantity asked for. *)
Lemma batchReserveStock_all_or_nothing
    keyPrefix now orderId items ttlSeconds db :
  (∃ it, it ∈ items ∧ getStock keyPrefix now (sku it) db < quantity it) →
  batchReserveStock keyPrefix now orderId items ttlSeconds db
  = (db, Return (BatchNotReserved (itemResult keyPrefix now db <$> items))).
Proof.
  intros (it & Hin & Hlt). apply batchReserveStock_insufficient.
  destruct (forallb (sufficient keyPrefix now db) items) eqn:Hall; [|done].
  rewrite forallb_forall in Hall.
  specialize (Hall it (proj1 (list_elem_of_In _ _) Hin)).
  unfold sufficient in Hall. lia.
Qed.

(** With an empty key prefix the rows name the items by their SKUs. *)
Lemma itemResult_no_prefix now db it :
  item_sku (itemResult "" now db it) = sku it.
Proof. apply extractSku_stock_key. Qed.

(** C5, on the example of the specification under the default key prefix.
    With 5 units of SKU-A and none of SKU-B, the batch [{A,3},{B,1}] fails and
    leaves the keyspace, and so the 5 units of SKU-A, as they were.  The rows
    of the answer carry the stock found and the quantity asked for, but name
    the items aether:SKU-A and aether:SKU-B: the script sends back KEYS[i],
    which has the client's key prefix in front, and extractSkuFromStockKey
    takes out stock:sku: only. *)
Theorem batchReserveStock_example :
  batchReserveStock "aether:" 0 "order"
    [Item "SKU-A" 3; Item "SKU-B" 1] 900
    (initial "aether:" [("SKU-A", 5); ("SKU-B", 0)])
  = (initial "aether:" [("SKU-A", 5); ("SKU-B", 0)],
     Return (BatchNotReserved
               [ItemResult_ "aether:SKU-A" true 5 3;
                ItemResult_ "aether:SKU-B" false 0 1]))
  ∧ getStock "aether:" 0 "SKU-A"
      (batchReserveStock "aether:" 0 "order"
         [Item "SKU-A" 3; Item "SKU-B" 1] 900
         (initial "aether:" [("SKU-A", 5); ("SKU-B", 0)])).1 = 5.
Proof.
  rewrite batchReserveStock_all_or_nothing.
  - split; vm_compute; reflexivity.
  - exists (Item "SKU-B" 1). split; [set_solver | vm_compute; reflexivity].
Qed.

(** C10.  The batch checks every item against the stock found before any
    decrement of the batch.  A batch with a TTL above 0 that lists one SKU
    twice, with q1 and q2 both within the stock, passes both checks (each row
    reports the whole stock as available) and succeeds; the ledger ends at
    stock - q1 - q2, below zero when q1 + q2 > stock; the record of the pair
    holds q2 alone. *)
Theorem batchReserveStock_same_sku_twice
    keyPrefix now orderId sku q1 q2 ttlSeconds db :
  q1 ≤ getStock keyPrefix now sku db →
  q2 ≤ getStock keyPrefix now sku db →
  0 < ttlSeconds →
  ∃ db',
    batchReserveStock keyPrefix now orderId [Item sku q1; Item sku q2]
      ttlSeconds db
    = (db',
       Return
         (BatchReserved
            [ItemResult_
               (extractSkuFromStockKey (prefixed keyPrefix (getStockKey sku)))
               true (getStock keyPrefix now sku db) q1;
             ItemResult_
               (extractSkuFromStockKey (prefixed keyPrefix (getStockKey sku)))
               true (getStock keyPrefix now sku db) q2]
            (now + ttlSeconds * 1000)))
    ∧ getStock keyPrefix now sku db' = getStock keyPrefix now sku db - q1 - q2
    ∧ (getStock keyPrefix now sku db < q1 + q2 →
       getStock keyPrefix now sku db' < 0)
    ∧ info_quantity <$> getReservation keyPrefix now orderId sku db' = Some q2.
Proof.
  intros H1 H2 Httl. rewrite batchReserveStock_eq by done.
  cbn [forallb fmap list_fmap]. unfold itemResult, sufficient.
  cbn [InventoryService.sku quantity].
  rewrite !(proj2 (Z.leb_le _ _)) by lia. cbn [andb].
  eexists. split; [done |].
  unfold batch_reserved_store. cbn [foldl InventoryService.sku quantity].
  rewrite !getStock_reserved, getReservation_reserved by done. cbn.
  repeat split; lia.
Qed.

Lemma batchReserveStock_same_sku_twice_witness :
  3 ≤ getStock "aether:" 0 "SKU-A" (initial "aether:" [("SKU-A", 5)])
  ∧ ∃ db',
      (batchReserveStock "aether:" 0 "order" [Item "SKU-A" 3; Item "SKU-A" 3]
         900 (initial "aether:" [("SKU-A", 5)])).1 = db'
      ∧ getStock "aether:" 0 "SKU-A" db' = -1.
Proof.
  split; [vm_compute; discriminate |].
  destruct (batchReserveStock_same_sku_twice "aether:" 0 "order" "SKU-A" 3 3
              900 (initial "aether:" [("SKU-A", 5)]))
    as (db' & Hcall & Hstock & _); [vm_compute; discriminate.. | lia |].
  exists db'. split; [by rewrite Hcall | exact Hstock].
Defined.

(** C10 as stated fails for a TTL that is not positive: with 5 units of
    SKU-A, the batch [{A,3},{A,3}] with a TTL of 0 passes both checks and
    then does not succeed; it is rejected at the first SET, with the ledger
    at 2 and no reservation. *)
Lemma batchReserveStock_same_sku_twice_zero_ttl :
  let r := batchReserveStock "aether:" 0 "order"
             [Item "SKU-A" 3; Item "SKU-A" 3] 0
             (initial "aether:" [("SKU-A", 5)]) in
  r.2 = Raise InvalidExpireTime
  ∧ getStock "aether:" 0 "SKU-A" r.1 = 2
  ∧ getReservation "aether:" 0 "order" "SKU-A" r.1 = None.
Proof. repeat split; vm_compute; reflexivity. Qed.

(** ** The sweeper *)
Section Sweeper.
Variable keyPrefix : string.
Implicit Types (db : store) (now : Z) (keys : list string).

Lemma elem_of_KEYS now pattern db key :
  key ∈ KEYS now pattern db →
  glob pattern key = true ∧ is_Some (find now key db).
Proof.
  unfold KEYS. intros ([k e] & -> & Hin)%list_elem_of_fmap.
  apply elem_of_map_to_list, map_lookup_filter_Some in Hin as [Hk HP].
  cbn in *. apply andb_True in HP as [Hglob%Is_true_true Hlive%Is_true_true].
  split; [done |]. exists e. by apply find_Some.
Qed.

Lemma glob_literal c pattern s :
  Ascii.eqb c "*" = false →
  glob (String c pattern) s =
  match s with
  | EmptyString => false
  | String d s' => Ascii.eqb c d && glob pattern s'
  end.
Proof. intros H. cbn [glob]. by rewrite H. Qed.

Lemma glob_reservation key :
  glob "reservation:*" key = true →
  String.prefix "reservation:" key = true.
Proof.
  intros H.
  do 12 (rewrite glob_literal in H by reflexivity;
         destruct key as [|? key]; [discriminate H |];
         apply andb_prop in H as [<-%Ascii.eqb_eq H]).
  apply (prefix_append "reservation:" key).
Qed.

Lemma prefixed_stock_key_no_reservation key sku :
  String.prefix "reservation:" key = true →
  prefixed keyPrefix key ≠ prefixed keyPrefix (getStockKey sku).
Proof. intros H Heq. apply prefixed_inj in Heq. by subst key. Qed.

(** The loop deletes and does nothing else. *)
Lemma cleanup_loop_subseteq now keys cleanedCount db :
  (cleanup_loop keyPrefix now keys cleanedCount db).1 ⊆ db.
Proof.
  revert cleanedCount db.
  induction keys as [|key keys IH]; intros cleanedCount db; [done |].
  cbn. destruct (TTL now _ db <=? 0); [|apply IH].
  etrans; [apply IH | apply delete_subseteq].
Qed.

Lemma cleanup_loop_frame now keys cleanedCount db key' :
  (∀ key, key ∈ keys → prefixed keyPrefix key ≠ key') →
  (cleanup_loop keyPrefix now keys cleanedCount db).1 !! key' = db !! key'.
Proof.
  revert cleanedCount db.
  induction keys as [|key keys IH]; intros cleanedCount db Hkeys; [done |].
  assert (∀ k, k ∈ keys → prefixed keyPrefix k ≠ key') as Hrest
    by (intros k Hk; apply Hkeys; set_solver).
  cbn. destruct (TTL now _ db <=? 0); [|by apply IH].
  rewrite IH by done. apply lookup_delete_ne, Hkeys. set_solver.
Qed.

Lemma cleanup_keeps_stock_key now db sku :
  (cleanupExpiredReservations keyPrefix now db).1
    !! prefixed keyPrefix (getStockKey sku)
  = db !! prefixed keyPrefix (getStockKey sku).
Proof.
  unfold cleanupExpiredReservations.
  destruct (cleanup_loop keyPrefix now _ 0 db) as [db' n] eqn:Hloop.
  change db' with (db', n).1. rewrite <- Hloop.
  apply cleanup_loop_frame. intros key [Hglob _]%elem_of_KEYS.
  by apply prefixed_stock_key_no_reservation, glob_reservation.
Qed.

Lemma cleanup_subseteq now db :
  (cleanupExpiredReservations keyPrefix now db).1 ⊆ db.
Proof.
  unfold cleanupExpiredReservations.
  destruct (cleanup_loop keyPrefix now _ 0 db) as [db' n] eqn:Hloop.
  change db' with (db', n).1. rewrite <- Hloop.
  apply cleanup_loop_subseteq.
Qed.

Lemma job_store now db :
  (InventoryJob.cleanupExpiredReservations keyPrefix now db).1
  = (cleanupExpiredReservations keyPrefix now db).1.
Proof.
  unfold InventoryJob.cleanupExpiredReservations. script_unfold.
  unfold cleanupExpiredReservations.
  by destruct (cleanup_loop keyPrefix now _ 0 db).
Qed.

End Sweeper.

(** C2, as the code has it.  The expiry job gives nothing back to the ledger.
    However often it runs and whenever, it only deletes keys: the stock of
    every SKU reads as before, so the quantity of a reservation that has
    lapsed stays out of the ledger. *)
Theorem sweep_leaves_ledger keyPrefix times db :
  InventoryJob.sweep keyPrefix times db ⊆ db
  ∧ ∀ t sku,
      getStock keyPrefix t sku (InventoryJob.sweep keyPrefix times db)
      = getStock keyPrefix t sku db.
Proof.
  revert db. induction times as [|now times IH]; intros db; [done |].
  cbn [InventoryJob.sweep]. destruct (IH
    (InventoryJob.cleanupExpiredReservations keyPrefix now db).1) as [Hsub Hst].
  rewrite job_store in *. split.
  - etrans; [apply Hsub | apply cleanup_subseteq].
  - intros t sku. rewrite Hst. unfold getStock, GET, find.
    by rewrite cleanup_keeps_stock_key.
Qed.

(** C2 as stated fails: 4 of 10 units are reserved for one second at instant
    0; two seconds later the reservation is gone and the ledger reads 6; the
    job, run once or twice, reports success and leaves it at 6, not 10. *)
Lemma sweep_restores_nothing :
  getStock "aether:" 2000 "SKU-1" held4 = 6
  ∧ getReservation "aether:" 2000 "order-1" "SKU-1" held4 = None
  ∧ (InventoryJob.cleanupExpiredReservations "aether:" 2000 held4).2
    = Return (InventoryJob.CleanupReport_ true 0)
  ∧ getStock "aether:" 2000 "SKU-1" (InventoryJob.sweep "aether:" [2000] held4)
    ≠ 6 + 4
  ∧ getStock "aether:" 3000 "SKU-1"
      (InventoryJob.sweep "aether:" [2000; 3000] held4) ≠ 6 + 4.
Proof. repeat split; vm_compute; congruence. Qed.

(** ** Sums over the keyspace *)
Section Total.
Implicit Types (weight : string → entry → Z) (db : store) (key : string)
  (e : entry).

Lemma total_empty weight : total weight ∅ = 0.
Proof. apply map_fold_empty. Qed.

Lemma total_insert_fresh weight key e db :
  db !! key = None →
  total weight (<[key := e]> db) = weight key e + total weight db.
Proof.
  intros Hkey. unfold total.
  rewrite map_fold_insert_L; [done | intros; lia | done].
Qed.

Lemma total_delete weight key db :
  total weight (delete key db)
  = total weight db - default 0 (weight key <$> db !! key).
Proof.
  destruct (db !! key) as [e|] eqn:Hkey; cbn.
  - unfold total at 2.
    rewrite (map_fold_delete_L _ _ key e db); [|intros; lia | done].
    fold (total weight (delete key db)). lia.
  - rewrite delete_id by done. lia.
Qed.

Lemma total_insert weight key e db :
  total weight (<[key := e]> db)
  = weight key e + total weight db - default 0 (weight key <$> db !! key).
Proof.
  rewrite <- insert_delete_eq.
  rewrite total_insert_fresh by apply lookup_delete_eq.
  rewrite total_delete. lia.
Qed.

Lemma total_ext weight weight' db :
  (∀ key e, db !! key = Some e → weight key e = weight' key e) →
  total weight db = total weight' db.
Proof.
  induction db as [|key e db Hkey _ IH] using map_first_key_ind; intros Hw.
  - by rewrite !total_empty.
  - rewrite !total_insert_fresh by done.
    rewrite (Hw key e) by apply lookup_insert_eq.
    rewrite IH; [done |]. intros key' e' Hkey'. apply Hw.
    rewrite lookup_insert_ne; [done |]. intros ->. congruence.
Qed.

Lemma total_zero weight db :
  (∀ key e, db !! key = Some e → weight key e = 0) → total weight db = 0.
Proof.
  induction db as [|key e db Hkey _ IH] using map_first_key_ind; intros Hw.
  - by rewrite total_empty.
  - rewrite total_insert_fresh by done.
    rewrite (Hw key e) by apply lookup_insert_eq.
    rewrite IH; [done |]. intros key' e' Hkey'. apply Hw.
    rewrite lookup_insert_ne; [done |]. intros ->. congruence.
Qed.

End Total.

(** ** Stock and holds as stored *)
Section Accounting.
Variable keyPrefix : string.
Implicit Types (db : store) (now : Z) (orderId sku x : string) (e : entry).

Local Abbreviation stock_key sku := (prefixed keyPrefix (getStockKey sku)).
Local Abbreviation reservation_key orderId sku :=
  (prefixed keyPrefix (getReservationKey orderId sku)).

Lemma unexpired_lookup now db key e :
  unexpired now db = true → db !! key = Some e → live now e = true.
Proof.
  unfold unexpired. intros H%bool_decide_eq_true Hkey. by apply (H key e).
Qed.

Lemma find_unexpired now db key :
  unexpired now db = true → find now key db = db !! key.
Proof.
  intros H. unfold find. destruct (db !! key) as [e|] eqn:Hkey; [|done].
  by rewrite (unexpired_lookup now db key e).
Qed.

Lemma unexpired_insert now db key e :
  unexpired now db = true → live now e = true →
  unexpired now (<[key := e]> db) = true.
Proof.
  unfold unexpired. intros H%bool_decide_eq_true He.
  apply bool_decide_eq_true. by apply map_Forall_insert_2.
Qed.

Lemma unexpired_delete now db key :
  unexpired now db = true → unexpired now (delete key db) = true.
Proof.
  unfold unexpired. intros H%bool_decide_eq_true.
  apply bool_decide_eq_true. by apply map_Forall_delete.
Qed.

Lemma getStock_unexpired now db sku :
  unexpired now db = true →
  getStock keyPrefix now sku db = stored_stock keyPrefix sku db.
Proof.
  intros H. unfold getStock, stored_stock, GET. by rewrite find_unexpired.
Qed.

Lemma held_unexpired now db sku :
  unexpired now db = true →
  held keyPrefix now sku db = stored_held keyPrefix sku db.
Proof.
  intros H. apply total_ext. intros key e Hkey.
  by rewrite (unexpired_lookup now db key e), andb_true_r.
Qed.

(** Which keys count for a SKU. *)
Lemma after_prefix_Some p s r : after_prefix p s = Some r ↔ s = p +:+ r.
Proof.
  revert s. induction p as [|a p IH]; intros s; cbn.
  - split; [by intros [= ->] | by intros ->].
  - destruct s as [|b s]; [by split |].
    destruct (Ascii.eqb_spec a b) as [->|Hne].
    + rewrite IH. split; [by intros -> | by intros [= ->]].
    + split; [done | by intros [= ? _]].
Qed.

Lemma names_sku_spec x rest :
  names_sku x rest = true ↔ ∃ orderId, rest = orderId +:+ ":" +:+ x.
Proof.
  split.
  - induction rest as [|c rest IH]; cbn; [done |].
    intros [[<-%Ascii.eqb_eq ->%String.eqb_eq]%andb_prop | Hrest]%orb_prop.
    + by exists EmptyString.
    + destruct (IH Hrest) as [orderId ->]. by exists (String c orderId).
  - intros [orderId ->]. induction orderId as [|c orderId IH].
    + change (EmptyString +:+ ":" +:+ x) with (String ":" x).
      cbn. by rewrite String.eqb_refl.
    + change (String c orderId +:+ ":" +:+ x)
        with (String c (orderId +:+ ":" +:+ x)).
      cbn [names_sku]. by rewrite IH, orb_true_r.
Qed.

Lemma is_reservation_of_spec x key :
  is_reservation_of keyPrefix x key = true
  ↔ ∃ orderId, key = reservation_key orderId x.
Proof.
  unfold is_reservation_of, prefixed, getReservationKey.
  destruct (after_prefix _ key) as [rest|] eqn:Hrest.
  - apply after_prefix_Some in Hrest as ->. rewrite names_sku_spec.
    rewrite append_assoc.
    split; intros [orderId Heq]; exists orderId.
    + by rewrite Heq.
    + by do 2 apply append_inj in Heq.
  - split; [done |]. intros [orderId ->].
    rewrite <- append_assoc in Hrest.
    by rewrite (proj2 (after_prefix_Some _ _ _) eq_refl) in Hrest.
Qed.

Lemma reservation_key_inj orderId sku orderId' sku' :
  colon_free sku = true → colon_free sku' = true →
  reservation_key orderId sku = reservation_key orderId' sku' → sku = sku'.
Proof.
  intros Hsku Hsku' Heq.
  rewrite <- (extractSku_reservation_key keyPrefix orderId sku Hsku).
  rewrite Heq. by apply extractSku_reservation_key.
Qed.

Lemma is_reservation_of_stock_key x sku :
  is_reservation_of keyPrefix x (stock_key sku) = false.
Proof.
  destruct (is_reservation_of keyPrefix x (stock_key sku)) eqn:H; [|done].
  apply is_reservation_of_spec in H as [orderId H].
  by apply stock_key_not_reservation_key in H.
Qed.

Lemma is_reservation_of_reservation_key x orderId sku :
  colon_free sku = true → colon_free x = true →
  is_reservation_of keyPrefix x (reservation_key orderId sku)
  = String.eqb sku x.
Proof.
  intros Hsku Hx. destruct (String.eqb_spec sku x) as [->|Hne].
  - apply is_reservation_of_spec. by exists orderId.
  - destruct (is_reservation_of _ _ _) eqn:H; [|done].
    apply is_reservation_of_spec in H as [orderId' H].
    by apply reservation_key_inj in H.
Qed.

(** The stored stock under a write. *)
Lemma stored_stock_insert_stock x sku e db :
  stored_stock keyPrefix x (<[stock_key sku := e]> db)
  = if String.eqb sku x then value e else stored_stock keyPrefix x db.
Proof.
  unfold stored_stock. destruct (String.eqb_spec sku x) as [->|Hne].
  - by rewrite lookup_insert_eq.
  - rewrite lookup_insert_ne; [done |]. intros H. by apply stock_key_inj in H.
Qed.

Lemma stored_stock_insert_reservation x orderId sku e db :
  stored_stock keyPrefix x (<[reservation_key orderId sku := e]> db)
  = stored_stock keyPrefix x db.
Proof.
  unfold stored_stock. rewrite lookup_insert_ne; [done |].
  apply not_eq_sym, stock_key_not_reservation_key.
Qed.

Lemma stored_stock_delete_reservation x orderId sku db :
  stored_stock keyPrefix x (delete (reservation_key orderId sku) db)
  = stored_stock keyPrefix x db.
Proof.
  unfold stored_stock. rewrite lookup_delete_ne; [done |].
  apply not_eq_sym, stock_key_not_reservation_key.
Qed.

(** The stored holds under a write. *)
Lemma stored_held_insert_stock x sku e db :
  stored_held keyPrefix x (<[stock_key sku := e]> db)
  = stored_held keyPrefix x db.
Proof.
  unfold stored_held. rewrite total_insert.
  rewrite is_reservation_of_stock_key.
  destruct (db !! stock_key sku); cbn; lia.
Qed.

Lemma stored_held_insert_reservation x orderId sku e db :
  colon_free sku = true → colon_free x = true →
  db !! reservation_key orderId sku = None →
  stored_held keyPrefix x (<[reservation_key orderId sku := e]> db)
  = (if String.eqb sku x then value e else 0) + stored_held keyPrefix x db.
Proof.
  intros Hsku Hx Hkey. unfold stored_held.
  rewrite total_insert_fresh by done.
  by rewrite is_reservation_of_reservation_key.
Qed.

Lemma stored_held_delete_reservation x orderId sku e db :
  colon_free sku = true → colon_free x = true →
  db !! reservation_key orderId sku = Some e →
  stored_held keyPrefix x (delete (reservation_key orderId sku) db)
  = stored_held keyPrefix x db - (if String.eqb sku x then value e else 0).
Proof.
  intros Hsku Hx Hkey. unfold stored_held.
  rewrite total_delete, Hkey. cbn.
  by rewrite is_reservation_of_reservation_key.
Qed.

(** What a reserve that goes through does to the books. *)
Lemma reserved_store_effect now orderId sku quantity ttlSeconds db :
  unexpired now db = true → sound db →
  0 < quantity → 0 < ttlSeconds → quantity ≤ stored_stock keyPrefix sku db →
  colon_free sku = true → db !! reservation_key orderId sku = None →
  let db' := reserved_store keyPrefix now orderId sku quantity ttlSeconds db in
  unexpired now db' = true
  ∧ sound db'
  ∧ (∀ x, colon_free x = true →
          stored_stock keyPrefix x db' + stored_held keyPrefix x db'
          = stored_stock keyPrefix x db + stored_held keyPrefix x db)
  ∧ (∀ x, x ≠ sku →
          stored_stock keyPrefix x db' = stored_stock keyPrefix x db)
  ∧ (∀ orderId' sku',
       colon_free sku' = true → sku' ≠ sku →
       db' !! reservation_key orderId' sku'
       = db !! reservation_key orderId' sku').
Proof.
  intros Hlive Hsound Hpos Httl Hstock Hsku Hfresh db'. subst db'.
  unfold reserved_store. rewrite (getStock_unexpired now db sku Hlive).
  repeat split.
  - apply unexpired_insert; [apply unexpired_insert |];
      [done | apply live_kept_expiry | by apply live_fresh_expiry].
  - apply map_Forall_insert_2; [cbn; lia |].
    apply map_Forall_insert_2; [cbn; lia | done].
  - intros x Hx. rewrite stored_stock_insert_reservation.
    rewrite stored_stock_insert_stock.
    rewrite stored_held_insert_reservation; [|done | done |].
    + rewrite stored_held_insert_stock. cbn.
      destruct (String.eqb_spec sku x) as [->|]; lia.
    + rewrite lookup_insert_ne; [done |].
      apply stock_key_not_reservation_key.
  - intros x Hx. rewrite stored_stock_insert_reservation.
    rewrite stored_stock_insert_stock.
    destruct (String.eqb_spec sku x) as [->|]; [done | done].
  - intros orderId' sku' Hsku' Hne.
    rewrite lookup_insert_ne.
    + rewrite lookup_insert_ne; [done |].
      apply stock_key_not_reservation_key.
    + intros Heq. apply reservation_key_inj in Heq; [congruence | done..].
Qed.

(** What a release that finds a reservation does to the books. *)
Lemma released_store_effect now orderId sku e db :
  unexpired now db = true → sound db →
  colon_free sku = true → db !! reservation_key orderId sku = Some e →
  let db' := released_store keyPrefix now orderId sku (value e) db in
  sound db'
  ∧ (∀ x, colon_free x = true →
          stored_stock keyPrefix x db' + stored_held keyPrefix x db'
          = stored_stock keyPrefix x db + stored_held keyPrefix x db).
Proof.
  intros Hlive Hsound Hsku Hkey db'. subst db'.
  unfold released_store. rewrite (getStock_unexpired now db sku Hlive).
  pose proof (Hsound _ _ Hkey) as He. cbn in He.
  assert (0 ≤ stored_stock keyPrefix sku db) as Hstock.
  { unfold stored_stock.
    destruct (db !! stock_key sku) as [e'|] eqn:Hs; [|done].
    apply (Hsound _ _ Hs). }
  split.
  - apply map_Forall_delete, map_Forall_insert_2; [cbn; lia | done].
  - intros x Hx. rewrite stored_stock_delete_reservation.
    rewrite stored_stock_insert_stock.
    rewrite (stored_held_delete_reservation x orderId sku e);
      [|done | done |].
    + rewrite stored_held_insert_stock. cbn.
      destruct (String.eqb_spec sku x) as [->|]; lia.
    + rewrite lookup_insert_ne; [done |].
      apply stock_key_not_reservation_key.
Qed.

(** What a commit that finds a reservation does to the books. *)
Lemma committed_store_effect orderId sku e db :
  sound db →
  colon_free sku = true → db !! reservation_key orderId sku = Some e →
  let db' := delete (reservation_key orderId sku) db in
  sound db'
  ∧ (∀ x, colon_free x = true →
          stored_stock keyPrefix x db' + stored_held keyPrefix x db'
          + (if String.eqb sku x then value e else 0)
          = stored_stock keyPrefix x db + stored_held keyPrefix x db).
Proof.
  intros Hsound Hsku Hkey db'. subst db'. split.
  - by apply map_Forall_delete.
  - intros x Hx. rewrite stored_stock_delete_reservation.
    rewrite (stored_held_delete_reservation x orderId sku e) by done.
    lia.
Qed.

(** What the second loop of a batch does to the books, when the batch names
    no SKU twice and no item has a record yet. *)
Lemma batch_reserved_store_effect now orderId ttlSeconds items :
  0 < ttlSeconds →
  ∀ db,
    unexpired now db = true → sound db →
    NoDup (sku <$> items) →
    (∀ it, it ∈ items →
           0 < quantity it
           ∧ colon_free (sku it) = true
           ∧ db !! reservation_key orderId (sku it) = None
           ∧ quantity it ≤ stored_stock keyPrefix (sku it) db) →
    let db' := batch_reserved_store keyPrefix now orderId items ttlSeconds db in
    unexpired now db' = true
    ∧ sound db'
    ∧ (∀ x, colon_free x = true →
            stored_stock keyPrefix x db' + stored_held keyPrefix x db'
            = stored_stock keyPrefix x db + stored_held keyPrefix x db).
Proof.
  intros Httl.
  induction items as [|it items IH]; intros db Hlive Hsound Hnodup Hitems;
    [done |].
  cbn [fmap list_fmap] in Hnodup. apply NoDup_cons in Hnodup as [Hit Hnodup].
  destruct (Hitems it) as (Hpos & Hsku & Hfresh & Hstock); [by constructor |].
  destruct (reserved_store_effect now orderId (sku it) (quantity it)
              ttlSeconds db)
    as (Hlive1 & Hsound1 & Hbal1 & Hframe1 & Hkeys1); [done.. |].
  unfold batch_reserved_store. cbn [foldl].
  fold (batch_reserved_store keyPrefix now orderId items ttlSeconds
          (reserved_store keyPrefix now orderId (sku it) (quantity it)
             ttlSeconds db)).
  destruct (IH (reserved_store keyPrefix now orderId (sku it) (quantity it)
                  ttlSeconds db))
    as (Hlive2 & Hsound2 & Hbal2); [done.. | | ].
  - intros it' Hin'.
    destruct (Hitems it') as (Hpos' & Hsku' & Hfresh' & Hstock');
      [by constructor |].
    assert (sku it' ≠ sku it) as Hne.
    { intros Heq. apply Hit. rewrite <- Heq. by apply list_elem_of_fmap_2. }
    rewrite Hkeys1, Hframe1 by done. done.
  - repeat split; [done.. |]. intros x Hx. by rewrite Hbal2, Hbal1.
Qed.

End Accounting.

(** ** Histories *)
Section Histories.
Variable keyPrefix : string.
Implicit Types (db : store) (now : Z) (c : call)
  (history : list (Z * call)) (levels : list (string * Z)).

Lemma unreserved_lookup now orderId sku db :
  unexpired now db = true →
  unreserved keyPrefix now orderId sku db = true →
  db !! prefixed keyPrefix (getReservationKey orderId sku) = None.
Proof.
  intros Hlive. unfold unreserved, hasReservation, EXISTS.
  rewrite find_unexpired by done.
  by destruct (db !! _).
Qed.

Lemma GET_unexpired now key q db :
  unexpired now db = true → GET now key db = Some q →
  ∃ e, db !! key = Some e ∧ value e = q.
Proof.
  intros Hlive. unfold GET. rewrite find_unexpired by done.
  destruct (db !! key) as [e|]; [|done]. intros [= <-]. by exists e.
Qed.

(** One admissible call keeps the books balanced. *)
Lemma perform_effect now c db :
  sound db → admissible keyPrefix now c db = true →
  sound (perform keyPrefix now c db)
  ∧ ∀ x,
      colon_free x = true →
      stored_stock keyPrefix x (perform keyPrefix now c db)
      + stored_held keyPrefix x (perform keyPrefix now c db)
      + sold keyPrefix x now c db
      = stored_stock keyPrefix x db + stored_held keyPrefix x db.
Proof.
  intros Hsound [Hlive Hc]%andb_prop.
  destruct c as [orderId sku quantity ttl | orderId items ttl
                | orderId sku | orderId sku]; cbn [perform sold].
  - apply andb_prop in Hc as [Hc Hfree].
    apply andb_prop in Hc as [Hc Hsku].
    apply andb_prop in Hc as [Hpos%Z.ltb_lt Httl].
    rewrite reserveStock_eq, Httl. apply Z.ltb_lt in Httl.
    destruct (quantity <=? _) eqn:Hs; cbn [fst];
      [|split; [done | intros; lia]].
    apply Z.leb_le in Hs. rewrite getStock_unexpired in Hs by done.
    destruct (reserved_store_effect keyPrefix now orderId sku quantity ttl db)
      as (_ & Hsound' & Hbal & _);
      [done | done | done | done | done | done
      | by apply (unreserved_lookup now) |].
    split; [done |]. intros x Hx. rewrite Hbal by done. lia.
  - apply andb_prop in Hc as [Hc Hnodup%bool_decide_eq_true].
    apply andb_prop in Hc as [Hitems Httl%Z.ltb_lt].
    rewrite batchReserveStock_eq by done.
    destruct (forallb (sufficient keyPrefix now db) items) eqn:Hall;
      cbn [fst];
      [|split; [done | intros; lia]].
    destruct (batch_reserved_store_effect keyPrefix now orderId ttl items
                Httl db)
      as (_ & Hsound' & Hbal); [done.. | |].
    + intros it Hin%list_elem_of_In.
      rewrite forallb_forall in Hitems, Hall.
      specialize (Hitems it Hin). specialize (Hall it Hin).
      apply andb_prop in Hitems as [[Hpos%Z.ltb_lt Hsku]%andb_prop Hfree].
      unfold sufficient in Hall. apply Z.leb_le in Hall.
      rewrite getStock_unexpired in Hall by done.
      repeat split; [done | done | by apply (unreserved_lookup now) | done].
    + split; [done |]. intros x Hx. rewrite Hbal by done. lia.
  - rewrite releaseReservation_eq.
    destruct (GET now _ db) as [q|] eqn:Hget; cbn [fst];
      [|split; [done | intros; lia]].
    apply GET_unexpired in Hget as (e & Hkey & <-); [|done].
    destruct (released_store_effect keyPrefix now orderId sku e db)
      as (Hsound' & Hbal); [done.. |].
    split; [done |]. intros x Hx. rewrite Hbal by done. lia.
  - rewrite commitReservation_eq.
    destruct (GET now _ db) as [q|] eqn:Hget; cbn [fst];
      [|split; [done | intros x _; destruct (String.eqb sku x); lia]].
    apply GET_unexpired in Hget as (e & Hkey & <-); [|done].
    destruct (committed_store_effect keyPrefix orderId sku e db)
      as (Hsound' & Hbal); [done.. |].
    split; [done |]. intros x Hx. by rewrite Hbal.
Qed.

Lemma run_effect history :
  ∀ db,
    sound db → admissible_history keyPrefix db history = true →
    sound (run keyPrefix db history)
    ∧ ∀ x,
        colon_free x = true →
        committed keyPrefix x db history
        + stored_held keyPrefix x (run keyPrefix db history)
        + stored_stock keyPrefix x (run keyPrefix db history)
        = stored_stock keyPrefix x db + stored_held keyPrefix x db.
Proof.
  induction history as [|[now c] history IH]; intros db Hsound Hadm.
  - split; [done |]. intros x _. cbn. lia.
  - cbn [admissible_history] in Hadm.
    apply andb_prop in Hadm as [Hc Hadm].
    destruct (perform_effect now c db) as [Hsound1 Hbal1]; [done.. |].
    destruct (IH (perform keyPrefix now c db)) as [Hsound2 Hbal2];
      [done.. |].
    cbn [run committed]. split; [done |].
    intros x Hx. specialize (Hbal1 x Hx). specialize (Hbal2 x Hx). lia.
Qed.

(** The keyspace that initializeStock builds: stock keys only, no expiry,
    the listed levels. *)
Lemma initial_entries levels :
  initializable levels = true →
  ∀ key e,
    initial keyPrefix levels !! key = Some e →
    (∃ sku, key = prefixed keyPrefix (getStockKey sku))
    ∧ expireAt e = None ∧ 0 ≤ value e.
Proof.
  unfold initial.
  assert (∀ key e, (∅ : store) !! key = Some e →
            (∃ sku, key = prefixed keyPrefix (getStockKey sku))
            ∧ expireAt e = None ∧ 0 ≤ value e) as Hdb
    by (intros key e; by rewrite lookup_empty).
  revert Hdb. generalize (∅ : store) as db.
  induction levels as [|[sku level] levels IH]; intros db Hdb Hlevels;
    [done |].
  cbn [initializable forallb] in Hlevels.
  apply andb_prop in Hlevels as [Hlevel%Z.leb_le Hlevels].
  cbn [foldl fst snd]. apply IH; [|done].
  intros key e. unfold initializeStock, SET. cbn [fst].
  destruct (decide (prefixed keyPrefix (getStockKey sku) = key)) as [<-|Hne].
  - rewrite lookup_insert_eq. intros [= <-]. eauto.
  - rewrite lookup_insert_ne by done. apply Hdb.
Qed.

Lemma initial_sound levels :
  initializable levels = true → sound (initial keyPrefix levels).
Proof.
  intros Hlevels key e Hkey.
  by destruct (initial_entries levels Hlevels key e Hkey) as (_ & _ & ?).
Qed.

Lemma initial_unexpired levels t :
  initializable levels = true → unexpired t (initial keyPrefix levels) = true.
Proof.
  intros Hlevels. apply bool_decide_eq_true. intros key e Hkey.
  destruct (initial_entries levels Hlevels key e Hkey) as (_ & He & _).
  unfold live. by rewrite He.
Qed.

Lemma initial_stored_held levels x :
  initializable levels = true →
  stored_held keyPrefix x (initial keyPrefix levels) = 0.
Proof.
  intros Hlevels. apply total_zero. intros key e Hkey.
  destruct (initial_entries levels Hlevels key e Hkey) as ([sku ->] & _ & _).
  by rewrite is_reservation_of_stock_key.
Qed.

End Histories.

(** C1, as the code has it.  Start from stock levels that are not negative
    and run reserve, batchReserve, release and commit calls such that every
    quantity asked for is positive, every TTL is positive, no SKU has a colon
    in its name, no reserve or batchReserve names a pair that still has a
    reservation, no batch names a SKU twice, and no call runs after a key
    has lapsed.  Then at an instant [t] at which still no key has lapsed the
    ledger of every SKU without a colon in its name is not negative, and
    committed sales, held reservations and ledger add up to the initial
    level. *)
Theorem ledger_conservation keyPrefix levels history t sku :
  initializable levels = true →
  admissible_history keyPrefix (initial keyPrefix levels) history = true →
  unexpired t (run keyPrefix (initial keyPrefix levels) history) = true →
  colon_free sku = true →
  0 ≤ getStock keyPrefix t sku
        (run keyPrefix (initial keyPrefix levels) history)
  ∧ committed keyPrefix sku (initial keyPrefix levels) history
    + held keyPrefix t sku (run keyPrefix (initial keyPrefix levels) history)
    + getStock keyPrefix t sku
        (run keyPrefix (initial keyPrefix levels) history)
    = getStock keyPrefix t sku (initial keyPrefix levels).
Proof.
  intros Hlevels Hadm Hlive Hsku.
  destruct (run_effect keyPrefix history (initial keyPrefix levels))
    as [Hsound Hbal]; [by apply initial_sound | done |].
  rewrite !getStock_unexpired, held_unexpired
    by auto using initial_unexpired.
  split.
  - unfold stored_stock.
    destruct (run keyPrefix _ history !! _) as [e|] eqn:Hkey; [|done].
    apply (Hsound _ _ Hkey).
  - rewrite Hbal, initial_stored_held by done. lia.
Qed.

Lemma ledger_conservation_witness :
  initializable two_skus = true
  ∧ admissible_history "aether:" (initial "aether:" two_skus) five_calls = true
  ∧ unexpired 5000 (run "aether:" (initial "aether:" two_skus) five_calls)
    = true
  ∧ 0 ≤ getStock "aether:" 5000 "SKU-1"
          (run "aether:" (initial "aether:" two_skus) five_calls)
  ∧ committed "aether:" "SKU-1" (initial "aether:" two_skus) five_calls
    + held "aether:" 5000 "SKU-1"
        (run "aether:" (initial "aether:" two_skus) five_calls)
    + getStock "aether:" 5000 "SKU-1"
        (run "aether:" (initial "aether:" two_skus) five_calls)
    = getStock "aether:" 5000 "SKU-1" (initial "aether:" two_skus).
Proof.
  split; [reflexivity |]. split; [vm_compute; reflexivity |].
  split; [vm_compute; reflexivity |].
  apply (ledger_conservation "aether:" two_skus five_calls 5000 "SKU-1");
    vm_compute; reflexivity.
Defined.

(** C1 as stated fails, in each of these ways.
    - A batch that names SKU-A twice takes the ledger from 5 to -1.
    - A second reserve for a pair that holds a reservation loses the first
      hold: from 10 units, with nothing committed, 2 are held and 5 are left.
    - A reserve of -5 units, a reserve of the 5 units it added and the release
      of the first take the ledger from 0 to -5.
    - A reservation of 3 units that lapses is neither held nor back in the
      ledger: from 10 units 7 are left and nothing else is accounted for.
    - A reserve of 4 units with a TTL of 0 is rejected after its decrement:
      from 10 units 6 are left, nothing is held and nothing is committed.
    - A colon in a name makes two pairs share a key: the 2 units that order
      o reserves of SKU a:b are what release finds for order o:a and SKU b,
      and it adds them to the ledger of b, which goes from 10 to 12 with
      nothing held or committed, while the ledger of a:b stays at 8. *)
Lemma ledger_conservation_fails :
  getStock "aether:" 1000 "SKU-A"
    (run "aether:" (initial "aether:" [("SKU-A", 5)])
       [(0, BatchReserve "order" [Item "SKU-A" 3; Item "SKU-A" 3] 900)]) < 0
  ∧ committed "aether:" "SKU-1" (initial "aether:" [("SKU-1", 10)])
      [(0, Reserve "order-1" "SKU-1" 3 900);
       (1000, Reserve "order-1" "SKU-1" 2 900)]
    + held "aether:" 2000 "SKU-1"
        (run "aether:" (initial "aether:" [("SKU-1", 10)])
           [(0, Reserve "order-1" "SKU-1" 3 900);
            (1000, Reserve "order-1" "SKU-1" 2 900)])
    + getStock "aether:" 2000 "SKU-1"
        (run "aether:" (initial "aether:" [("SKU-1", 10)])
           [(0, Reserve "order-1" "SKU-1" 3 900);
            (1000, Reserve "order-1" "SKU-1" 2 900)])
    ≠ getStock "aether:" 2000 "SKU-1" (initial "aether:" [("SKU-1", 10)])
  ∧ getStock "aether:" 3000 "SKU-1"
      (run "aether:" (initial "aether:" [("SKU-1", 0)])
         [(0, Reserve "order-1" "SKU-1" (-5) 900);
          (1000, Reserve "order-2" "SKU-1" 5 900);
          (2000, Release "order-1" "SKU-1")]) < 0
  ∧ committed "aether:" "SKU-1" (initial "aether:" [("SKU-1", 10)])
      [(0, Reserve "order-1" "SKU-1" 3 1); (2000, Commit "order-1" "SKU-1")]
    + held "aether:" 3000 "SKU-1"
        (run "aether:" (initial "aether:" [("SKU-1", 10)])
           [(0, Reserve "order-1" "SKU-1" 3 1);
            (2000, Commit "order-1" "SKU-1")])
    + getStock "aether:" 3000 "SKU-1"
        (run "aether:" (initial "aether:" [("SKU-1", 10)])
           [(0, Reserve "order-1" "SKU-1" 3 1);
            (2000, Commit "order-1" "SKU-1")])
    ≠ getStock "aether:" 3000 "SKU-1" (initial "aether:" [("SKU-1", 10)])
  ∧ (committed "aether:" "SKU-1" (initial "aether:" [("SKU-1", 10)])
       [(0, Reserve "order-1" "SKU-1" 4 0)] = 0
     ∧ held "aether:" 1000 "SKU-1"
         (run "aether:" (initial "aether:" [("SKU-1", 10)])
            [(0, Reserve "order-1" "SKU-1" 4 0)]) = 0
     ∧ hasReservation "aether:" 1000 "order-1" "SKU-1"
         (run "aether:" (initial "aether:" [("SKU-1", 10)])
            [(0, Reserve "order-1" "SKU-1" 4 0)]) = 0
     ∧ getStock "aether:" 1000 "SKU-1"
         (run "aether:" (initial "aether:" [("SKU-1", 10)])
            [(0, Reserve "order-1" "SKU-1" 4 0)]) = 6
     ∧ getStock "aether:" 1000 "SKU-1" (initial "aether:" [("SKU-1", 10)])
       = 10)
  ∧ (let levels := [("a:b", 10); ("b", 10)] in
     let history := [(0, Reserve "o" "a:b" 2 900);
                     (1000, Release "o:a" "b")] in
     let db := run "aether:" (initial "aether:" levels) history in
     (releaseReservation "aether:" 1000 "o:a" "b"
        (run "aether:" (initial "aether:" levels)
           [(0, Reserve "o" "a:b" 2 900)])).2
     = Return (Released 2 12)
     ∧ committed "aether:" "b" (initial "aether:" levels) history = 0
     ∧ held "aether:" 2000 "b" db = 0
     ∧ KEYS 2000 "*reservation:*" db = []
     ∧ getStock "aether:" 2000 "b" db = 12
     ∧ getStock "aether:" 2000 "b" (initial "aether:" levels) = 10
     ∧ getStock "aether:" 2000 "a:b" db = 8).
Proof. repeat split; vm_compute; congruence. Qed.

(** * Further properties of the inventory code *)

(** ** Key names and what is read back from them *)
Section MoreKeys.
Implicit Types (a b c s sku orderId keyPrefix : string).
Local Arguments String.append : simpl nomatch.

Lemma length_append a b :
  String.length (a +:+ b) = (String.length a + String.length b)%nat.
Proof. induction a as [|x a IH]; cbn; [done | by rewrite IH]. Qed.

Lemma append_inj_r a b c : a +:+ c = b +:+ c → a = b.
Proof.
  revert b. induction a as [|x a IH]; intros [|y b]; cbn; intros H.
  - done.
  - apply (f_equal String.length) in H. cbn in H.
    rewrite length_append in H. lia.
  - apply (f_equal String.length) in H. cbn in H.
    rewrite length_append in H. lia.
  - injection H as -> H. f_equal. by apply IH.
Qed.

Lemma colon_free_lacks s : colon_free s = lacks ":" s.
Proof. induction s as [|x s IH]; cbn; [done | by rewrite IH]. Qed.

Lemma split_lacks sep s : lacks sep s = true → JS.split sep s = [s].
Proof.
  induction s as [|x s IH]; cbn; [done |].
  intros [Hx Hs]%andb_prop. apply negb_true_iff in Hx.
  rewrite Hx, IH; done.
Qed.

Lemma last_split_lacks sep s :
  lacks sep (List.last (JS.split sep s) EmptyString) = true.
Proof.
  induction s as [|x s IH]; cbn; [done |].
  destruct (Ascii.eqb x sep) eqn:Hx.
  - pose proof (split_nonempty sep s). by destruct (JS.split sep s).
  - pose proof (split_nonempty sep s).
    destruct (JS.split sep s) as [|part parts]; [done |].
    destruct parts as [|part' parts]; [|done].
    cbn in *. by rewrite Hx, IH.
Qed.

End MoreKeys.

(** X1.  No two names in the key scheme meet: the stock keys of two SKUs
    differ, a stock key is never a reservation key, and the reservation keys
    of two pairs differ as long as the SKUs have no colon. *)
Theorem key_names_distinct keyPrefix :
  (∀ sku sku',
     prefixed keyPrefix (getStockKey sku) = prefixed keyPrefix (getStockKey sku')
     → sku = sku')
  ∧ (∀ sku orderId sku',
       prefixed keyPrefix (getStockKey sku)
       ≠ prefixed keyPrefix (getReservationKey orderId sku'))
  ∧ (∀ orderId sku orderId' sku',
       colon_free sku = true → colon_free sku' = true →
       prefixed keyPrefix (getReservationKey orderId sku)
       = prefixed keyPrefix (getReservationKey orderId' sku') →
       orderId = orderId' ∧ sku = sku').
Proof.
  split; [apply stock_key_inj |]. split; [apply stock_key_not_reservation_key |].
  intros orderId sku orderId' sku' Hsku Hsku' Heq.
  assert (sku = sku') as <- by (by eapply reservation_key_inj).
  split; [|done].
  apply prefixed_inj in Heq. unfold getReservationKey in Heq.
  apply append_inj in Heq. by apply append_inj_r in Heq.
Qed.

(** X2.  The SKU comes back out of its stock key, for every SKU; it comes
    back out of its reservation key exactly when it has no colon: all that
    extractSkuFromReservationKey gives is the part after the last colon. *)
Theorem sku_read_back keyPrefix orderId sku :
  extractSkuFromStockKey (getStockKey sku) = sku
  ∧ colon_free
      (extractSkuFromReservationKey
         (prefixed keyPrefix (getReservationKey orderId sku))) = true
  ∧ (extractSkuFromReservationKey
       (prefixed keyPrefix (getReservationKey orderId sku)) = sku
     ↔ colon_free sku = true).
Proof.
  split; [apply extractSku_stock_key |].
  assert (colon_free
            (extractSkuFromReservationKey
               (prefixed keyPrefix (getReservationKey orderId sku))) = true)
    as Hfree by (rewrite colon_free_lacks; apply last_split_lacks).
  split; [done |]. split.
  - intros Heq. by rewrite Heq in Hfree.
  - apply extractSku_reservation_key.
Qed.

(** X3.  extractMerchantFromSku gives the part of the SKU before the first
    underscore, and unknown when that part is empty; so it never gives the
    empty string. *)
Theorem extractMerchantFromSku_spec :
  (∀ merchant rest,
     lacks "_" merchant = true → merchant ≠ EmptyString →
     extractMerchantFromSku (merchant +:+ "_" +:+ rest) = merchant
     ∧ extractMerchantFromSku merchant = merchant)
  ∧ (∀ rest, extractMerchantFromSku ("_" +:+ rest) = "unknown")
  ∧ extractMerchantFromSku "" = "unknown"
  ∧ (∀ sku, extractMerchantFromSku sku ≠ EmptyString).
Proof.
  split; [|split; [|split]].
  - intros merchant rest Hm Hne. unfold extractMerchantFromSku.
    change ("_" +:+ rest) with (String "_" rest).
    rewrite split_append, (split_lacks "_" merchant Hm). cbn.
    by destruct merchant.
  - intros rest. unfold extractMerchantFromSku.
    change ("_" +:+ rest) with (String "_" rest). done.
  - done.
  - intros sku. unfold extractMerchantFromSku.
    destruct (JS.split "_" sku) as [|[|x part] parts]; done.
Qed.

Lemma extractMerchantFromSku_spec_witness :
  extractMerchantFromSku "ACME_SHIRT_RED" = "ACME".
Proof.
  apply (proj1 extractMerchantFromSku_spec "ACME" "SHIRT_RED");
    [reflexivity | discriminate].
Defined.

(** ** updateStock *)
Section UpdateStock.
Variables (keyPrefix : string) (now : Z).
Implicit Types (db : store) (sku operation : string) (quantity : Z).

Lemma updateStock_increment sku quantity db :
  updateStock keyPrefix now sku quantity "increment" db
  = (<[prefixed keyPrefix (getStockKey sku) :=
         Entry (getStock keyPrefix now sku db + quantity)
           (find now (prefixed keyPrefix (getStockKey sku)) db ≫= expireAt)]>
       db,
     Return (getStock keyPrefix now sku db + quantity)).
Proof. unfold updateStock. cbn. by rewrite INCRBY_eq. Qed.

Lemma updateStock_decrement sku quantity db :
  updateStock keyPrefix now sku quantity "decrement" db
  = (<[prefixed keyPrefix (getStockKey sku) :=
         Entry (getStock keyPrefix now sku db - quantity)
           (find now (prefixed keyPrefix (getStockKey sku)) db ≫= expireAt)]>
       db,
     Return (getStock keyPrefix now sku db - quantity)).
Proof.
  unfold updateStock, DECRBY. cbn. rewrite INCRBY_eq.
  unfold getStock. by rewrite Z.add_opp_r.
Qed.

Lemma updateStock_set sku quantity operation db :
  operation ≠ "increment" → operation ≠ "decrement" →
  updateStock keyPrefix now sku quantity operation db
  = (<[prefixed keyPrefix (getStockKey sku) := Entry quantity None]> db,
     Return quantity).
Proof.
  intros Hi Hd. unfold updateStock.
  by rewrite (proj2 (String.eqb_neq _ _) Hi), (proj2 (String.eqb_neq _ _) Hd).
Qed.

Lemma getStock_insert_stock t sku sku' e db :
  live t e = true →
  getStock keyPrefix t sku' (<[prefixed keyPrefix (getStockKey sku) := e]> db)
  = if String.eqb sku sku' then value e else getStock keyPrefix t sku' db.
Proof.
  intros He. unfold getStock. destruct (String.eqb_spec sku sku') as [->|Hne].
  - by rewrite GET_insert.
  - rewrite GET_insert_ne; [done |]. intros H. by apply stock_key_inj in H.
Qed.

End UpdateStock.

(** X4.  updateStock with increment or decrement moves the stock of the SKU
    by the quantity, a stock that is not there counting as 0; it answers the
    new stock, which is what getStock reads afterwards; no other key
    changes. *)
Theorem updateStock_adjusts keyPrefix now sku quantity db :
  (∃ db',
     updateStock keyPrefix now sku quantity "increment" db
     = (db', Return (getStock keyPrefix now sku db + quantity))
     ∧ getStock keyPrefix now sku db' = getStock keyPrefix now sku db + quantity
     ∧ ∀ key, key ≠ prefixed keyPrefix (getStockKey sku) →
              db' !! key = db !! key)
  ∧
  (∃ db',
     updateStock keyPrefix now sku quantity "decrement" db
     = (db', Return (getStock keyPrefix now sku db - quantity))
     ∧ getStock keyPrefix now sku db' = getStock keyPrefix now sku db - quantity
     ∧ ∀ key, key ≠ prefixed keyPrefix (getStockKey sku) →
              db' !! key = db !! key).
Proof.
  split.
  - rewrite updateStock_increment. eexists. split; [done |]. split.
    + rewrite getStock_insert_stock by apply live_kept_expiry.
      by rewrite String.eqb_refl.
    + intros key Hkey. by rewrite lookup_insert_ne.
  - rewrite updateStock_decrement. eexists. split; [done |]. split.
    + rewrite getStock_insert_stock by apply live_kept_expiry.
      by rewrite String.eqb_refl.
    + intros key Hkey. by rewrite lookup_insert_ne.
Qed.

(** X5.  Every operation other than increment and decrement is a set, the
    misspelt ones too: the stock of the SKU becomes the quantity, without
    expiry, so that getStock reads the quantity at every later instant; the
    stock of no other SKU changes. *)
Theorem updateStock_otherwise_sets keyPrefix now sku quantity operation db :
  operation ≠ "increment" → operation ≠ "decrement" →
  ∃ db',
    updateStock keyPrefix now sku quantity operation db = (db', Return quantity)
    ∧ (∀ t, getStock keyPrefix t sku db' = quantity)
    ∧ TTL now (prefixed keyPrefix (getStockKey sku)) db' = -1
    ∧ (∀ t sku', sku' ≠ sku →
         getStock keyPrefix t sku' db' = getStock keyPrefix t sku' db).
Proof.
  intros Hi Hd. rewrite updateStock_set by done.
  eexists. split; [done |]. split; [|split].
  - intros t. rewrite getStock_insert_stock by done.
    by rewrite String.eqb_refl.
  - unfold TTL. by rewrite find_insert.
  - intros t sku' Hne. rewrite getStock_insert_stock by done.
    by rewrite (proj2 (String.eqb_neq _ _)) by done.
Qed.

Lemma updateStock_otherwise_sets_witness :
  ∃ db',
    updateStock "aether:" 0 "SKU-1" 4 "Increment"
      (initial "aether:" [("SKU-1", 10)]) = (db', Return 4)
    ∧ getStock "aether:" 0 "SKU-1" db' = 4.
Proof.
  destruct (updateStock_otherwise_sets "aether:" 0 "SKU-1" 4 "Increment"
              (initial "aether:" [("SKU-1", 10)]))
    as (db' & Hcall & Hstock & _); [discriminate.. |].
  exists db'. split; [exact Hcall | apply Hstock].
Defined.

(** X6.  An increment and a decrement by the same quantity, at whatever
    instants, leave the stock of a SKU that has no expiry reading as before,
    and so do a decrement and an increment. *)
Theorem updateStock_increment_decrement
    keyPrefix now now' t sku quantity db :
  db !! prefixed keyPrefix (getStockKey sku) ≫= expireAt = None →
  getStock keyPrefix t sku
    (updateStock keyPrefix now' sku quantity "decrement"
       (updateStock keyPrefix now sku quantity "increment" db).1).1
  = getStock keyPrefix t sku db
  ∧ getStock keyPrefix t sku
      (updateStock keyPrefix now' sku quantity "increment"
         (updateStock keyPrefix now sku quantity "decrement" db).1).1
    = getStock keyPrefix t sku db.
Proof.
  intros Hexp.
  assert (∀ u, find u (prefixed keyPrefix (getStockKey sku)) db
               = db !! prefixed keyPrefix (getStockKey sku)) as Hfind.
  { intros u. unfold find.
    destruct (db !! _) as [e|] eqn:Hkey; [|done].
    cbn in Hexp. unfold live. by rewrite Hexp. }
  assert (∀ u, getStock keyPrefix u sku db = getStock keyPrefix t sku db)
    as Hread by (intros u; unfold getStock, GET; by rewrite !Hfind).
  rewrite updateStock_increment, updateStock_decrement. cbn [fst].
  rewrite updateStock_decrement, updateStock_increment. cbn [fst].
  rewrite !find_insert, !Hfind, Hexp.
  unfold live. cbn [expireAt mbind option_bind].
  rewrite !getStock_insert_stock by done.
  rewrite !String.eqb_refl. cbn [value].
  rewrite (Hread now). split; lia.
Qed.

Lemma updateStock_increment_decrement_witness :
  getStock "aether:" 9000 "SKU-1"
    (updateStock "aether:" 2000 "SKU-1" 4 "decrement"
       (updateStock "aether:" 1000 "SKU-1" 4 "increment"
          (initial "aether:" [("SKU-1", 10)])).1).1
  = getStock "aether:" 9000 "SKU-1" (initial "aether:" [("SKU-1", 10)]).
Proof.
  apply (updateStock_increment_decrement "aether:" 1000 2000 9000 "SKU-1" 4
           (initial "aether:" [("SKU-1", 10)])).
  reflexivity.
Defined.

(** X7.  The reserveStock and releaseReservation commands that the client
    defines do to the keyspace what scripts/reserve-stock.lua and
    scripts/release-reservation.lua do, fail where they fail, and reply the
    success flag of their replies. *)
Theorem client_commands_agree now KEYS1 KEYS2 qty ttl db :
  RedisConnection.reserveStock now KEYS1 KEYS2 qty ttl db
  = ((reserve_stock now KEYS1 KEYS2 qty ttl db).1,
     match (reserve_stock now KEYS1 KEYS2 qty ttl db).2 with
     | Return (success, _) => Return success
     | Raise e => Raise e
     end)
  ∧ RedisConnection.releaseReservation now KEYS1 KEYS2 db
    = ((release_reservation now KEYS1 KEYS2 db).1,
       match (release_reservation now KEYS1 KEYS2 db).2 with
       | Return (success, _, _) => Return success
       | Raise e => Raise e
       end).
Proof.
  split.
  - rewrite reserve_stock_eq.
    unfold RedisConnection.reserveStock, get_number, call_GET, call_DECRBY,
      call_SET_EX.
    script_unfold. destruct (qty <=? _); [|done].
    cbn. destruct (DECRBY now KEYS1 qty db) as [db1 v]. cbn.
    by destruct (SET_EX now KEYS2 qty ttl db1).
  - rewrite release_reservation_eq.
    unfold RedisConnection.releaseReservation, call_GET, call_INCRBY, call_DEL.
    script_unfold. destruct (GET now KEYS2 db) as [q|]; [|done].
    cbn. by destruct (INCRBY now KEYS1 q db) as [db1 v].
Qed.

(** ** The reservations of an order *)
Section OrderReservations.
Variables (keyPrefix : string) (now : Z).
Implicit Types (db : store) (orderId sku x : string) (skus : list string).

Lemma released_units_app x rs rs' :
  released_units x (rs ++ rs') = released_units x rs + released_units x rs'.
Proof.
  induction rs as [|r rs IH]; cbn; [done |].
  fold (released_units x (rs ++ rs')). fold (released_units x rs).
  rewrite IH. destruct r as [sku' [q s|s]|sku' e]; try done.
  destruct (String.eqb sku' x); lia.
Qed.

Lemma getStock_released_store orderId sku x q db :
  getStock keyPrefix now x (released_store keyPrefix now orderId sku q db)
  = if String.eqb sku x then getStock keyPrefix now x db + q
    else getStock keyPrefix now x db.
Proof.
  unfold released_store. rewrite getStock_delete_reservation.
  rewrite getStock_insert_stock by apply live_kept_expiry.
  by destruct (String.eqb_spec sku x) as [->|].
Qed.

(** One turn of the loop of releaseOrderReservations. *)
Lemma release_loop_cons orderId sku skus results db :
  releaseOrderReservations_loop keyPrefix now orderId (sku :: skus) results db
  = match GET now (prefixed keyPrefix (getReservationKey orderId sku)) db with
    | Some q =>
        releaseOrderReservations_loop keyPrefix now orderId skus
          (results
             ++ [Resolved sku (Released q (getStock keyPrefix now sku db + q))])
          (released_store keyPrefix now orderId sku q db)
    | None =>
        releaseOrderReservations_loop keyPrefix now orderId skus
          (results
             ++ [Resolved sku (NotReleased (getStock keyPrefix now sku db))])
          db
    end.
Proof.
  cbn [releaseOrderReservations_loop]. rewrite releaseReservation_eq.
  by destruct (GET now _ db).
Qed.

Lemma commit_loop_cons orderId sku skus results db :
  commitOrderReservations_loop keyPrefix now orderId (sku :: skus) results db
  = match GET now (prefixed keyPrefix (getReservationKey orderId sku)) db with
    | Some q =>
        commitOrderReservations_loop keyPrefix now orderId skus
          (results ++ [Resolved sku (Committed q (getStock keyPrefix now sku db))])
          (delete (prefixed keyPrefix (getReservationKey orderId sku)) db)
    | None =>
        commitOrderReservations_loop keyPrefix now orderId skus
          (results
             ++ [Resolved sku (NotCommitted (getStock keyPrefix now sku db))])
          db
    end.
Proof.
  cbn [commitOrderReservations_loop]. rewrite commitReservation_eq.
  by destruct (GET now _ db).
Qed.

Lemma commit_loop_spec orderId skus :
  ∀ results db,
    let r := commitOrderReservations_loop keyPrefix now orderId skus results db in
    result_sku <$> r.2 = (result_sku <$> results) ++ skus
    ∧ r.1 ⊆ db
    ∧ (∀ t x, getStock keyPrefix t x r.1 = getStock keyPrefix t x db)
    ∧ (∀ key, (∀ sku, key ≠ prefixed keyPrefix (getReservationKey orderId sku))
              → r.1 !! key = db !! key).
Proof.
  induction skus as [|sku skus IH]; intros results db r; subst r.
  - cbn. by rewrite app_nil_r.
  - rewrite commit_loop_cons.
    destruct (GET now _ db) as [q|];
      match goal with
      | |- context [commitOrderReservations_loop _ _ _ _ ?rs ?d] =>
          destruct (IH rs d) as (Hskus & Hsub & Hledger & Hframe)
      end;
      rewrite Hskus, fmap_app, <- app_assoc; (split; [done |]).
    + split; [etrans; [apply Hsub | apply delete_subseteq] |].
      split.
      * intros t x. rewrite Hledger.
        unfold getStock. rewrite GET_delete_ne; [done |].
        apply not_eq_sym, stock_key_not_reservation_key.
      * intros key Hkey. rewrite Hframe by done.
        by rewrite lookup_delete_ne.
    + done.
Qed.

Lemma release_loop_spec orderId skus :
  ∀ results db,
    let r := releaseOrderReservations_loop keyPrefix now orderId skus results db in
    result_sku <$> r.2 = (result_sku <$> results) ++ skus
    ∧ (∀ x, getStock keyPrefix now x r.1 + released_units x results
            = getStock keyPrefix now x db + released_units x r.2).
Proof.
  induction skus as [|sku skus IH]; intros results db r; subst r.
  - cbn. by rewrite app_nil_r.
  - rewrite release_loop_cons.
    destruct (GET now _ db) as [q|];
      match goal with
      | |- context [releaseOrderReservations_loop _ _ _ _ ?rs ?d] =>
          destruct (IH rs d) as (Hskus & Hunits)
      end;
      rewrite Hskus, fmap_app, <- app_assoc; (split; [done |]);
      intros x; specialize (Hunits x);
      rewrite released_units_app in Hunits; cbn in Hunits.
    + rewrite getStock_released_store in Hunits.
      destruct (String.eqb sku x); lia.
    + lia.
Qed.

End OrderReservations.

(** X8.  commitOrderReservations answers one entry for each SKU it is given,
    in their order; it only deletes keys, and only reservation keys of the
    order; the stock of every SKU reads as before, at every instant. *)
Theorem commitOrderReservations_keeps_ledger keyPrefix now orderId skus db :
  ∃ db' results,
    commitOrderReservations keyPrefix now orderId skus db
    = (db', Return results)
    ∧ result_sku <$> results = skus
    ∧ db' ⊆ db
    ∧ (∀ key, (∀ sku, key ≠ prefixed keyPrefix (getReservationKey orderId sku))
              → db' !! key = db !! key)
    ∧ (∀ t x, getStock keyPrefix t x db' = getStock keyPrefix t x db).
Proof.
  unfold commitOrderReservations.
  destruct (commit_loop_spec keyPrefix now orderId skus [] db)
    as (Hskus & Hsub & Hledger & Hframe).
  destruct (commitOrderReservations_loop keyPrefix now orderId skus [] db)
    as [db' results].
  exists db', results. by repeat split.
Qed.

(** X9.  releaseOrderReservations answers one entry for each SKU it is given,
    in their order, and gives back to the ledger what its entries say: the
    stock of every SKU goes up by the quantities of the entries that report
    a release of that SKU. *)
Theorem releaseOrderReservations_accounts keyPrefix now orderId skus db :
  ∃ db' results,
    releaseOrderReservations keyPrefix now orderId skus db
    = (db', Return results)
    ∧ result_sku <$> results = skus
    ∧ (∀ x, getStock keyPrefix now x db'
            = getStock keyPrefix now x db + released_units x results).
Proof.
  unfold releaseOrderReservations.
  destruct (release_loop_spec keyPrefix now orderId skus [] db)
    as (Hskus & Hunits).
  destruct (releaseOrderReservations_loop keyPrefix now orderId skus [] db)
    as [db' results].
  exists db', results. split; [done |]. split; [done |].
  intros x. specialize (Hunits x).
  change (released_units x []) with 0 in Hunits. cbn [fst snd] in Hunits. lia.
Qed.

Lemma GET_None_later now now' key db :
  now ≤ now' → GET now key db = None → GET now' key db = None.
Proof.
  intros Hle. unfold GET, find.
  destruct (db !! key) as [e|]; [|done].
  unfold live. destruct (expireAt e) as [t|]; [|done].
  destruct (now <=? t) eqn:Hnow; [done |]. intros _.
  apply Z.leb_gt in Hnow. by rewrite (proj2 (Z.leb_gt _ _)) by lia.
Qed.

Lemma GET_released_store keyPrefix now t orderId sku q key db :
  GET t key db = None →
  (∀ sku', key ≠ prefixed keyPrefix (getStockKey sku')) →
  GET t key (released_store keyPrefix now orderId sku q db) = None.
Proof.
  intros Hnone Hkey. unfold released_store.
  destruct (decide (prefixed keyPrefix (getReservationKey orderId sku) = key))
    as [<-|Hne].
  - apply GET_delete.
  - rewrite GET_delete_ne by done. rewrite GET_insert_ne; [done |].
    apply not_eq_sym, Hkey.
Qed.

(** Without a live record for any of the SKUs the loop changes nothing. *)
Lemma release_loop_none keyPrefix now orderId skus :
  ∀ results db,
    (∀ sku, sku ∈ skus →
            GET now (prefixed keyPrefix (getReservationKey orderId sku)) db
            = None) →
    releaseOrderReservations_loop keyPrefix now orderId skus results db
    = (db,
       results
         ++ ((λ sku, Resolved sku (NotReleased (getStock keyPrefix now sku db)))
               <$> skus)).
Proof.
  induction skus as [|sku skus IH]; intros results db Hnone.
  - cbn. by rewrite app_nil_r.
  - rewrite release_loop_cons, Hnone by (by constructor).
    rewrite IH by (intros sku' Hin; apply Hnone; by constructor).
    by rewrite <- app_assoc.
Qed.

(** After the loop no SKU it went through has a record that a later call
    could find. *)
Lemma release_loop_clears keyPrefix now now' orderId skus :
  now ≤ now' →
  ∀ results db sku,
    sku ∈ skus
    ∨ GET now' (prefixed keyPrefix (getReservationKey orderId sku)) db = None →
    GET now' (prefixed keyPrefix (getReservationKey orderId sku))
      (releaseOrderReservations_loop keyPrefix now orderId skus results db).1
    = None.
Proof.
  intros Hle. induction skus as [|sku0 skus IH]; intros results db sku Hsku.
  - destruct Hsku as [Hin|Hnone]; [by apply elem_of_nil in Hin | done].
  - rewrite release_loop_cons.
    destruct (GET now (prefixed keyPrefix (getReservationKey orderId sku0)) db)
      as [q|] eqn:Hget; apply IH.
    + destruct Hsku as [[->|Hin]%elem_of_cons|Hnone]; [right | by left | right].
      * unfold released_store. apply GET_delete.
      * apply GET_released_store; [done |].
        intros sku'. apply not_eq_sym, stock_key_not_reservation_key.
    + destruct Hsku as [[->|Hin]%elem_of_cons|Hnone]; [right | by left | by right].
      by apply (GET_None_later now).
Qed.

(** X10.  Releasing the reservations of an order a second time, at the same
    or a later instant, changes nothing: every entry of the second answer is
    a release that found nothing, with the stock as the first run left it. *)
Theorem releaseOrderReservations_again keyPrefix now now' orderId skus db :
  now ≤ now' →
  let db1 := (releaseOrderReservations keyPrefix now orderId skus db).1 in
  releaseOrderReservations keyPrefix now' orderId skus db1
  = (db1,
     Return ((λ sku, Resolved sku
                       (NotReleased (getStock keyPrefix now' sku db1)))
               <$> skus)).
Proof.
  intros Hle db1. subst db1. unfold releaseOrderReservations.
  pose proof (release_loop_clears keyPrefix now now' orderId skus Hle [] db)
    as Hclear.
  destruct (releaseOrderReservations_loop keyPrefix now orderId skus [] db)
    as [db1 results]. cbn [fst] in *.
  rewrite release_loop_none; [done |].
  intros sku Hin. apply Hclear. by left.
Qed.

Lemma releaseOrderReservations_again_witness :
  releaseOrderReservations "aether:" 2000 "order-1" ["SKU-1"; "SKU-2"]
    (releaseOrderReservations "aether:" 1000 "order-1" ["SKU-1"; "SKU-2"]
       held3).1
  = ((releaseOrderReservations "aether:" 1000 "order-1" ["SKU-1"; "SKU-2"]
        held3).1,
     Return [Resolved "SKU-1" (NotReleased 10);
             Resolved "SKU-2" (NotReleased 0)]).
Proof.
  rewrite (releaseOrderReservations_again "aether:" 1000 2000 "order-1"
             ["SKU-1"; "SKU-2"] held3); [|lia].
  vm_compute. reflexivity.
Defined.

(** ** Stock keys that have not expired *)
Section StockKept.
Variables (keyPrefix : string).
Implicit Types (db : store) (orderId x sku : string) (items : list item)
  (ttlSeconds : Z).

Lemma getStock_stock_kept t x db :
  stock_kept keyPrefix t x db = true →
  getStock keyPrefix t x db = stored_stock keyPrefix x db.
Proof.
  unfold stock_kept, getStock, stored_stock, GET, find.
  destruct (db !! _) as [e|]; [|done]. by intros ->.
Qed.

Lemma stock_kept_earlier t t' x db :
  t ≤ t' → stock_kept keyPrefix t' x db = true →
  stock_kept keyPrefix t x db = true.
Proof.
  intros Hle. unfold stock_kept. destruct (db !! _) as [e|]; [|done].
  unfold live. destruct (expireAt e) as [u|]; [|done].
  intros Hlive%Z.leb_le. apply Z.leb_le. lia.
Qed.

Lemma stock_kept_lookup t x db db' :
  db' !! prefixed keyPrefix (getStockKey x)
  = db !! prefixed keyPrefix (getStockKey x) →
  stock_kept keyPrefix t x db' = stock_kept keyPrefix t x db.
Proof. intros H. unfold stock_kept. by rewrite H. Qed.

Lemma stock_kept_expiry t now x v db :
  stock_kept keyPrefix t x db = true →
  live t (Entry v (find now (prefixed keyPrefix (getStockKey x)) db
                   ≫= expireAt)) = true.
Proof.
  unfold stock_kept. intros Hkept.
  destruct (find now _ db) as [e|] eqn:He; [|done].
  apply find_Some in He as [He _]. rewrite He in Hkept. by destruct e.
Qed.

Lemma stock_kept_insert_stock t now x sku v db :
  stock_kept keyPrefix t x db = true →
  stock_kept keyPrefix t x
    (<[prefixed keyPrefix (getStockKey sku) :=
         Entry v (find now (prefixed keyPrefix (getStockKey sku)) db
                  ≫= expireAt)]> db) = true.
Proof.
  intros Hkept. unfold stock_kept at 1.
  destruct (decide (sku = x)) as [->|Hne].
  - rewrite lookup_insert_eq. by apply stock_kept_expiry.
  - rewrite lookup_insert_ne; [done |]. intros H. by apply stock_key_inj in H.
Qed.

Lemma stock_kept_reserved t now orderId sku x quantity ttlSeconds db :
  stock_kept keyPrefix t x db = true →
  stock_kept keyPrefix t x
    (reserved_store keyPrefix now orderId sku quantity ttlSeconds db) = true.
Proof.
  intros Hkept. unfold reserved_store.
  erewrite stock_kept_lookup.
  - by apply (stock_kept_insert_stock t now x sku).
  - apply lookup_insert_ne, not_eq_sym, stock_key_not_reservation_key.
Qed.

Lemma stock_kept_batch_reserved t now orderId items ttlSeconds x :
  ∀ db,
    stock_kept keyPrefix t x db = true →
    stock_kept keyPrefix t x
      (batch_reserved_store keyPrefix now orderId items ttlSeconds db) = true.
Proof.
  induction items as [|it items IH]; intros db Hkept; [done |].
  unfold batch_reserved_store. cbn [foldl].
  by apply IH, stock_kept_reserved.
Qed.

End StockKept.

(** ** A batch that goes through *)
Section BatchSuccess.
Variables (keyPrefix : string) (now : Z).
Implicit Types (db : store) (orderId x : string) (items : list item)
  (ttlSeconds : Z).

Lemma reservation_key_inj_sku orderId sku sku' :
  prefixed keyPrefix (getReservationKey orderId sku)
  = prefixed keyPrefix (getReservationKey orderId sku') → sku = sku'.
Proof.
  intros H. apply prefixed_inj in H. unfold getReservationKey in H.
  by do 3 apply append_inj in H.
Qed.

Lemma getStock_reserved_store orderId sku x quantity ttlSeconds db :
  getStock keyPrefix now x
    (reserved_store keyPrefix now orderId sku quantity ttlSeconds db)
  = if String.eqb sku x then getStock keyPrefix now x db - quantity
    else getStock keyPrefix now x db.
Proof.
  destruct (String.eqb_spec sku x) as [->|Hne].
  - apply getStock_reserved.
  - by apply getStock_reserved_ne.
Qed.

Lemma batch_reserved_store_cons orderId it items ttlSeconds db :
  batch_reserved_store keyPrefix now orderId (it :: items) ttlSeconds db
  = batch_reserved_store keyPrefix now orderId items ttlSeconds
      (reserved_store keyPrefix now orderId (sku it) (quantity it)
         ttlSeconds db).
Proof. done. Qed.

Lemma getStock_batch_reserved orderId items ttlSeconds x :
  ∀ db,
    getStock keyPrefix now x
      (batch_reserved_store keyPrefix now orderId items ttlSeconds db)
    = getStock keyPrefix now x db - requested_units x items.
Proof.
  induction items as [|it items IH]; intros db.
  - cbn. lia.
  - rewrite batch_reserved_store_cons, IH, getStock_reserved_store.
    cbn [requested_units foldr]. fold (requested_units x items).
    destruct (String.eqb (sku it) x); lia.
Qed.

Lemma batch_reserved_store_frame orderId items ttlSeconds key :
  ∀ db,
    (∀ it, it ∈ items →
           key ≠ prefixed keyPrefix (getStockKey (sku it))
           ∧ key ≠ prefixed keyPrefix (getReservationKey orderId (sku it))) →
    batch_reserved_store keyPrefix now orderId items ttlSeconds db !! key
    = db !! key.
Proof.
  induction items as [|it items IH]; intros db Hkey; [done |].
  rewrite batch_reserved_store_cons, IH.
  - destruct (Hkey it) as [Hs Hr]; [by constructor |].
    by apply reserved_store_frame.
  - intros it' Hin. apply Hkey. by constructor.
Qed.

Lemma batch_reserved_store_record orderId items ttlSeconds it :
  NoDup (sku <$> items) → it ∈ items →
  ∀ db,
    batch_reserved_store keyPrefix now orderId items ttlSeconds db
      !! prefixed keyPrefix (getReservationKey orderId (sku it))
    = Some (Entry (quantity it) (Some (now + 1000 * ttlSeconds))).
Proof.
  induction items as [|it0 items IH]; intros Hnodup Hin db.
  - by apply elem_of_nil in Hin.
  - cbn [fmap list_fmap] in Hnodup. apply NoDup_cons in Hnodup as [Hit0 Hnodup].
    rewrite batch_reserved_store_cons.
    apply elem_of_cons in Hin as [->|Hin]; [|by apply IH].
    rewrite batch_reserved_store_frame.
    + unfold reserved_store. apply lookup_insert_eq.
    + intros it' Hin'. split.
      * apply not_eq_sym, stock_key_not_reservation_key.
      * intros Heq. apply reservation_key_inj_sku in Heq.
        apply Hit0. rewrite Heq. by apply list_elem_of_fmap_2.
Qed.

End BatchSuccess.

(** X11.  A batch with a TTL above 0 in which every item finds its quantity
    in stock succeeds with a row for each item; the stock of every SKU has
    gone down by all the batch asks of that SKU; and when no SKU comes
    twice, each item has its reservation record, with its quantity and an
    expiry the TTL away. *)
Theorem batchReserveStock_succeeds keyPrefix now orderId items ttlSeconds db :
  0 < ttlSeconds →
  forallb (sufficient keyPrefix now db) items = true →
  ∃ db',
    batchReserveStock keyPrefix now orderId items ttlSeconds db
    = (db', Return (BatchReserved (itemResult keyPrefix now db <$> items)
                      (now + ttlSeconds * 1000)))
    ∧ (∀ it, it ∈ items → item_success (itemResult keyPrefix now db it) = true)
    ∧ (∀ x, getStock keyPrefix now x db'
            = getStock keyPrefix now x db - requested_units x items)
    ∧ (NoDup (sku <$> items) →
       ∀ it, it ∈ items →
             db' !! prefixed keyPrefix (getReservationKey orderId (sku it))
             = Some (Entry (quantity it) (Some (now + 1000 * ttlSeconds)))).
Proof.
  intros Httl Hall. rewrite batchReserveStock_eq, Hall by done.
  eexists. split; [done |]. split; [|split].
  - intros it Hin%list_elem_of_In. rewrite forallb_forall in Hall.
    by apply Hall.
  - intros x. apply getStock_batch_reserved.
  - intros Hnodup it Hin. by apply batch_reserved_store_record.
Qed.

Lemma batchReserveStock_succeeds_witness :
  ∃ db',
    (batchReserveStock "aether:" 0 "order"
       [Item "SKU-A" 3; Item "SKU-B" 1; Item "SKU-A" 1] 900
       (initial "aether:" [("SKU-A", 5); ("SKU-B", 1)])).1 = db'
    ∧ getStock "aether:" 0 "SKU-A" db' = 1.
Proof.
  destruct (batchReserveStock_succeeds "aether:" 0 "order"
              [Item "SKU-A" 3; Item "SKU-B" 1; Item "SKU-A" 1] 900
              (initial "aether:" [("SKU-A", 5); ("SKU-B", 1)]))
    as (db' & Hcall & _ & Hstock & _); [lia | reflexivity |].
  exists db'. split; [by rewrite Hcall |].
  rewrite Hstock. reflexivity.
Defined.

(** ** Reserving a batch and releasing the order *)
Section BatchRoundTrip.
Variables (keyPrefix : string).
Implicit Types (db : store) (orderId x : string) (items : list item)
  (results : list (SkuResult ReleaseResult)).




End BatchRoundTrip.



(** ** The lifetime of a reservation *)
Section Lifetime.
Variables (keyPrefix : string).
Implicit Types (db : store) (orderId sku : string).

Lemma find_reserved_record now now' orderId sku quantity ttlSeconds db :
  find now' (prefixed keyPrefix (getReservationKey orderId sku))
    (reserved_store keyPrefix now orderId sku quantity ttlSeconds db)
  = if now' <=? now + 1000 * ttlSeconds
    then Some (Entry quantity (Some (now + 1000 * ttlSeconds)))
    else None.
Proof. unfold reserved_store. by rewrite find_insert. Qed.

Lemma getStock_reserved_later now now' orderId sku quantity ttlSeconds db :
  stock_kept keyPrefix now' sku db = true → now ≤ now' →
  getStock keyPrefix now' sku
    (reserved_store keyPrefix now orderId sku quantity ttlSeconds db)
  = getStock keyPrefix now sku db - quantity.
Proof.
  intros Hkept Hle. unfold getStock at 1, reserved_store.
  rewrite GET_insert_ne by apply not_eq_sym, stock_key_not_reservation_key.
  rewrite GET_insert; [done |]. by apply stock_kept_expiry.
Qed.

Lemma getReservation_at_once now orderId sku db :
  getReservation_at keyPrefix now now now orderId sku db
  = getReservation keyPrefix now orderId sku db.
Proof. done. Qed.

End Lifetime.

(** X13.  From a successful reservation until its TTL has run out the order
    has the reservation: it exists, and getReservation whose GET falls in
    that time answers with the reserved quantity.  The ttl of the answer is
    what Redis gives at the instant of the TTL command, which comes after
    the GET: from 0 to the TTL of the reservation and, in milliseconds,
    within 500 of the time left at that instant, when the reservation is
    still there; -2 when it has run out between the two commands.  The
    expiresAt of the answer is the clock of the client plus that ttl. *)
Theorem reservation_held_until_expiry
    keyPrefix now t_get t_ttl clock orderId sku quantity ttlSeconds db :
  quantity ≤ getStock keyPrefix now sku db →
  0 < ttlSeconds →
  now ≤ t_get ≤ now + 1000 * ttlSeconds →
  t_get ≤ t_ttl →
  let db1 :=
    (reserveStock keyPrefix now orderId sku quantity ttlSeconds db).1 in
  hasReservation keyPrefix t_get orderId sku db1 = 1
  ∧ ∃ ttl,
      getReservation_at keyPrefix t_get t_ttl clock orderId sku db1
      = Some (ReservationInfo_ sku quantity ttl (clock + ttl * 1000))
      ∧ (t_ttl ≤ now + 1000 * ttlSeconds →
         0 ≤ ttl ≤ ttlSeconds
         ∧ now + 1000 * ttlSeconds - 500 < t_ttl + ttl * 1000
         ∧ t_ttl + ttl * 1000 ≤ now + 1000 * ttlSeconds + 500)
      ∧ (now + 1000 * ttlSeconds < t_ttl → ttl = -2).
Proof.
  intros Hstock Httl Hget Hlater db1.
  assert (db1 = reserved_store keyPrefix now orderId sku quantity
                  ttlSeconds db) as ->.
  { unfold db1. by rewrite reserveStock_reserved. }
  assert ((t_get <=? now + 1000 * ttlSeconds) = true) as Hleb
    by (apply Z.leb_le; lia).
  unfold hasReservation, getReservation_at, EXISTS, TTL, GET.
  rewrite !find_reserved_record, Hleb. split; [done |].
  cbn [fmap option_fmap option_map value expireAt].
  destruct (Z.leb_spec t_ttl (now + 1000 * ttlSeconds)) as [Hin|Hout].
  - cbn [expireAt].
    set (d := now + 1000 * ttlSeconds - t_ttl + 500).
    exists (d / 1000). split; [done |].
    pose proof (Z.div_mod d 1000 ltac:(lia)) as Hdiv.
    pose proof (Z.mod_pos_bound d 1000 ltac:(lia)) as Hmod.
    unfold d in *. split; [|lia]. intros _. split; [|lia]. split.
    + apply Z.div_pos; lia.
    + apply Z.lt_succ_r, Z.div_lt_upper_bound; lia.
  - exists (-2). split; [done |]. split; [lia | done].
Qed.

Lemma reservation_held_until_expiry_witness :
  hasReservation "aether:" 899600 "order-1" "SKU-1"
    (reserveStock "aether:" 0 "order-1" "SKU-1" 4 900
       (initial "aether:" [("SKU-1", 10)])).1 = 1.
Proof.
  refine (proj1 (reservation_held_until_expiry "aether:" 0 899600 900100 0
                   "order-1" "SKU-1" 4 900
                   (initial "aether:" [("SKU-1", 10)]) _ _ _ _)).
  - vm_compute. discriminate.
  - lia.
  - lia.
  - lia.
Defined.

(** X14.  Once the TTL of a reservation has run out, the order no longer has
    it: it does not exist, reads back as nothing, and releasing or committing
    it finds nothing and changes nothing.  As long as the stock key of the
    SKU has not itself expired, the stock still reads what the reservation
    left, so the reserved units are not given back by either call. *)
Theorem reservation_lapsed
    keyPrefix now now' orderId sku quantity ttlSeconds db :
  quantity ≤ getStock keyPrefix now sku db →
  0 < ttlSeconds →
  now + 1000 * ttlSeconds < now' →
  let db1 :=
    (reserveStock keyPrefix now orderId sku quantity ttlSeconds db).1 in
  hasReservation keyPrefix now' orderId sku db1 = 0
  ∧ getReservation keyPrefix now' orderId sku db1 = None
  ∧ releaseReservation keyPrefix now' orderId sku db1
    = (db1, Return (NotReleased (getStock keyPrefix now' sku db1)))
  ∧ commitReservation keyPrefix now' orderId sku db1
    = (db1, Return (NotCommitted (getStock keyPrefix now' sku db1)))
  ∧ (stock_kept keyPrefix now' sku db = true →
     getStock keyPrefix now' sku db1
     = getStock keyPrefix now sku db - quantity).
Proof.
  intros Hstock Httl Hnow db1.
  assert (db1 = reserved_store keyPrefix now orderId sku quantity
                  ttlSeconds db) as ->.
  { unfold db1. by rewrite reserveStock_reserved. }
  assert ((now' <=? now + 1000 * ttlSeconds) = false) as Hleb
    by (apply Z.leb_gt; lia).
  assert (GET now' (prefixed keyPrefix (getReservationKey orderId sku))
            (reserved_store keyPrefix now orderId sku quantity ttlSeconds db)
          = None) as Hget.
  { unfold GET. by rewrite find_reserved_record, Hleb. }
  split; [|split; [|split; [|split]]].
  - unfold hasReservation, EXISTS. by rewrite find_reserved_record, Hleb.
  - unfold getReservation. by rewrite Hget.
  - by rewrite releaseReservation_eq, Hget.
  - by rewrite commitReservation_eq, Hget.
  - intros Hkept. apply getStock_reserved_later; [done | lia].
Qed.

(** The witness starts from a keyspace in which an older reservation, of
    order-0, has lapsed as well. *)
Lemma reservation_lapsed_witness :
  let db := (reserveStock "aether:" 0 "order-0" "SKU-1" 1 1
               (initial "aether:" [("SKU-1", 10)])).1 in
  unexpired 2000 db = false
  ∧ getStock "aether:" 902001 "SKU-1"
      (reserveStock "aether:" 2000 "order-1" "SKU-1" 4 900 db).1 = 5.
Proof.
  intros db. split; [vm_compute; reflexivity |].
  refine (eq_trans
            (proj2 (proj2 (proj2 (proj2
               (reservation_lapsed "aether:" 2000 902001 "order-1" "SKU-1"
                  4 900 db _ _ _)))) _) _).
  - vm_compute. discriminate.
  - lia.
  - lia.
  - vm_compute. reflexivity.
  - vm_compute. reflexivity.
Defined.

(** ** The sweeper and the key prefix *)
Section PrefixedKeys.
Variables (keyPrefix : string).
Implicit Types (db : store) (key : string).

Lemma prefix_empty s : String.prefix "" s = true.
Proof. by destruct s. Qed.

Lemma prefix_comparable a b :
  ∀ s, String.prefix a s = true → String.prefix b s = true →
       String.prefix a b = true ∨ String.prefix b a = true.
Proof.
  revert b. induction a as [|x a IH]; intros b s Ha Hb.
  - left. apply prefix_empty.
  - destruct b as [|y b]; [right; apply prefix_empty |].
    destruct s as [|z s]; [discriminate Ha |].
    cbn in Ha, Hb |- *.
    destruct (ascii_dec x z) as [->|]; [|discriminate Ha].
    destruct (ascii_dec y z) as [->|]; [|discriminate Hb].
    destruct (ascii_dec z z); [|congruence]. by apply (IH b s).
Qed.

Lemma under_prefix_lookup db key e :
  under_prefix keyPrefix db = true → db !! key = Some e →
  String.prefix keyPrefix key = true.
Proof. intros H%bool_decide_eq_true Hkey. by apply (H key e). Qed.

Lemma under_prefix_insert db key e :
  under_prefix keyPrefix db = true →
  under_prefix keyPrefix (<[prefixed keyPrefix key := e]> db) = true.
Proof.
  intros H%bool_decide_eq_true. apply bool_decide_eq_true.
  apply map_Forall_insert_2; [apply prefix_append | done].
Qed.

Lemma under_prefix_delete db key :
  under_prefix keyPrefix db = true →
  under_prefix keyPrefix (delete key db) = true.
Proof.
  intros H%bool_decide_eq_true. apply bool_decide_eq_true.
  by apply map_Forall_delete.
Qed.

Lemma under_prefix_empty : under_prefix keyPrefix ∅ = true.
Proof. apply bool_decide_eq_true, map_Forall_empty. Qed.

Lemma under_prefix_initial levels :
  under_prefix keyPrefix (initial keyPrefix levels) = true.
Proof.
  unfold initial. generalize under_prefix_empty.
  generalize (∅ : store). induction levels as [|level levels IH]; [done |].
  intros db Hdb. cbn [foldl]. apply IH. cbn. unfold SET.
  by apply under_prefix_insert.
Qed.

Lemma under_prefix_reserved now orderId sku quantity ttlSeconds db :
  under_prefix keyPrefix db = true →
  under_prefix keyPrefix
    (reserved_store keyPrefix now orderId sku quantity ttlSeconds db) = true.
Proof. intros H. unfold reserved_store. by do 2 apply under_prefix_insert. Qed.

Lemma under_prefix_decremented now sku quantity db :
  under_prefix keyPrefix db = true →
  under_prefix keyPrefix (decremented_store keyPrefix now sku quantity db)
  = true.
Proof. intros H. unfold decremented_store. by apply under_prefix_insert. Qed.

Lemma under_prefix_released now orderId sku q db :
  under_prefix keyPrefix db = true →
  under_prefix keyPrefix (released_store keyPrefix now orderId sku q db)
  = true.
Proof.
  intros H. unfold released_store.
  by apply under_prefix_delete, under_prefix_insert.
Qed.

Lemma under_prefix_batch_reserved now orderId items ttlSeconds :
  ∀ db,
    under_prefix keyPrefix db = true →
    under_prefix keyPrefix
      (batch_reserved_store keyPrefix now orderId items ttlSeconds db) = true.
Proof.
  induction items as [|it items IH]; intros db H; [done |].
  rewrite batch_reserved_store_cons. by apply IH, under_prefix_reserved.
Qed.

Lemma under_prefix_perform now c db :
  under_prefix keyPrefix db = true →
  under_prefix keyPrefix (perform keyPrefix now c db) = true.
Proof.
  intros H. destruct c as [o s q t|o items t|o s|o s]; cbn [perform].
  - rewrite reserveStock_eq. destruct (q <=? _); [|done].
    destruct (0 <? t);
      [by apply under_prefix_reserved | by apply under_prefix_decremented].
  - destruct (forallb (sufficient keyPrefix now db) items) eqn:Hall;
      [|by rewrite batchReserveStock_insufficient].
    destruct (Z.ltb_spec 0 t) as [Ht|Ht].
    + rewrite batchReserveStock_eq, Hall by done.
      by apply under_prefix_batch_reserved.
    + rewrite batchReserveStock_rejected by done.
      destruct items; [done | by apply under_prefix_decremented].
  - rewrite releaseReservation_eq. destruct (GET now _ db); [|done].
    by apply under_prefix_released.
  - rewrite commitReservation_eq. destruct (GET now _ db); [|done].
    by apply under_prefix_delete.
Qed.

Lemma under_prefix_run history :
  ∀ db,
    under_prefix keyPrefix db = true →
    under_prefix keyPrefix (run keyPrefix db history) = true.
Proof.
  induction history as [|[now c] history IH]; intros db H; [done |].
  cbn [run]. by apply IH, under_prefix_perform.
Qed.

Lemma under_prefix_updateStock now sku quantity operation db :
  under_prefix keyPrefix db = true →
  under_prefix keyPrefix
    (updateStock keyPrefix now sku quantity operation db).1 = true.
Proof.
  intros H. destruct (String.eqb_spec operation "increment") as [->|Hi].
  { rewrite updateStock_increment. by apply under_prefix_insert. }
  destruct (String.eqb_spec operation "decrement") as [->|Hd].
  { rewrite updateStock_decrement. by apply under_prefix_insert. }
  rewrite updateStock_set by done. by apply under_prefix_insert.
Qed.

Lemma under_prefix_release_loop now orderId skus :
  ∀ results db,
    under_prefix keyPrefix db = true →
    under_prefix keyPrefix
      (releaseOrderReservations_loop keyPrefix now orderId skus results db).1
    = true.
Proof.
  induction skus as [|sku skus IH]; intros results db H; [done |].
  rewrite release_loop_cons. destruct (GET now _ db); apply IH; [|done].
  by apply under_prefix_released.
Qed.

Lemma under_prefix_commit_loop now orderId skus :
  ∀ results db,
    under_prefix keyPrefix db = true →
    under_prefix keyPrefix
      (commitOrderReservations_loop keyPrefix now orderId skus results db).1
    = true.
Proof.
  induction skus as [|sku skus IH]; intros results db H; [done |].
  rewrite commit_loop_cons. destruct (GET now _ db); apply IH; [|done].
  by apply under_prefix_delete.
Qed.

Lemma KEYS_nil now pattern db :
  (∀ key e, db !! key = Some e → glob pattern key = false) →
  KEYS now pattern db = [].
Proof.
  intros Hno. destruct (KEYS now pattern db) as [|key keys] eqn:Hkeys; [done |].
  assert (key ∈ KEYS now pattern db) as Hin by (rewrite Hkeys; by constructor).
  apply elem_of_KEYS in Hin as [Hglob [e He]].
  apply find_Some in He as [He _]. by rewrite (Hno key e He) in Hglob.
Qed.

End PrefixedKeys.

(** X15.  With a key prefix on the client that does not fit the pattern
    [reservation:*] (neither is the prefix a beginning of ["reservation:"] nor
    the other way round), the sweeper finds no key in a keyspace of prefixed
    keys: the pattern is matched against the keys as stored, so the scan is
    empty, nothing is deleted and the job reports 0 cleaned reservations,
    whatever has expired. *)
Theorem cleanup_finds_nothing keyPrefix now db :
  String.prefix keyPrefix "reservation:" = false →
  String.prefix "reservation:" keyPrefix = false →
  under_prefix keyPrefix db = true →
  KEYS now "reservation:*" db = []
  ∧ InventoryService.cleanupExpiredReservations keyPrefix now db
    = (db, Return 0)
  ∧ InventoryJob.cleanupExpiredReservations keyPrefix now db
    = (db, Return (InventoryJob.CleanupReport_ true 0)).
Proof.
  intros Hp Hr Hdb.
  assert (KEYS now "reservation:*" db = []) as Hkeys.
  { apply KEYS_nil. intros key e Hkey.
    destruct (glob "reservation:*" key) eqn:Hglob; [|done].
    apply glob_reservation in Hglob.
    pose proof (under_prefix_lookup keyPrefix db key e Hdb Hkey) as Hpre.
    destruct (prefix_comparable _ _ key Hpre Hglob); congruence. }
  assert (InventoryService.cleanupExpiredReservations keyPrefix now db
          = (db, Return 0)) as Hclean.
  { unfold InventoryService.cleanupExpiredReservations. by rewrite Hkeys. }
  repeat split; [done.. |].
  unfold InventoryJob.cleanupExpiredReservations.
  unfold mbind, script_bind. by rewrite Hclean.
Qed.

Lemma cleanup_finds_nothing_witness :
  InventoryService.cleanupExpiredReservations "aether:" 2000
    (reserveStock "aether:" 0 "order-1" "SKU-1" 4 1
       (initial "aether:" [("SKU-1", 10)])).1
  = ((reserveStock "aether:" 0 "order-1" "SKU-1" 4 1
        (initial "aether:" [("SKU-1", 10)])).1, Return 0).
Proof.
  refine (proj1 (proj2 (cleanup_finds_nothing "aether:" 2000 _ _ _ _)));
    vm_compute; reflexivity.
Defined.

(** X16.  Every key the inventory service writes carries the key prefix of
    the client: setting up the stock gives a keyspace of prefixed keys, and
    reserving, reserving a batch, releasing, committing, updating the stock
    and releasing or committing the reservations of an order keep it one. *)
Theorem service_keys_under_prefix keyPrefix :
  (∀ levels history,
     under_prefix keyPrefix
       (run keyPrefix (initial keyPrefix levels) history) = true)
  ∧ (∀ now sku quantity operation db,
       under_prefix keyPrefix db = true →
       under_prefix keyPrefix
         (updateStock keyPrefix now sku quantity operation db).1 = true)
  ∧ (∀ now orderId skus db,
       under_prefix keyPrefix db = true →
       under_prefix keyPrefix
         (releaseOrderReservations keyPrefix now orderId skus db).1 = true)
  ∧ (∀ now orderId skus db,
       under_prefix keyPrefix db = true →
       under_prefix keyPrefix
         (commitOrderReservations keyPrefix now orderId skus db).1 = true).
Proof.
  repeat split.
  - intros levels history. apply under_prefix_run, under_prefix_initial.
  - intros now sku quantity operation db. apply under_prefix_updateStock.
  - intros now orderId skus db H. unfold releaseOrderReservations.
    pose proof (under_prefix_release_loop keyPrefix now orderId skus [] db H).
    by destruct (releaseOrderReservations_loop _ _ _ _ _ _).
  - intros now orderId skus db H. unfold commitOrderReservations.
    pose proof (under_prefix_commit_loop keyPrefix now orderId skus [] db H).
    by destruct (commitOrderReservations_loop _ _ _ _ _ _).
Qed.

(** ** The jobs that align Redis with the catalogue *)
Import InventoryProcessor.

Section Recorded.
Implicit Types (db : store).

Lemma recorded_eq {A : Type} (metrics : bool) (call : async A) db :
  recorded metrics call db
  = match call db with
    | (db', Return a) =>
        (db', if metrics then Return a else Raise TypeError)
    | (db', Raise error) => (db', Raise error)
    end.
Proof.
  unfold recorded, recordInventoryMetric, mbind, script_bind.
  destruct (call db) as [db' [a|error]]; [|done]. by destruct metrics.
Qed.

End Recorded.

Section Reconcile.
Variables (keyPrefix : string) (now : Z).
Implicit Types (db : store) (p : product) (v : variant) (vs : list variant)
  (acc : tally) (products : list product) (metrics : bool).

Lemma reconcile_variant_eq metrics p v acc db :
  reconcile_variant keyPrefix now metrics p v acc db
  = if isActive v
       && negb (getStock keyPrefix now (variant_sku v) db =? variant_stock v)
    then
      (<[prefixed keyPrefix (getStockKey (variant_sku v)) :=
           Entry (variant_stock v) None]> db,
       if metrics then
         Return
           (Tally (discrepancies acc
                     ++ [Discrepancy (product_id p) (variant_sku v) (title p)
                           (getStock keyPrefix now (variant_sku v) db)
                           (variant_stock v)
                           (getStock keyPrefix now (variant_sku v) db
                            - variant_stock v)])
              (reconciledCount acc + 1))
       else Raise TypeError)
    else (db, Return acc).
Proof.
  unfold reconcile_variant. destruct (isActive v); [|done].
  unfold await_getStock, mbind at 1, script_bind.
  destruct (getStock keyPrefix now (variant_sku v) db =? variant_stock v);
    [done |].
  cbn [negb andb]. unfold mbind, script_bind.
  rewrite recorded_eq, updateStock_set by done. by destruct metrics.
Qed.

Lemma reconcile_variants_cons metrics p v vs acc db :
  reconcile_variants keyPrefix now metrics p (v :: vs) acc db
  = match reconcile_variant keyPrefix now metrics p v acc db with
    | (db', Return acc') =>
        reconcile_variants keyPrefix now metrics p vs acc' db'
    | (db', Raise error) => (db', Raise error)
    end.
Proof. done. Qed.

Lemma reconcile_products_cons metrics p products acc db :
  reconcile_products keyPrefix now metrics (p :: products) acc db
  = match reconcile_variants keyPrefix now metrics p (variants p) acc db with
    | (db', Return acc') =>
        reconcile_products keyPrefix now metrics products acc' db'
    | (db', Raise error) => (db', Raise error)
    end.
Proof. done. Qed.

Lemma tally_eta acc :
  acc = Tally (discrepancies acc ++ []) (reconciledCount acc + Z.of_nat 0).
Proof. destruct acc. cbn. by rewrite app_nil_r, Z.add_0_r. Qed.

(** Where the metric returns, the loops return, with one discrepancy for
    each update. *)
Lemma reconcile_variants_returns p vs :
  ∀ acc db, ∃ db' new,
    reconcile_variants keyPrefix now true p vs acc db
    = (db', Return (Tally (discrepancies acc ++ new)
                      (reconciledCount acc + Z.of_nat (length new))))
    ∧ (new = [] → db' = db).
Proof.
  induction vs as [|v vs IH]; intros acc db.
  - exists db, []. split; [|done]. cbn. unfold mret, script_ret.
    by rewrite <- tally_eta.
  - rewrite reconcile_variants_cons, reconcile_variant_eq.
    destruct (isActive v && negb _).
    + edestruct IH as (db' & new & -> & _). cbn [discrepancies reconciledCount].
      eexists db', (_ :: new). split; [|done].
      rewrite <- app_assoc. cbn [app length]. do 3 f_equal. lia.
    + apply IH.
Qed.

Lemma reconcile_products_returns products :
  ∀ acc db, ∃ db' new,
    reconcile_products keyPrefix now true products acc db
    = (db', Return (Tally (discrepancies acc ++ new)
                      (reconciledCount acc + Z.of_nat (length new))))
    ∧ (new = [] → db' = db).
Proof.
  induction products as [|p products IH]; intros acc db.
  - exists db, []. split; [|done]. cbn. unfold mret, script_ret.
    by rewrite <- tally_eta.
  - rewrite reconcile_products_cons.
    destruct (reconcile_variants_returns p (variants p) acc db)
      as (db1 & new1 & -> & Hsame1).
    edestruct IH as (db' & new & -> & Hsame).
    cbn [discrepancies reconciledCount].
    exists db', (new1 ++ new). split.
    + rewrite <- app_assoc, length_app. do 3 f_equal. lia.
    + intros [-> ->]%app_eq_nil. rewrite Hsame, Hsame1; done.
Qed.

(** A general step principle: what holds of the keyspace before and is kept
    by setting the stock key of an active variant holds after the loops. *)
Lemma reconcile_variants_keeps (P : store → Prop) p vs :
  (∀ db v, P db → v ∈ vs → isActive v = true →
           P (<[prefixed keyPrefix (getStockKey (variant_sku v)) :=
                  Entry (variant_stock v) None]> db)) →
  ∀ acc db, P db → P (reconcile_variants keyPrefix now true p vs acc db).1.
Proof.
  induction vs as [|v vs IH]; intros Hstep acc db HP; [done |].
  rewrite reconcile_variants_cons, reconcile_variant_eq.
  assert (∀ db v', P db → v' ∈ vs → isActive v' = true →
                   P (<[prefixed keyPrefix (getStockKey (variant_sku v')) :=
                          Entry (variant_stock v') None]> db)) as Hstep'.
  { intros d v' Hd Hin. apply Hstep; [done | by constructor]. }
  destruct (isActive v) eqn:Hactive; cbn [andb]; [|by apply IH].
  destruct (negb _); [|by apply IH].
  apply IH; [done |]. apply Hstep; [done | by constructor | done].
Qed.

Lemma reconcile_products_keeps (P : store → Prop) products :
  (∀ db v, P db → v ∈ concat (variants <$> products) → isActive v = true →
           P (<[prefixed keyPrefix (getStockKey (variant_sku v)) :=
                  Entry (variant_stock v) None]> db)) →
  ∀ acc db, P db → P (reconcile_products keyPrefix now true products acc db).1.
Proof.
  induction products as [|p products IH]; intros Hstep acc db HP; [done |].
  rewrite reconcile_products_cons.
  assert (P (reconcile_variants keyPrefix now true p (variants p) acc db).1)
    as Hvs.
  { apply reconcile_variants_keeps; [|done].
    intros d v Hd Hin. apply Hstep; [done |].
    cbn [fmap list_fmap concat]. apply elem_of_app. by left. }
  destruct (reconcile_variants_returns p (variants p) acc db)
    as (db1 & new1 & Heq & _).
  rewrite Heq in Hvs |- *.
  apply IH; [|done].
  intros d v Hd Hin. apply Hstep; [done |].
  cbn [fmap list_fmap concat]. apply elem_of_app. by right.
Qed.

Lemma listed_stock_cons x v vs :
  listed_stock x (v :: vs)
  = match listed_stock x vs with
    | Some s => Some s
    | None =>
        if isActive v && String.eqb (variant_sku v) x
        then Some (variant_stock v) else None
    end.
Proof.
  unfold listed_stock. rewrite filter_cons.
  destruct (isActive v) eqn:Hactive; cbn [andb].
  - rewrite decide_True by done. rewrite filter_cons.
    destruct (String.eqb_spec (variant_sku v) x) as [Heq|Hne].
    + rewrite decide_True by done. rewrite last_cons.
      by destruct (last _).
    + rewrite decide_False by done. by destruct (last _).
  - rewrite decide_False by (by intros ?). by destruct (last _).
Qed.

Lemma listed_stock_app x vs vs' :
  listed_stock x (vs ++ vs')
  = match listed_stock x vs' with
    | Some s => Some s
    | None => listed_stock x vs
    end.
Proof.
  unfold listed_stock. rewrite !filter_app, last_app.
  by destruct (last (filter _ (filter _ vs'))).
Qed.

Lemma reconcile_variants_stock p vs x :
  ∀ acc db,
    getStock keyPrefix now x
      (reconcile_variants keyPrefix now true p vs acc db).1
    = default (getStock keyPrefix now x db) (listed_stock x vs).
Proof.
  induction vs as [|v vs IH]; intros acc db; [done |].
  rewrite reconcile_variants_cons, reconcile_variant_eq, listed_stock_cons.
  destruct (isActive v); cbn [andb]; [|rewrite IH; by destruct (listed_stock _ _)].
  destruct (Z.eqb_spec (getStock keyPrefix now (variant_sku v) db)
              (variant_stock v)) as [Heq|Hne]; cbn [negb]; rewrite IH.
  - destruct (listed_stock x vs); [done |].
    by destruct (String.eqb_spec (variant_sku v) x) as [<-|].
  - rewrite getStock_insert_stock by done.
    destruct (listed_stock x vs); [done |].
    by destruct (String.eqb (variant_sku v) x).
Qed.

Lemma reconcile_products_stock products x :
  ∀ acc db,
    getStock keyPrefix now x
      (reconcile_products keyPrefix now true products acc db).1
    = default (getStock keyPrefix now x db) (catalogue_stock x products).
Proof.
  unfold catalogue_stock.
  induction products as [|p products IH]; intros acc db; [done |].
  rewrite reconcile_products_cons. cbn [fmap list_fmap concat].
  pose proof (reconcile_variants_stock p (variants p) x acc db) as Hvs.
  destruct (reconcile_variants_returns p (variants p) acc db)
    as (db1 & new1 & Heq & _).
  rewrite Heq in Hvs |- *. cbn [fst] in Hvs.
  rewrite IH, listed_stock_app, Hvs.
  by destruct (listed_stock x (concat _)).
Qed.

(** In sync, the loops write nothing and so call no metric. *)
Lemma reconcile_variants_in_sync metrics p vs :
  ∀ acc db,
    in_sync keyPrefix now vs db = true →
    reconcile_variants keyPrefix now metrics p vs acc db = (db, Return acc).
Proof.
  unfold in_sync.
  induction vs as [|v vs IH]; intros acc db Hsync; [done |].
  rewrite reconcile_variants_cons, reconcile_variant_eq.
  rewrite filter_cons in Hsync.
  destruct (isActive v) eqn:Hactive; cbn [andb].
  - rewrite decide_True in Hsync by done. cbn [forallb] in Hsync.
    apply andb_prop in Hsync as [-> Hsync]. cbn [negb]. by apply IH.
  - rewrite decide_False in Hsync by (by intros ?). by apply IH.
Qed.

Lemma in_sync_app vs vs' db :
  in_sync keyPrefix now (vs ++ vs') db
  = in_sync keyPrefix now vs db && in_sync keyPrefix now vs' db.
Proof. unfold in_sync. by rewrite filter_app, forallb_app. Qed.

Lemma reconcile_products_in_sync metrics products :
  ∀ acc db,
    in_sync keyPrefix now (concat (variants <$> products)) db = true →
    reconcile_products keyPrefix now metrics products acc db
    = (db, Return acc).
Proof.
  induction products as [|p products IH]; intros acc db Hsync; [done |].
  cbn [fmap list_fmap concat] in Hsync. rewrite in_sync_app in Hsync.
  apply andb_prop in Hsync as [Hp Hrest].
  rewrite reconcile_products_cons, reconcile_variants_in_sync by done.
  by apply IH.
Qed.



End Reconcile.


(** X18.  When Redis already reads the stock of every active variant, the
    reconciliation changes nothing and reports no discrepancy, whether
    recordInventoryMetric would return or throw. *)
Theorem reconcileInventory_in_sync
    keyPrefix now metrics merchantId products db :
  in_sync keyPrefix now (concat (variants <$> products)) db = true →
  reconcileInventory keyPrefix now metrics merchantId products db
  = (db, Return (ReconcileReport_ true merchantId (length products) [] 0)).
Proof.
  intros Hsync. unfold reconcileInventory, mbind, script_bind.
  by rewrite reconcile_products_in_sync.
Qed.

Lemma reconcileInventory_in_sync_witness :
  (reconcileInventory "aether:" 0 false None
     [Product "p1" "Shirt" "m1"
        [Variant "SKU-A" 5 true; Variant "SKU-B" 7 false]]
     (initial "aether:" [("SKU-A", 5); ("SKU-B", 2)])).2
  = Return (ReconcileReport_ true None 1 [] 0).
Proof.
  rewrite reconcileInventory_in_sync; reflexivity.
Defined.

Section ReconcileAgain.
Variables (keyPrefix : string).
Implicit Types (db : store) (v : variant) (vs : list variant).

Lemma last_filter_NoDup {A B : Type} `{EqDecision B} (f : A → B)
    (l : list A) (a : A) :
  NoDup (f <$> l) → a ∈ l →
  last (filter (λ b, f b = f a) l) = Some a.
Proof.
  induction l as [|b l IH]; intros Hnodup Hin.
  - by apply elem_of_nil in Hin.
  - cbn [fmap list_fmap] in Hnodup. apply NoDup_cons in Hnodup as [Hb Hnodup].
    rewrite filter_cons. apply elem_of_cons in Hin as [->|Hin].
    + rewrite decide_True by done. rewrite last_cons.
      destruct (last (filter _ l)) as [c|] eqn:Hlast; [|done].
      apply last_Some_elem_of, list_elem_of_filter in Hlast as [Hc Hin].
      destruct Hb. rewrite <- Hc. by apply list_elem_of_fmap_2.
    + destruct (decide (f b = f a)) as [Heq|Hne]; [|by apply IH].
      destruct Hb. rewrite Heq. by apply list_elem_of_fmap_2.
Qed.

Lemma listed_stock_NoDup v vs :
  NoDup (variant_sku <$> filter (λ w, isActive w = true) vs) →
  v ∈ filter (λ w, isActive w = true) vs →
  listed_stock (variant_sku v) vs = Some (variant_stock v).
Proof.
  intros Hnodup Hin. unfold listed_stock.
  by rewrite (last_filter_NoDup variant_sku _ v Hnodup Hin).
Qed.

Lemma stock_kept_set t x sku (q : Z) db :
  stock_kept keyPrefix t x db = true →
  stock_kept keyPrefix t x
    (<[prefixed keyPrefix (getStockKey sku) := Entry q None]> db) = true.
Proof.
  intros Hkept. unfold stock_kept at 1.
  destruct (decide (sku = x)) as [->|Hne].
  - by rewrite lookup_insert_eq.
  - rewrite lookup_insert_ne; [done |]. intros H. by apply stock_key_inj in H.
Qed.

End ReconcileAgain.

(** X19.  When no SKU belongs to two active variants, a second
    reconciliation of the same products, at the same or a later instant,
    after one that went through in a process where recordInventoryMetric
    returns, finds Redis aligned: it lists no discrepancy and changes
    nothing, as long as the stock keys of the active variants have not
    expired in between. *)
Theorem reconcileInventory_again
    keyPrefix now now' metrics merchantId products db :
  NoDup (variant_sku <$> active_variants products) →
  now ≤ now' →
  forallb (λ v, stock_kept keyPrefix now' (variant_sku v) db)
    (active_variants products) = true →
  let db1 :=
    (reconcileInventory keyPrefix now true merchantId products db).1 in
  reconcileInventory keyPrefix now' metrics merchantId products db1
  = (db1, Return (ReconcileReport_ true merchantId (length products) [] 0)).
Proof.
  intros Hnodup Hnow Hkept db1.
  assert (db1
          = (reconcile_products keyPrefix now true products (Tally [] 0) db).1)
    as Hdb1.
  { unfold db1, reconcileInventory, mbind, script_bind.
    by destruct (reconcile_products_returns keyPrefix now products
                   (Tally [] 0) db) as (db' & new & -> & _). }
  unfold reconcileInventory at 1. unfold mbind, script_bind.
  rewrite reconcile_products_in_sync; [done |].
  apply forallb_forall. intros v Hin. apply Z.eqb_eq.
  rewrite forallb_forall in Hkept. specialize (Hkept v Hin).
  apply list_elem_of_In in Hin.
  assert (stock_kept keyPrefix now' (variant_sku v) db1 = true) as Hkept1.
  { rewrite Hdb1.
    apply (reconcile_products_keeps keyPrefix now
             (λ d, stock_kept keyPrefix now' (variant_sku v) d = true));
      [|done].
    intros d w Hd _ _. by apply stock_kept_set. }
  rewrite (getStock_stock_kept keyPrefix now' _ db1 Hkept1).
  rewrite <- (getStock_stock_kept keyPrefix now _ db1)
    by (by apply (stock_kept_earlier keyPrefix now now')).
  rewrite Hdb1, reconcile_products_stock. unfold catalogue_stock.
  by rewrite listed_stock_NoDup.
Qed.

(** The witness starts from a keyspace in which a reservation has lapsed by
    the time of the second run. *)
Lemma reconcileInventory_again_witness :
  let products :=
    [Product "p1" "Shirt" "m1"
       [Variant "SKU-A" 5 true; Variant "SKU-B" 7 true]] in
  let db := (reserveStock "aether:" 0 "order-0" "SKU-A" 1 1
               (initial "aether:" [("SKU-A", 9); ("SKU-B", 7)])).1 in
  unexpired 5000 db = false
  ∧ (reconcileInventory "aether:" 5000 true None products
       (reconcileInventory "aether:" 0 true None products db).1).2
    = Return (ReconcileReport_ true None 1 [] 0).
Proof.
  intros products db. split; [vm_compute; reflexivity |].
  rewrite (reconcileInventory_again "aether:" 0 5000 true None products db).
  - reflexivity.
  - apply (bool_decide_unpack _). vm_compute. exact I.
  - lia.
  - vm_compute. reflexivity.
Defined.

(** ** syncInventory *)
Section Sync.
Variables (keyPrefix : string) (now : Z).
Implicit Types (db : store) (p : product) (v : variant) (vs : list variant)
  (acc : tally) (st : sync_state) (metrics : bool).

Lemma sync_variant_eq metrics v st db :
  sync_variant keyPrefix now metrics v st db
  = let sku := variant_sku v in
    let currentStock := getStock keyPrefix now sku db in
    if isActive v then
      if negb (currentStock =? variant_stock v) then
        (<[prefixed keyPrefix (getStockKey sku) :=
             Entry (variant_stock v) None]> db,
         if metrics then
           SyncState (syncedCount st + 1)
             (sync_results st
                ++ [if (currentStock =? 0) && (0 <? variant_stock v)
                    then Initialized sku (variant_stock v)
                    else Updated sku currentStock (variant_stock v)])
         else
           SyncState (syncedCount st)
             (sync_results st ++ [SyncError sku TypeError]))
      else
        (db, SyncState (syncedCount st)
               (sync_results st ++ [InSync sku (variant_stock v)]))
    else (db, st).
Proof.
  unfold sync_variant. cbn zeta. destruct (isActive v); [|done].
  rewrite !recorded_eq, updateStock_set by done.
  unfold initializeStock, SET.
  destruct (Z.eqb_spec (getStock keyPrefix now (variant_sku v) db) 0)
    as [Hzero|Hzero];
    destruct (Z.ltb_spec 0 (variant_stock v)) as [Hpos|Hpos]; cbn [andb].
  - destruct (Z.eqb_spec (getStock keyPrefix now (variant_sku v) db)
                (variant_stock v)); [lia |]. by destruct metrics.
  - destruct (_ =? variant_stock v); [done |]. by destruct metrics.
  - destruct (_ =? variant_stock v); [done |]. by destruct metrics.
  - destruct (_ =? variant_stock v); [done |]. by destruct metrics.
Qed.

Lemma sync_variants_cons metrics v vs st db :
  sync_variants keyPrefix now metrics (v :: vs) st db
  = sync_variants keyPrefix now metrics vs
      (sync_variant keyPrefix now metrics v st db).2
      (sync_variant keyPrefix now metrics v st db).1.
Proof. cbn [sync_variants]. by destruct (sync_variant _ _ _ _ _ _). Qed.

Lemma sync_state_eta st :
  st = SyncState (syncedCount st + Z.of_nat 0) (sync_results st ++ []).
Proof. destruct st. cbn. by rewrite app_nil_r, Z.add_0_r. Qed.

(** The loop of syncInventory against the loop of a reconciliation that
    goes through: the same writes; a result for every active variant; where
    the metric returns, a variant synced for every discrepancy and no error;
    where it throws, an error for every discrepancy and nothing synced. *)
Lemma sync_variants_reconcile metrics p vs :
  ∀ st acc db, ∃ db' new found,
    sync_variants keyPrefix now metrics vs st db
    = (db', SyncState (syncedCount st
                       + Z.of_nat (length (filter (λ r, sync_wrote r = true)
                                             new)))
              (sync_results st ++ new))
    ∧ reconcile_variants keyPrefix now true p vs acc db
      = (db', Return (Tally (discrepancies acc ++ found)
                        (reconciledCount acc + Z.of_nat (length found))))
    ∧ sync_sku <$> new
      = variant_sku <$> filter (λ v, isActive v = true) vs
    ∧ length (filter (λ r, sync_wrote r = true) new)
      = (if metrics then length found else 0%nat)
    ∧ length (filter (λ r, sync_error r = true) new)
      = (if metrics then 0%nat else length found).
Proof.
  induction vs as [|v vs IH]; intros st acc db.
  - exists db, [], []. cbn. unfold mret, script_ret.
    rewrite <- sync_state_eta, <- tally_eta. by destruct metrics.
  - rewrite sync_variants_cons, sync_variant_eq, reconcile_variants_cons,
      reconcile_variant_eq, filter_cons. cbn zeta.
    destruct (isActive v) eqn:Hactive; cbn [andb];
      [|rewrite decide_False by (by intros ?); cbn [fst snd]; apply IH].
    rewrite decide_True by done.
    destruct (negb _); cbn [fst snd].
    + destruct metrics;
        [destruct ((_ =? 0) && (0 <? _)) |];
        match goal with
        | |- context [sync_variants _ _ _ _ (SyncState _ (_ ++ [?r])) ?d] =>
            match goal with
            | |- context [Tally (_ ++ [?f]) _] =>
                edestruct IH
                  as (db' & new & found & -> & -> & Hskus & Hwrote & Herr);
                exists db', (r :: new), (f :: found)
            end
        end;
        rewrite !filter_cons; cbn [sync_wrote sync_error sync_sku];
        repeat first [rewrite decide_True by done
                     | rewrite decide_False by done];
        cbn [syncedCount sync_results discrepancies reconciledCount
               length fmap list_fmap];
        rewrite <- !app_assoc, Hskus, Hwrote, Herr; cbn [app];
        (split; [do 2 f_equal; lia |]);
        (split; [do 3 f_equal; lia |]); done.
    + edestruct IH as (db' & new & found & -> & -> & Hskus & Hwrote & Herr).
      exists db', (InSync (variant_sku v) (variant_stock v) :: new), found.
      rewrite !filter_cons; cbn [sync_wrote sync_error sync_sku].
      repeat rewrite decide_False by done.
      cbn [syncedCount sync_results length fmap list_fmap].
      rewrite <- !app_assoc, Hskus, Hwrote, Herr. cbn [app]. done.
Qed.

End Sync.

(** X20.  syncInventory of a product that was found resolves, whether
    recordInventoryMetric returns or throws, and leaves Redis as a
    reconciliation of that one product that goes through would.  Its results
    name the active variants of the product, in their order, and
    syncedCount counts the results with status initialized or updated.
    Where the metric returns, no result is an error and syncedCount is what
    the reconciliation counts; where it throws, every variant that was
    written is reported as an error, so that the errors are as many as the
    reconciliation counts, and syncedCount is 0. *)
Theorem syncInventory_reconciles
    keyPrefix now metrics productId merchantId (p : product) db :
  ∃ db' report reconciled,
    syncInventory keyPrefix now metrics productId (Some p) db
    = (db', Resolves report)
    ∧ reconcileInventory keyPrefix now true merchantId [p] db
      = (db', Return reconciled)
    ∧ sync_success report = true
    ∧ sync_productId report = productId
    ∧ sync_sku <$> report_results report
      = variant_sku <$> active_variants [p]
    ∧ report_syncedCount report
      = Z.of_nat (length (filter (λ r, sync_wrote r = true)
                            (report_results report)))
    ∧ (if metrics then
         report_syncedCount report = report_reconciledCount reconciled
         ∧ filter (λ r, sync_error r = true) (report_results report) = []
       else
         report_syncedCount report = 0
         ∧ Z.of_nat (length (filter (λ r, sync_error r = true)
                               (report_results report)))
           = report_reconciledCount reconciled).
Proof.
  unfold syncInventory, reconcileInventory, mbind, script_bind.
  cbn [reconcile_products]. unfold mbind, script_bind, mret, script_ret.
  destruct (sync_variants_reconcile keyPrefix now metrics p (variants p)
              (SyncState 0 []) (Tally [] 0) db)
    as (db' & new & found & -> & -> & Hskus & Hwrote & Herr).
  eexists db', _, _. split; [done |]. split; [done |]. cbn.
  unfold active_variants. cbn [fmap list_fmap concat].
  rewrite app_nil_r. do 4 (split; [done |]).
  rewrite Hwrote, Herr. destruct metrics; split; try done.
  by apply length_zero_iff_nil.
Qed.

(** ** A refunded order *)
Section Refund.
Variables (keyPrefix : string).
Implicit Types (db : store) (orderId x : string) (items : list item).

Lemma returnStock_cons now metrics it items db :
  OrderProcessor.returnStock keyPrefix now metrics (it :: items) db
  = let db' :=
      <[prefixed keyPrefix (getStockKey (sku it)) :=
          Entry (getStock keyPrefix now (sku it) db + quantity it)
            (find now (prefixed keyPrefix (getStockKey (sku it))) db
             ≫= expireAt)]> db in
    if metrics then OrderProcessor.returnStock keyPrefix now true items db'
    else (db', Raise TypeError).
Proof.
  cbn [OrderProcessor.returnStock]. unfold mbind at 1. unfold script_bind.
  rewrite recorded_eq, updateStock_increment. by destruct metrics.
Qed.

Lemma returnStock_returns now items :
  ∀ db, (OrderProcessor.returnStock keyPrefix now true items db).2 = Return tt.
Proof.
  induction items as [|it items IH]; intros db; [done |].
  by rewrite returnStock_cons.
Qed.

Lemma getStock_returnStock now items x :
  ∀ db,
    getStock keyPrefix now x
      (OrderProcessor.returnStock keyPrefix now true items db).1
    = getStock keyPrefix now x db + requested_units x items.
Proof.
  induction items as [|it items IH]; intros db.
  - cbn. lia.
  - rewrite returnStock_cons. cbn zeta. rewrite IH.
    rewrite getStock_insert_stock by apply live_kept_expiry.
    cbn [requested_units foldr value]. fold (requested_units x items).
    destruct (String.eqb_spec (sku it) x) as [->|]; lia.
Qed.

End Refund.

(** X21.  An order whose batch was reserved with a TTL above 0, whose
    reservations were committed and which is then refunded, in a process
    where recordInventoryMetric returns, has given back what it took: the
    refund loop completes, and afterwards every SKU whose stock key has not
    itself expired reads the stock it had before the batch.  (The refund
    adds the quantity of every item of the order to its SKU, whatever became
    of the reservations.)  In a process where recordInventoryMetric throws,
    the loop is rejected with the TypeError after the increment of its
    first item. *)
Theorem refund_returns_reserved
    keyPrefix t0 t1 t2 orderId items ttlSeconds db :
  forallb (sufficient keyPrefix t0 db) items = true →
  0 < ttlSeconds →
  t0 ≤ t2 →
  let db1 :=
    (batchReserveStock keyPrefix t0 orderId items ttlSeconds db).1 in
  let db2 :=
    (commitOrderReservations keyPrefix t1 orderId (sku <$> items) db1).1 in
  (OrderProcessor.returnStock keyPrefix t2 true items db2).2 = Return tt
  ∧ (∀ x, stock_kept keyPrefix t2 x db = true →
          getStock keyPrefix t2 x
            (OrderProcessor.returnStock keyPrefix t2 true items db2).1
          = getStock keyPrefix t0 x db)
  ∧ (∀ it rest,
       items = it :: rest →
       OrderProcessor.returnStock keyPrefix t2 false items db2
       = ((updateStock keyPrefix t2 (sku it) (quantity it) "increment"
             db2).1,
          Raise TypeError)).
Proof.
  intros Hall Httl Hle db1 db2. split; [apply returnStock_returns |].
  split.
  - intros x Hkept. rewrite getStock_returnStock.
    assert (db1 = batch_reserved_store keyPrefix t0 orderId items
                    ttlSeconds db) as Hdb1.
    { unfold db1. by rewrite batchReserveStock_eq, Hall. }
    assert (getStock keyPrefix t2 x db2 = getStock keyPrefix t2 x db1) as ->.
    { unfold db2, commitOrderReservations.
      destruct (commit_loop_spec keyPrefix t1 orderId (sku <$> items) [] db1)
        as (_ & _ & Hstock & _).
      destruct (commitOrderReservations_loop _ _ _ _ _ _). apply Hstock. }
    assert (stock_kept keyPrefix t2 x db1 = true) as Hkept1.
    { rewrite Hdb1. by apply stock_kept_batch_reserved. }
    rewrite (getStock_stock_kept keyPrefix t2 x db1 Hkept1).
    rewrite <- (getStock_stock_kept keyPrefix t0 x db1)
      by (by apply (stock_kept_earlier keyPrefix t0 t2)).
    rewrite Hdb1, getStock_batch_reserved. lia.
  - intros it rest ->. rewrite returnStock_cons.
    by rewrite updateStock_increment.
Qed.

(** The witness starts from a keyspace in which an older reservation, of
    order-0, has lapsed by the time of the refund. *)
Lemma refund_returns_reserved_witness :
  let db := (reserveStock "aether:" 0 "order-0" "SKU-B" 1 1
               (initial "aether:" [("SKU-A", 5); ("SKU-B", 2)])).1 in
  let items := [Item "SKU-A" 3; Item "SKU-B" 1; Item "SKU-A" 1] in
  let db1 := (batchReserveStock "aether:" 500 "order" items 900 db).1 in
  let db2 :=
    (commitOrderReservations "aether:" 60000 "order" (sku <$> items) db1).1 in
  unexpired 86400000 db = false
  ∧ getStock "aether:" 86400000 "SKU-A"
      (OrderProcessor.returnStock "aether:" 86400000 true items db2).1 = 5.
Proof.
  intros db items db1 db2. split; [vm_compute; reflexivity |].
  destruct (refund_returns_reserved "aether:" 500 60000 86400000 "order"
              items 900 db) as (_ & Hstock & _).
  - reflexivity.
  - lia.
  - lia.
  - unfold db2, db1. rewrite Hstock; vm_compute; reflexivity.
Defined.

(** ** The scripts on arguments the service does not send *)
Section RawScripts.
Variables (now : Z).
Implicit Types (db : store) (KEYS : list string) (ARGV : list Z)
  (acc : first_pass_state).

Lemma check_item_reads stockKey reservationKey ARGV_i ARGV_i1 acc db :
  (check_item now stockKey reservationKey ARGV_i ARGV_i1 acc db).1 = db.
Proof.
  unfold check_item. destruct ARGV_i as [qty|]; [|done].
  unfold get_number, call_GET. script_unfold. by destruct (_ <? qty).
Qed.

Lemma first_pass_reads_upto (n : nat) :
  ∀ KEYS ARGV acc db,
    (length KEYS ≤ n)%nat → (first_pass now KEYS ARGV acc db).1 = db.
Proof.
  induction n as [|n IH]; intros KEYS ARGV acc db Hlen.
  - destruct KEYS; [done | cbn in Hlen; lia].
  - destruct KEYS as [|stockKey [|reservationKey KEYS]]; [done | |].
    + apply check_item_reads.
    + cbn [first_pass]. unfold mbind at 1. unfold script_bind.
      pose proof (check_item_reads stockKey (Some reservationKey)
                    (ARGV !! 0%nat) (ARGV !! 1%nat) acc db) as Hitem.
      destruct (check_item now stockKey (Some reservationKey) _ _ acc db)
        as [db1 [acc1|error]]; cbn [fst] in Hitem; subst db1; [|done].
      apply IH. cbn in Hlen. lia.
Qed.

Lemma first_pass_reads KEYS ARGV acc db :
  (first_pass now KEYS ARGV acc db).1 = db.
Proof. by apply (first_pass_reads_upto (length KEYS)). Qed.

Lemma batch_reserve_stock_unfold KEYS ARGV db :
  batch_reserve_stock now KEYS ARGV db
  = match first_pass now KEYS ARGV (FirstPass true [] []) db with
    | (db1, Return st) =>
        if allSuccess st then
          match second_pass now (reservations st) db1 with
          | (db2, Return _) => (db2, Return (1, results st))
          | (db2, Raise error) => (db2, Raise error)
          end
        else (db1, Return (0, results st))
    | (db1, Raise error) => (db1, Raise error)
    end.
Proof.
  unfold batch_reserve_stock. unfold mbind at 1. unfold script_bind.
  destruct (first_pass now KEYS ARGV _ db) as [db1 [st|error]]; [|done].
  destruct (allSuccess st); [|done]. unfold mbind, script_bind.
  by destruct (second_pass now (reservations st) db1) as [db2 [[]|error]].
Qed.

End RawScripts.

(** X22.  reserve-stock.lua does not check its TTL: with enough stock and a
    TTL of zero or less the script takes the quantity off the stock and then
    fails on the SET of the reservation, so the call ends in an error with
    the stock decremented and no reservation written. *)
Theorem reserve_stock_invalid_expiry now KEYS1 KEYS2 qty ttl db :
  ttl ≤ 0 →
  qty ≤ default 0 (GET now KEYS1 db) →
  KEYS1 ≠ KEYS2 →
  ∃ db',
    reserve_stock now KEYS1 KEYS2 qty ttl db = (db', Raise InvalidExpireTime)
    ∧ GET now KEYS1 db' = Some (default 0 (GET now KEYS1 db) - qty)
    ∧ db' !! KEYS2 = db !! KEYS2.
Proof.
  intros Httl Hqty Hkeys. eexists. split.
  - rewrite reserve_stock_eq. cbn.
    rewrite (proj2 (Z.leb_le _ _)) by done.
    unfold SET_EX. by rewrite (proj2 (Z.ltb_ge _ _)) by done.
  - unfold DECRBY. rewrite INCRBY_eq. cbn [fst]. split.
    + rewrite GET_insert by apply live_kept_expiry. cbn [value].
      by rewrite Z.add_opp_r.
    + by rewrite lookup_insert_ne.
Qed.

Lemma reserve_stock_invalid_expiry_witness :
  ∃ db',
    reserve_stock 0 "stock:sku:SKU-1" "reservation:order-1:SKU-1" 4 0
      (initial "" [("SKU-1", 10)])
    = (db', Raise InvalidExpireTime)
    ∧ GET 0 "stock:sku:SKU-1" db' = Some 6.
Proof.
  destruct (reserve_stock_invalid_expiry 0 "stock:sku:SKU-1"
              "reservation:order-1:SKU-1" 4 0 (initial "" [("SKU-1", 10)]))
    as (db' & Hcall & Hstock & _).
  - lia.
  - vm_compute. discriminate.
  - discriminate.
  - exists db'. split; [exact Hcall |]. rewrite Hstock. reflexivity.
Defined.

(** X23.  batch-reserve-stock.lua, whatever KEYS and ARGV it is given, writes
    nothing in its first loop: when it replies with a failure, or stops in
    the first loop on a missing argument, the keyspace is as it was. *)
Theorem batch_reserve_stock_failure_writes_nothing now KEYS ARGV db :
  let r := batch_reserve_stock now KEYS ARGV db in
  (first_pass now KEYS ARGV (FirstPass true [] []) db).1 = db
  ∧ (∀ rows, r.2 = Return (0, rows) → r.1 = db)
  ∧ (∀ error,
       (first_pass now KEYS ARGV (FirstPass true [] []) db).2 = Raise error →
       r = (db, Raise error)).
Proof.
  intros r. subst r. rewrite batch_reserve_stock_unfold.
  pose proof (first_pass_reads now KEYS ARGV (FirstPass true [] []) db)
    as Hreads.
  destruct (first_pass now KEYS ARGV (FirstPass true [] []) db)
    as [db1 [st|error]]; cbn [fst snd] in Hreads |- *; subst db1.
  - split; [done |]. split; [|done]. intros rows.
    destruct (allSuccess st); [|done].
    by destruct (second_pass now (reservations st) db) as [db2 [[]|e]].
  - split; [done |]. split; [done |]. by intros e [= ->].
Qed.
